(** * mother-demo: the event store, the risk/posture pipeline and the
      attack-chain scheduler, embedded from the Python sources.

    Conventions of the embedding.
    - Python [float]s (durations, delays, confidences, [time.time()]) are
      exact rationals [Q]; the binary rounding of float arithmetic is not
      modelled, the decimal rounding the code asks for ([f"{x:.3f}"],
      [round]) is.
    - A [datetime] is an integer number of microseconds ([Z]); the library
      parser [datetime.fromisoformat] is a parameter of the development
      (class [IsoParser]), [None] standing for the exception it raises.
    - Every read of a clock ([datetime.utcnow()], [time.time()]) and every
      draw from [random] is an explicit argument of the function that
      performs it.
    - Module-level globals ([_events], [_event_counter], [_attack_plans])
      are threaded explicitly. *)

From Stdlib Require Import ZArith QArith Qround Lqa Lia Ascii String List DecimalString.
From Stdlib Require OrderedTypeEx.
From Stdlib Require Import Sorted.
From stdpp Require Import gmap strings list.

Open Scope Z_scope.

(* ====================================================================== *)
(** * backend/modules/utils.py *)
(* ====================================================================== *)

Module Utils.

(** The [Event] dataclass.  [e_id] is [None] when the attribute is missing
    or set to [None]; [e_timestamp] likewise. *)
Record Event : Type := mkEvent {
  e_id : option Z;
  e_timestamp : option string;
  e_source_ip : string;
  e_dest_port : Z;
  e_phase : string;
  e_category : string;
  e_severity : string;
  e_chain_id : option string;
  e_stage : option string;
  e_raw : string;
  e_parsed : list (string * string);
  e_recommendation : list (string * string)
}.

#[global] Instance Event_eq_dec : EqDecision Event.
Proof. solve_decision. Defined.

Definition set_id (n : Z) (e : Event) : Event :=
  mkEvent (Some n) (e_timestamp e) (e_source_ip e) (e_dest_port e)
          (e_phase e) (e_category e) (e_severity e) (e_chain_id e)
          (e_stage e) (e_raw e) (e_parsed e) (e_recommendation e).

Definition set_timestamp (ts : string) (e : Event) : Event :=
  mkEvent (e_id e) (Some ts) (e_source_ip e) (e_dest_port e)
          (e_phase e) (e_category e) (e_severity e) (e_chain_id e)
          (e_stage e) (e_raw e) (e_parsed e) (e_recommendation e).

End Utils.
Export Utils.

(** Python truthiness of an optional string: [None] and [""] are falsy. *)
Definition truthy (o : option string) : bool :=
  match o with
  | None => false
  | Some s => negb (String.eqb s "")
  end.

(** [collections.deque(maxlen=n).append(x)]: once the deque is full the
    leftmost element is discarded. *)
Definition deque_append {A : Type} (maxlen : nat) (d : list A) (x : A) : list A :=
  if (length d <? maxlen)%nat then d ++ [x] else drop 1 (d ++ [x]).

(* ====================================================================== *)
(** * Event dicts, clocks and Python builtins shared by the pure modules *)
(* ====================================================================== *)

(** [datetime.fromisoformat], a library function: microseconds of the parsed
    instant, or [None] where it raises. *)
Class IsoParser : Type := fromisoformat : string -> option Z.

(** The dict that [serialize_event] and [get_posture] build from an [Event]
    and hand to the classifier, the posture engine and the recommender.
    A field is [None] when the key is absent or bound to [None]: the
    functions below only compare the looked-up value with string literals,
    and neither an absent key's default nor [None] equals any of them. *)
Record EventDict : Type := mkDict {
  d_id : option Z;
  d_timestamp : option string;
  d_chain_id : option string;
  d_stage : option string;
  d_source_ip : option string;
  d_dest_port : option Z;
  d_phase : option string;
  d_category : option string;
  d_severity : option string;
  d_raw : option string;
  d_parsed : option (list (string * string))
}.

(** The dict literal of [state.serialize_event] / [state.get_posture]. *)
Definition event_dict (e : Event) : EventDict :=
  mkDict (e_id e) (e_timestamp e) (e_chain_id e) (e_stage e)
         (Some (e_source_ip e)) (Some (e_dest_port e)) (Some (e_phase e))
         (Some (e_category e)) (Some (e_severity e)) (Some (e_raw e))
         (Some (e_parsed e)).

(** [timedelta.total_seconds()] of a difference given in microseconds. *)
Definition total_seconds (us : Z) : Q := us # 1000000.

(** Python's two-argument [min] and [max]: the first argument wins ties. *)
Definition py_min (a b : Q) : Q := if Qlt_le_dec b a then b else a.
Definition py_max (a b : Q) : Q := if Qlt_le_dec a b then b else a.

(** [collections.Counter] over a sequence, as the insertion-ordered dict it
    is: one pair per distinct key, in order of first occurrence. *)
Fixpoint counter_incr {K : Type} `{EqDecision K} (k : K) (c : list (K * nat))
  : list (K * nat) :=
  match c with
  | [] => [(k, 1%nat)]
  | (k', n) :: rest =>
      if decide (k' = k) then (k', S n) :: rest
      else (k', n) :: counter_incr k rest
  end.

Definition Counter {K : Type} `{EqDecision K} (l : list K) : list (K * nat) :=
  foldl (fun c k => counter_incr k c) [] l.

(** [Counter.most_common(1)]: the first pair with the largest count. *)
Fixpoint most_common_1 {K : Type} (c : list (K * nat)) : option (K * nat) :=
  match c with
  | [] => None
  | (k, n) :: rest =>
      match most_common_1 rest with
      | Some (k', n') => if (n <? n')%nat then Some (k', n') else Some (k, n)
      | None => Some (k, n)
      end
  end.

(** [list(dict.fromkeys(l))]: duplicates dropped, first occurrences kept. *)
Fixpoint distinct {K : Type} `{EqDecision K} (seen l : list K) : list K :=
  match l with
  | [] => []
  | x :: rest =>
      if decide (x ∈ seen) then distinct seen rest
      else x :: distinct (x :: seen) rest
  end.

(* ====================================================================== *)
(** * backend/modules/classifier.py *)
(* ====================================================================== *)

Module Classifier.
Section WithParser.
Context `{IsoParser}.

(** [now] is the reading of [datetime.utcnow()]; a timestamp that does not
    parse (or is not a string) is replaced by it. *)
Definition _parse_ts (now : Z) (ts : option string) : Z :=
  match ts with
  | Some s => match fromisoformat s with Some t => t | None => now end
  | None => now
  end.

Definition _seconds_ago (now : Z) (ts : option string) : Q :=
  total_seconds (now - _parse_ts now ts).

Record Classification : Type := mkClassification {
  risk : string;
  confidence : Q;
  factors : list string
}.

Definition classify_event (now : Z) (event : EventDict) : Classification :=
  let stage := d_stage event in
  let severity := d_severity event in
  let age := _seconds_ago now (d_timestamp event) in
  let factors : list string := [] in
  let conf : Q := 0.3%Q in
  if decide (stage = Some "noise") then
    mkClassification "low" 0.2%Q (factors ++ ["noise category → low risk"])
  else
    let '(conf, factors, risk) :=
      if decide (stage = Some "recon") then
        ((conf + 0.1)%Q, factors ++ ["recon activity detected"], "medium")
      else if decide (stage = Some "intrusion") then
        ((conf + 0.25)%Q, factors ++ ["intrusion indicators present"], "high")
      else if decide (stage = Some "exploit") then
        ((conf + 0.45)%Q, factors ++ ["exploit behavior detected"], "critical")
      else
        (conf, factors ++ ["unknown stage → assume medium risk"], "medium") in
    let '(conf, factors) :=
      if decide (severity = Some "malicious") then
        ((conf + 0.15)%Q, factors ++ ["severity=malicious → increased risk"])
      else if decide (severity = Some "critical") then
        ((conf + 0.3)%Q, factors ++ ["severity=critical → high concern"])
      else (conf, factors) in
    let '(conf, factors) :=
      if Qlt_le_dec age 60%Q then
        ((conf + 0.1)%Q, factors ++ ["recent activity (<60s)"])
      else (conf, factors) in
    let conf := py_max 0%Q (py_min conf 1%Q) in
    mkClassification risk conf factors.

Record ChainSummary : Type := mkSummary {
  cs_risk : option string;
  cs_confidence : Q;
  cs_stages : list (option string);
  cs_ip : option string;
  cs_factors : list string;
  cs_chain_id : option string
}.

(** [str(x)] for an optional string inside an f-string. *)
Definition str_opt (o : option string) : string :=
  match o with Some s => s | None => "None" end.

Definition str_nat (n : nat) : string :=
  NilEmpty.string_of_uint (Nat.to_uint n).

Definition classify_chain (chain_events : list EventDict) : ChainSummary :=
  match chain_events with
  | [] => mkSummary (Some "low") 0%Q [] None ["empty chain"] None
  | _ =>
      let stages := map d_stage chain_events in
      let sev := map d_severity chain_events in
      let ips := map d_source_ip chain_events in
      let distinct_stages := distinct [] stages in
      let factors : list string := [] in
      let conf : Q := 0.4%Q in
      let '(conf, factors, risk) :=
        if forallb (fun st => bool_decide (st = Some "recon")) distinct_stages
        then (conf, factors ++ ["recon-only chain → medium risk"], "medium")
        else if decide (Some "exploit" ∈ stages) then
          ((conf + 0.35)%Q, factors ++ ["exploit stage present → critical risk"],
           "critical")
        else if decide (Some "intrusion" ∈ stages) then
          ((conf + 0.20)%Q, factors ++ ["intrusion indicators → high risk"], "high")
        else if decide (Some "recon" ∈ stages) then
          ((conf + 0.10)%Q, factors ++ ["recon sequence → medium risk"], "medium")
        else (conf, factors ++ ["default chain rule → low risk"], "low") in
      let '(conf, factors) :=
        if decide (Some "critical" ∈ sev) then
          ((conf + 0.25)%Q, factors ++ ["critical severity event in chain"])
        else if decide (Some "malicious" ∈ sev) then
          ((conf + 0.15)%Q, factors ++ ["malicious severity in chain"])
        else (conf, factors) in
      match most_common_1 (Counter ips) with
      | None => mkSummary (Some risk) conf distinct_stages None factors None
      | Some (dominant_ip, count) =>
          let '(conf, factors) :=
            if (1 <? count)%nat then
              ((conf + 0.1)%Q,
               factors ++ [(str_nat count ++ " repeated actions from IP "
                            ++ str_opt dominant_ip)%string])
            else (conf, factors) in
          let conf := py_max 0%Q (py_min conf 1%Q) in
          mkSummary (Some risk) conf distinct_stages dominant_ip factors None
      end
  end.

End WithParser.
End Classifier.

(* ====================================================================== *)
(** * backend/modules/posture.py *)
(* ====================================================================== *)

Module Posture.
Section WithParser.
Context `{IsoParser}.

(** posture.py carries its own copies of the two timestamp helpers. *)
Definition _parse_ts (now : Z) (ts : option string) : Z :=
  match ts with
  | Some s => match fromisoformat s with Some t => t | None => now end
  | None => now
  end.

Definition _seconds_ago (now : Z) (ts : option string) : Q :=
  total_seconds (now - _parse_ts now ts).

(** The [malicious_ips] list built by the second rule. *)
Fixpoint malicious_ips (now : Z) (recent_events : list EventDict)
  : list (option string) :=
  match recent_events with
  | [] => []
  | evt :: rest =>
      if decide (d_severity evt = Some "malicious") then
        if Qle_bool (_seconds_ago now (d_timestamp evt)) 30%Q
        then d_source_ip evt :: malicious_ips now rest
        else malicious_ips now rest
      else malicious_ips now rest
  end.

(** [if malicious_ips: counts = Counter(malicious_ips);
     if any(v >= 2 for v in counts.values()): ...] *)
Definition any_repeated (ips : list (option string)) : bool :=
  match ips with
  | [] => false
  | _ => existsb (fun v => (2 <=? v)%nat) (map snd (Counter ips))
  end.

Definition determine_posture (now : Z) (recent_events : list EventDict)
    (chain_summaries : list Classifier.ChainSummary) : string :=
  if existsb (fun summary =>
                bool_decide (Classifier.cs_risk summary = Some "critical"))
             chain_summaries
  then "LOCKDOWN"
  else
    if any_repeated (malicious_ips now recent_events)
    then "RESTRICT"
    else if forallb (fun evt => bool_decide (d_severity evt = Some "benign"))
                    recent_events
    then "MONITOR"
    else "ELEVATED".

End WithParser.
End Posture.

(* ====================================================================== *)
(** * backend/modules/recommender.py *)
(* ====================================================================== *)

Module Recommender.

Record Recommendation : Type := mkRec {
  action : string;
  reason : string;
  priority : Z
}.

(** The [result] dict starts as the default recommendation and is updated
    by the first stage that matches; the classification's risk is consulted
    only when no stage does. *)
Definition recommend_for_event (event : EventDict)
    (classification : Classifier.Classification) : Recommendation :=
  let stage := d_stage event in
  let risk := Classifier.risk classification in
  if decide (stage = Some "noise") then
    mkRec "watch" "noise category event" 1
  else if decide (stage = Some "recon") then
    mkRec "investigate" "recon activity detected" 2
  else if decide (stage = Some "intrusion") then
    mkRec "block" "intrusion indicators observed" 4
  else if decide (stage = Some "exploit") then
    mkRec "isolate" "exploit behavior detected" 5
  else if decide (risk = "high") then
    mkRec "block" "high-risk classification" 4
  else if decide (risk = "critical") then
    mkRec "isolate" "critical risk classification" 5
  else mkRec "watch" "baseline monitoring" 1.

Definition recommend_for_chain (chain_summary : Classifier.ChainSummary)
  : Recommendation :=
  let stages := Classifier.cs_stages chain_summary in
  let risk := Classifier.cs_risk chain_summary in
  if decide (stages = [Some "recon"]) then
    mkRec "watch" "recon-only chain" 2
  else if decide (Some "exploit" ∈ stages) then
    mkRec "isolate" "exploit stage present" 5
  else if decide (Some "intrusion" ∈ stages) then
    mkRec "block" "intrusion indicators across chain" 4
  else if decide (risk = Some "high") then
    mkRec "block" "high-risk chain" 4
  else if decide (risk = Some "critical") then
    mkRec "isolate" "critical chain" 5
  else mkRec "watch" "default low-risk chain" 1.

Record GlobalRecommendation : Type := mkGlobal {
  g_action : string;
  g_reason : string
}.

Definition global_recommendations (posture : string) : GlobalRecommendation :=
  if String.eqb posture "MONITOR" then
    mkGlobal "none" "environment stable"
  else if String.eqb posture "ELEVATED" then
    mkGlobal "enhance_logging" "suspicious activity detected"
  else if String.eqb posture "RESTRICT" then
    mkGlobal "rate_limit" "malicious activity from repeated IPs"
  else if String.eqb posture "LOCKDOWN" then
    mkGlobal "close_external_interfaces" "critical chain detected"
  else mkGlobal "none" "unknown posture".

End Recommender.

(* ====================================================================== *)
(** * backend/modules/state.py : the bounded event store *)
(* ====================================================================== *)

Module State.

Definition _MAX_EVENTS : nat := 500.

(** The two module globals. *)
Record Store : Type := mkStore {
  _events : list Event;
  _event_counter : Z
}.

Definition initial : Store := mkStore [] 0.

Definition next_event_id (s : Store) : Z * Store :=
  let c := _event_counter s + 1 in
  (c, mkStore (_events s) c).

(** [now_iso] is [datetime.utcnow().isoformat()] read at the call. *)
Definition _ensure_timestamp (now_iso : string) (e : Event) : Event :=
  if truthy (e_timestamp e) then e else set_timestamp now_iso e.

(** [getattr(event, "id", None) in (None, 0)] *)
Definition lacks_id (e : Event) : bool :=
  match e_id e with
  | None => true
  | Some n => n =? 0
  end.

Definition add_event (now_iso : string) (event : Event) (s : Store)
  : Event * Store :=
  let '(event, s) :=
    if lacks_id event
    then let '(n, s') := next_event_id s in (set_id n event, s')
    else (event, s) in
  let event := _ensure_timestamp now_iso event in
  (event, mkStore (deque_append _MAX_EVENTS (_events s) event)
                  (_event_counter s)).

(** [for e in reversed(_events): if e.id == event_id: return e] *)
Fixpoint first_with_id (event_id : Z) (newest_first : list Event)
  : option Event :=
  match newest_first with
  | [] => None
  | e :: rest =>
      if decide (e_id e = Some event_id) then Some e
      else first_with_id event_id rest
  end.

Definition get_event_by_id (event_id : Z) (s : Store) : option Event :=
  first_with_id event_id (rev (_events s)).

(** The literal dict of [get_dashboard_counts] and [get_deltas]. *)
Definition zero_counts : gmap string nat :=
  <["benign" := 0%nat]> (<["suspicious" := 0%nat]>
    (<["malicious" := 0%nat]> (<["critical" := 0%nat]> ∅))).

(** [if e.severity in counts: counts[e.severity] += 1] *)
Definition count_severity (counts : gmap string nat) (e : Event)
  : gmap string nat :=
  match counts !! e_severity e with
  | Some c => <[e_severity e := S c]> counts
  | None => counts
  end.

Record DashboardCounts : Type := mkCounts {
  total : nat;
  by_severity : gmap string nat
}.

Definition get_dashboard_counts (s : Store) : DashboardCounts :=
  mkCounts (length (_events s))
           (foldl count_severity zero_counts (_events s)).

(** Feeding a sequence of [add_event] calls, each with the clock reading
    of its call; the returned events are collected in call order. *)
Fixpoint add_events (calls : list (string * Event)) (s : Store)
  : list Event * Store :=
  match calls with
  | [] => ([], s)
  | (now_iso, e) :: rest =>
      let '(r, s1) := add_event now_iso e s in
      let '(rs, s2) := add_events rest s1 in
      (r :: rs, s2)
  end.

(** The sort key [(e.timestamp, e.id)]: string order, then integer order.
    Every event that reaches a sort has a string timestamp and, having been
    through [add_event], an integer id; the defaults are never used. *)
Definition key_gt (a b : Event) : bool :=
  match String.compare (default ""%string (e_timestamp a))
                       (default ""%string (e_timestamp b)) with
  | Gt => true
  | Lt => false
  | Eq => default 0 (e_id b) <? default 0 (e_id a)
  end.

(** [sorted(l, key=..., reverse=True)]: descending and stable. *)
Fixpoint insert_desc (x : Event) (sorted : list Event) : list Event :=
  match sorted with
  | [] => [x]
  | y :: rest =>
      if key_gt y x then y :: insert_desc x rest else x :: y :: rest
  end.

Definition sorted_newest_first (l : list Event) : list Event :=
  foldr insert_desc [] l.

(** [chains.setdefault(cid, []).append(ev)] on an insertion-ordered dict. *)
Fixpoint chain_append (cid : string) (ev : EventDict)
    (chains : list (string * list EventDict))
  : list (string * list EventDict) :=
  match chains with
  | [] => [(cid, [ev])]
  | (c, evts) :: rest =>
      if decide (c = cid) then (c, evts ++ [ev]) :: rest
      else (c, evts) :: chain_append cid ev rest
  end.

Definition group_by_chain (recent_dicts : list EventDict)
  : list (string * list EventDict) :=
  foldl (fun chains ev =>
           if truthy (d_chain_id ev)
           then chain_append (default ""%string (d_chain_id ev)) ev chains
           else chains)
        [] recent_dicts.

Section WithParser.
Context `{IsoParser}.

(** The loop body of [get_events_in_window]: does [e] pass the cutoff? *)
Definition in_window (cutoff : Z) (e : Event) : bool :=
  match e_timestamp e with
  | Some ts_str =>
      if truthy (Some ts_str) then
        match fromisoformat ts_str with
        | Some ts => cutoff <=? ts
        | None => false
        end
      else false
  | None => false
  end.

(** [now] is [datetime.utcnow()]; [timedelta(seconds=n)] is [n * 10^6]. *)
Definition get_events_in_window (now : Z) (seconds : Z) (s : Store)
  : list Event :=
  let cutoff := now - seconds * 1000000 in
  sorted_newest_first (List.filter (in_window cutoff) (_events s)).

Definition summarize (chain : string * list EventDict)
  : Classifier.ChainSummary :=
  let summary := Classifier.classify_chain chain.2 in
  Classifier.mkSummary (Classifier.cs_risk summary)
    (Classifier.cs_confidence summary) (Classifier.cs_stages summary)
    (Classifier.cs_ip summary) (Classifier.cs_factors summary)
    (Some chain.1).

Definition get_posture (now : Z) (window_seconds : Z) (s : Store) : string :=
  let recent := get_events_in_window now window_seconds s in
  let recent_dicts := map event_dict recent in
  let chains := group_by_chain recent_dicts in
  let chain_summaries := map summarize chains in
  Posture.determine_posture now recent_dicts chain_summaries.

Definition get_deltas (now : Z) (window_seconds : Z) (s : Store)
  : gmap string nat :=
  foldl count_severity zero_counts (get_events_in_window now window_seconds s).

End WithParser.

(** ** The remaining queries *)

(** [_sorted_events_newest_first] first fills, in place, the timestamp of
    every event of the deque that lacks one, then sorts a copy: it returns
    the sorted list and leaves the deque holding the completed events. *)
Definition _sorted_events_newest_first (now_iso : string) (events : list Event)
  : list Event * list Event :=
  let events := map (_ensure_timestamp now_iso) events in
  (sorted_newest_first events, events).

Definition get_all_events (now_iso : string) (s : Store) : list Event * Store :=
  let '(sorted, events) := _sorted_events_newest_first now_iso (_events s) in
  (sorted, mkStore events (_event_counter s)).


(** The slice [l[:limit]] for an integer [limit]: a negative limit counts
    from the end. *)
Definition slice_to {A : Type} (limit : Z) (l : list A) : list A :=
  if 0 <=? limit then take (Z.to_nat limit) l
  else take (length l - Z.to_nat (- limit)) l.

Definition get_recent_events (now_iso : string) (limit : Z) (s : Store)
  : list Event * Store :=
  let '(sorted, events) := _sorted_events_newest_first now_iso (_events s) in
  (slice_to limit sorted, mkStore events (_event_counter s)).

(** What [serialize_event] returns: the event dict and, under the key
    recommendation, the action string alone. *)
Record Serialized : Type := mkSerialized {
  ser_event : EventDict;
  ser_recommendation : string
}.

(** [now] is the clock [classify_event] reads. *)
Definition serialize_event `{IsoParser} (now : Z) (e : Event) : Serialized :=
  let event_dict := event_dict e in
  let classification := Classifier.classify_event now event_dict in
  let rec := Recommender.recommend_for_event event_dict classification in
  mkSerialized event_dict (Recommender.action rec).

End State.

(* ====================================================================== *)
(** * backend/main.py : the dashboard route *)
(* ====================================================================== *)

Module Dashboard.
Import State.

Record DashboardOutput : Type := mkOutput {
  out_posture : string;
  out_counts : gmap string nat;
  out_total : nat;
  out_delta : gmap string nat
}.

(** [dashboard()] reads the store and the clock and writes nothing; [now]
    is the clock reading of the call and 15 the default window of
    [get_posture] and [get_deltas]. *)
Definition dashboard `{IsoParser} (now : Z) (s : Store) : DashboardOutput :=
  let counts := get_dashboard_counts s in
  let posture := get_posture now 15 s in
  let delta := get_deltas now 15 s in
  mkOutput posture (by_severity counts) (total counts) delta.

(** [GET /api/events]: every buffered event, newest first, serialized. *)
Definition events `{IsoParser} (now : Z) (now_iso : string) (s : Store)
  : list Serialized * Store :=
  let '(all, s) := get_all_events now_iso s in
  (map (serialize_event now) all, s).

(** [GET /api/events/{event_id}]: [None] is the error dict "not found". *)
Definition event_detail `{IsoParser} (now : Z) (event_id : Z) (s : Store)
  : option Serialized :=
  match get_event_by_id event_id s with
  | None => None
  | Some e => Some (serialize_event now e)
  end.

End Dashboard.

(* ====================================================================== *)
(** * backend/modules/event_generator.py and backend/lib/ip_utils.py *)
(* ====================================================================== *)

Module EventGenerator.

Definition _NOISE_TEMPLATES : list (string * string) :=
  [("Healthcheck ping", "healthcheck"); ("Metrics scrape request", "metrics");
   ("Web crawler fetch", "crawler"); ("Idle tick", "idle");
   ("DNS lookup", "dns")]%string.

Definition _COMMON_PORTS : list Z :=
  [443; 443; 443; 80; 80; 8080; 22; 53; 3306].

Definition _EXCLUDED_PREFIXES : list Z :=
  [0; 10; 127; 169; 172; 192; 224; 225; 226; 227; 228; 229; 230; 231;
   232; 233; 234; 235; 236; 237; 238; 239; 255].

(** [random.choice(pool)]: the element at the drawn position; a draw is
    always a valid position of a non-empty pool. *)
Definition choice {A : Type} (pool : list A) (drawn : nat) : option A :=
  pool !! drawn.

(** [random_ip]: [firsts] are the successive draws of the first octet, one
    per turn of the [while True] loop; [b], [c], [d] are drawn once a first
    octet is kept.  [None] when every draw of [firsts] is rejected (the
    loop goes on). *)
Fixpoint random_ip_octets (firsts : list Z) (b c d : Z)
  : option (Z * Z * Z * Z) :=
  match firsts with
  | [] => None
  | a :: rest =>
      if bool_decide (a ∈ _EXCLUDED_PREFIXES) then random_ip_octets rest b c d
      else Some (a, b, c, d)
  end.

(** The drawn values and clock reading of one [generate_noise_event]. *)
Record NoiseDraws : Type := mkNoiseDraws {
  nd_template : nat;
  nd_source_ip : string;
  nd_port : nat;
  nd_created_iso : string
}.

(** The [try] block; the [except] branch answers when a draw fails. *)
Definition generate_noise_event (d : NoiseDraws) : Event :=
  match choice _NOISE_TEMPLATES (nd_template d),
        choice _COMMON_PORTS (nd_port d) with
  | Some (raw, ty), Some port =>
      mkEvent (Some 0) (Some (nd_created_iso d)) (nd_source_ip d) port
              "noise" "noise" "benign" None (Some "noise") raw
              [("surface", "noise"); ("action", ty)]%string []
  | _, _ =>
      mkEvent (Some 0) (Some (nd_created_iso d)) "1.1.1.1" 80
              "noise" "noise" "benign" None (Some "noise") "Fallback noise"
              [("surface", "noise"); ("action", "fallback")]%string []
  end.

End EventGenerator.

(* ====================================================================== *)
(** * backend/modules/attack_engine.py : the scenario generator *)
(* ====================================================================== *)

(** Decimal rounding of a float, to the nearest multiple of [1/scale], ties
    to the even multiple: [float(f"{x:.3f}")] for scale 1000, [round(x, 1)]
    for scale 10. *)
Definition nearest_even (y : Q) : Z :=
  let n := Qfloor y in
  match (y - inject_Z n ?= 1 # 2)%Q with
  | Lt => n
  | Gt => n + 1
  | Eq => if Z.even n then n else n + 1
  end.

Definition round_half_even (scale : positive) (x : Q) : Q :=
  nearest_even (x * inject_Z (Z.pos scale)) # scale.

Module AttackEngine.

(** What [_pick_template] returns.  The pools are static tables of such
    records; a draw from a pool is represented by the record drawn. *)
Record Template : Type := mkTemplate {
  t_category : string;
  t_raw : string;
  t_parsed : list (string * string)
}.

(** [created_iso] is the default timestamp of the dataclass, read when the
    event is constructed. *)
Definition _build_event_from_template (created_iso : string)
    (severity stage chain_id raw : string) (parsed : list (string * string))
    (source_ip : string) (dest_port : Z) : Event :=
  mkEvent (Some 0) (Some created_iso) source_ip dest_port "attack" stage
          severity (Some chain_id) (Some stage) raw parsed [].

(** [length] is [random.randint(3, 5)]; [extra_recon] is the outcome of the
    [random.choice] between the two four-stage sequences. *)
Definition _build_stage_sequence (length : Z) (extra_recon : bool)
  : list string :=
  let base := ["recon"; "intrusion"; "exploit"]%string in
  if length =? 3 then base
  else if length =? 4 then
    if extra_recon then ["recon"; "recon"; "intrusion"; "exploit"]%string
    else ["recon"; "intrusion"; "exploit"; "exploit"]%string
  else ["recon"; "recon"; "intrusion"; "exploit"; "exploit"]%string.

Definition _severity_for_stage (stage : string) : string :=
  if String.eqb stage "recon" then "suspicious"
  else if String.eqb stage "intrusion" then "malicious"
  else if String.eqb stage "exploit" then "critical"
  else "benign".

Record AttackPlan : Type := mkAttackPlan {
  ap_chain_id : string;
  ap_source_ip : string;
  ap_dest_port : Z;
  ap_surface : string;
  ap_duration : Q;
  ap_plan : list (Q * Event)
}.

(** [duration] is [random.uniform(20.0, 40.0)]. *)
Definition _build_attack_plan (duration : Q) (chain_id source_ip : string)
    (dest_port : Z) (surface : string) (events : list Event) : AttackPlan :=
  match events with
  | [] => mkAttackPlan chain_id source_ip dest_port surface 0 []
  | _ =>
      let count := length events in
      let delays :=
        if (count =? 1)%nat then [0%Q]
        else
          let step := (duration / inject_Z (Z.of_nat count - 1))%Q in
          map (fun i => (inject_Z (Z.of_nat i) * step)%Q) (seq 0 count) in
      let plan :=
        map (fun '(delay, event) => (round_half_even 1000 delay, event))
            (zip delays events) in
      mkAttackPlan chain_id source_ip dest_port surface duration plan
  end.

(** Everything [generate_attack_scenario] draws at random or reads from the
    clock, in one record; [dr_templates] holds the template drawn for each
    stage, in stage order. *)
Record Draws : Type := mkDraws {
  dr_source_ip : string;
  dr_dest_port : Z;
  dr_surface : string;
  dr_chain_id : string;
  dr_length : Z;
  dr_extra_recon : bool;
  dr_templates : list Template;
  dr_created_iso : string;
  dr_duration : Q
}.

Definition generate_attack_scenario (d : Draws) : AttackPlan :=
  let stages := _build_stage_sequence (dr_length d) (dr_extra_recon d) in
  let events :=
    map (fun '(stage, tpl) =>
           _build_event_from_template (dr_created_iso d)
             (_severity_for_stage stage) stage (dr_chain_id d) (t_raw tpl)
             (t_parsed tpl) (dr_source_ip d) (dr_dest_port d))
        (zip stages (dr_templates d)) in
  _build_attack_plan (dr_duration d) (dr_chain_id d) (dr_source_ip d)
    (dr_dest_port d) (dr_surface d) events.

End AttackEngine.

(* ====================================================================== *)
(** * backend/modules/attack_engine.py : the template tables *)
(* ====================================================================== *)

Module AttackTemplates.

(** The values found in the [parsed] dicts of the tables: strings,
    integers, lists of strings and lists of integers. *)
Inductive PyVal : Type :=
| VStr (s : string)
| VInt (n : Z)
| VStrs (l : list string)
| VInts (l : list Z).

Record PoolTemplate : Type := mkPool {
  pt_category : string;
  pt_raw : string;
  pt_parsed : list (string * PyVal)
}.

(** [d[key]] / [d.get(key)] on a dict literal. *)
Fixpoint dict_get {V : Type} (key : string) (d : list (string * V))
  : option V :=
  match d with
  | [] => None
  | (k, v) :: rest => if String.eqb k key then Some v else dict_get key rest
  end.

Definition _SURFACES : list string := ["ssh"; "http"]%string.

Definition _RECON_TEMPLATES : list (string * list PoolTemplate) :=
  [("ssh",
    [mkPool "recon" "SSH banner grab from unknown host"
       [("stage", VStr "recon"); ("vector", VStr "ssh");
        ("method", VStr "banner_grab")];
     mkPool "recon" "SSH version probe against exposed service"
       [("stage", VStr "recon"); ("vector", VStr "ssh");
        ("method", VStr "version_probe")]]);
   ("http",
    [mkPool "recon" "HTTP directory probe detected"
       [("stage", VStr "recon"); ("vector", VStr "http");
        ("paths", VStrs ["/admin"; "/login"; "/.git/"])];
     mkPool "recon" "HTTP endpoint scan from remote host"
       [("stage", VStr "recon"); ("vector", VStr "http");
        ("paths", VStrs ["/"; "/status"; "/metrics"])]])]%string.

Definition _INTRUSION_TEMPLATES : list (string * list PoolTemplate) :=
  [("ssh",
    [mkPool "intrusion" "SSH brute force — repeated failed password logins"
       [("stage", VStr "intrusion"); ("vector", VStr "ssh");
        ("attempts", VInt 24); ("auth_type", VStr "password")];
     mkPool "intrusion" "SSH brute force — rapid key-exchange failures"
       [("stage", VStr "intrusion"); ("vector", VStr "ssh");
        ("attempts", VInt 18); ("auth_type", VStr "publickey")]]);
   ("http",
    [mkPool "intrusion" "Repeated login failures on web auth endpoint"
       [("stage", VStr "intrusion"); ("vector", VStr "http");
        ("endpoint", VStr "/login"); ("attempts", VInt 15)];
     mkPool "intrusion" "Elevated error rate on web auth endpoint"
       [("stage", VStr "intrusion"); ("vector", VStr "http");
        ("endpoint", VStr "/login"); ("status_codes", VInts [401; 403])]])]%string.

Definition _EXPLOIT_TEMPLATES : list (string * list PoolTemplate) :=
  [("ssh",
    [mkPool "exploit" "SSH privilege escalation attempt detected"
       [("stage", VStr "exploit"); ("vector", VStr "ssh");
        ("indicator", VStr "suspicious sudo failure pattern")];
     mkPool "exploit" "SSH command execution pattern blocked"
       [("stage", VStr "exploit"); ("vector", VStr "ssh");
        ("indicator", VStr "abnormal shell command sequence")]]);
   ("http",
    [mkPool "exploit" "Exploit payload upload attempt detected"
       [("stage", VStr "exploit"); ("vector", VStr "http");
        ("indicator", VStr "suspicious binary upload")];
     mkPool "exploit" "Remote command injection attempt blocked"
       [("stage", VStr "exploit"); ("vector", VStr "http");
        ("indicator", VStr "command injection pattern")]])]%string.

(** [drawn] is the position [random.choice(pool)] picks.  [None] stands
    for the [KeyError] of a failed table lookup. *)
Definition _pick_template (stage surface : string) (drawn : nat)
  : option PoolTemplate :=
  let surface :=
    if bool_decide (surface ∈ _SURFACES) then surface else "http"%string in
  let pool :=
    if String.eqb stage "recon" then dict_get surface _RECON_TEMPLATES
    else if String.eqb stage "intrusion"
    then dict_get surface _INTRUSION_TEMPLATES
    else if String.eqb stage "exploit"
    then dict_get surface _EXPLOIT_TEMPLATES
    else dict_get surface _RECON_TEMPLATES in
  match pool with
  | Some pool => pool !! drawn
  | None => None
  end.

End AttackTemplates.

(* ====================================================================== *)
(** * backend/main.py : plan normalizer and scheduler *)
(* ====================================================================== *)

Module Main.
Import State.

Definition MAX_ACTIVE_PLANS : nat := 15.
Definition _TRIGGER_COOLDOWN : Q := 1.5.
Definition _MAX_TRIGGERS_PER_MIN : nat := 30.

(** The shapes [_normalize_attack_plan] tells apart: a dict with a "plan"
    key, a list, anything else (a dict without that key included).  In the
    dict an absent key is [None], and a missing or empty plan is [[]]; a
    plan entry is either a dict with an "event" key (whose value may be
    [None]) or anything else, taken to be the event itself. *)
Inductive RawEntry : Type :=
| RawPair (delay : option Q) (event : option Event)
| RawBare (event : Event).

Inductive Raw : Type :=
| RawDict (chain_id : option string) (duration : option Q)
          (plan : list RawEntry)
| RawList (events : list Event)
| RawOther.

(** The generator's dict, as the normalizer reads it (it ignores the keys
    source_ip, dest_port and surface). *)
Definition raw_of_plan (p : AttackEngine.AttackPlan) : Raw :=
  RawDict (Some (AttackEngine.ap_chain_id p))
          (Some (AttackEngine.ap_duration p))
          (map (fun '(delay, event) => RawPair (Some delay) (Some event))
               (AttackEngine.ap_plan p)).

Record Entry : Type := mkEntry {
  delay : Q;
  event : option Event
}.

Record NormalizedPlan : Type := mkNormalized {
  np_chain_id : option string;
  np_duration : Q;
  np_plan : list Entry
}.

Definition invalid_plan : NormalizedPlan :=
  mkNormalized (Some "invalid"%string) 0 [].

(** [sampled] is the value [random.uniform(20.0, 40.0)] returns when the
    list branch draws it. *)
Definition _normalize_attack_plan (sampled : Q) (raw : Raw) : NormalizedPlan :=
  match raw with
  | RawDict chain_id duration plan_entries =>
      let chain_id := Some (default "unknown"%string chain_id) in
      let duration := default 0%Q duration in
      let normalized_entries :=
        imap (fun idx entry =>
                match entry with
                | RawPair delay ev => mkEntry (default 0%Q delay) ev
                | RawBare ev => mkEntry (inject_Z (Z.of_nat idx)) (Some ev)
                end)
             plan_entries in
      mkNormalized chain_id duration normalized_entries
  | RawList events =>
      match events with
      | [] => invalid_plan
      | first :: _ =>
          let duration := sampled in
          let per_event :=
            (duration / inject_Z (Z.of_nat (Nat.max (length events) 1)))%Q in
          let chain_id := e_chain_id first in
          let plan_entries :=
            imap (fun idx ev =>
                    mkEntry (inject_Z (Z.of_nat idx) * per_event)%Q (Some ev))
                 events in
          mkNormalized chain_id duration plan_entries
      end
  | RawOther => invalid_plan
  end.

Record RuntimePlan : Type := mkRuntime {
  chain_id : option string;
  duration : Q;
  plan : list Entry;
  start_time : Q;
  index : nat
}.

(** [now] is [time.time()]; [raw] is what [generate_attack_scenario()]
    returned. *)
Definition _create_runtime_plan (now : Q) (sampled : Q) (raw : Raw)
  : option RuntimePlan :=
  let normalized := _normalize_attack_plan sampled raw in
  match np_plan normalized with
  | [] => None
  | _ => Some (mkRuntime (np_chain_id normalized) (np_duration normalized)
                         (np_plan normalized) now 0)
  end.

(** ** The request route *)

(** The three module globals of the scheduler and its rate limiter. *)
Record Server : Type := mkServer {
  _attack_plans : list RuntimePlan;
  _LAST_TRIGGER : gmap string Q;
  _TRIGGER_HISTORY : gmap string (list Q)
}.

Definition server_initial : Server := mkServer [] ∅ ∅.

Inductive Response : Type :=
| Throttled_cooldown (retry_after : Q)
| Throttled_rate_limit (limit : nat)
| Busy (active limit : nat)
| Skipped
| Scheduled (chain : option string) (approx_duration_sec : Q)
            (active limit : nat).

Definition status (r : Response) : string :=
  match r with
  | Throttled_cooldown _ | Throttled_rate_limit _ => "throttled"
  | Busy _ _ => "busy"
  | Skipped => "skipped"
  | Scheduled _ _ _ _ => "scheduled"
  end.

(** The part of [trigger_attack] after the two per-client throttles: the
    ceiling check, plan creation and registration. *)
Definition request (now : Q) (sampled : Q) (raw : Raw) (st : Server)
  : Response * Server :=
  if (MAX_ACTIVE_PLANS <=? length (_attack_plans st))%nat then
    (Busy (length (_attack_plans st)) MAX_ACTIVE_PLANS, st)
  else
    match _create_runtime_plan now sampled raw with
    | None => (Skipped, st)
    | Some plan =>
        let plans := _attack_plans st ++ [plan] in
        (Scheduled (chain_id plan) (round_half_even 10 (duration plan))
                   (length plans) MAX_ACTIVE_PLANS,
         mkServer plans (_LAST_TRIGGER st) (_TRIGGER_HISTORY st))
    end.

(** [now] is [time.time()], [raw] and [sampled] what the generator and the
    normalizer would draw if they are reached. *)
Definition trigger_attack (client_ip : string) (now : Q) (sampled : Q)
    (raw : Raw) (st : Server) : Response * Server :=
  let last := default 0%Q (_LAST_TRIGGER st !! client_ip) in
  if Qlt_le_dec (now - last) _TRIGGER_COOLDOWN then
    (Throttled_cooldown
       (round_half_even 100 (_TRIGGER_COOLDOWN - (now - last))), st)
  else
    let st := mkServer (_attack_plans st) (<[client_ip := now]> (_LAST_TRIGGER st))
                       (_TRIGGER_HISTORY st) in
    let history := default [] (_TRIGGER_HISTORY st !! client_ip) in
    let one_minute_ago := (now - 60)%Q in
    let history := List.filter (fun t => Qle_bool one_minute_ago t) history in
    if (_MAX_TRIGGERS_PER_MIN <=? length history)%nat then
      (Throttled_rate_limit _MAX_TRIGGERS_PER_MIN,
       mkServer (_attack_plans st) (_LAST_TRIGGER st)
                (<[client_ip := history]> (_TRIGGER_HISTORY st)))
    else
      let st := mkServer (_attack_plans st) (_LAST_TRIGGER st)
                  (<[client_ip := history ++ [now]]> (_TRIGGER_HISTORY st)) in
      request now sampled raw st.

(** ** The scheduler tick *)

(** What a call of the store's [add_event] can do to the store: return,
    or raise an exception, in both cases leaving some store behind. *)
Inductive Outcome (St : Type) : Type :=
| Returned (s : St)
| Raised (s : St).
Arguments Returned {St} s.
Arguments Raised {St} s.

(** [try: add_event(ev)  except Exception: pass] *)
Definition swallow {St : Type} (o : Outcome St) : St :=
  match o with
  | Returned s => s
  | Raised s => s
  end.

Definition set_index (idx : nat) (p : RuntimePlan) : RuntimePlan :=
  mkRuntime (chain_id p) (duration p) (plan p) (start_time p) idx.

(** Python's [==] on entries and plans: floats by value, events field by
    field. *)
Definition entry_eqb (a b : Entry) : bool :=
  Qeq_bool (delay a) (delay b) && bool_decide (event a = event b).

Fixpoint entries_eqb (l1 l2 : list Entry) : bool :=
  match l1, l2 with
  | [], [] => true
  | a :: l1, b :: l2 => entry_eqb a b && entries_eqb l1 l2
  | _, _ => false
  end.

Definition plan_eqb (p q : RuntimePlan) : bool :=
  bool_decide (chain_id p = chain_id q)
  && Qeq_bool (duration p) (duration q)
  && entries_eqb (plan p) (plan q)
  && Qeq_bool (start_time p) (start_time q)
  && (index p =? index q)%nat.

(** [list.remove(p)]: drops the first element equal to [p]. *)
Fixpoint list_remove_first (p : RuntimePlan) (l : list RuntimePlan)
  : list RuntimePlan :=
  match l with
  | [] => []
  | q :: rest => if plan_eqb q p then rest else q :: list_remove_first p rest
  end.

(** [if idx >= len(entries): done.append(plan)] *)
Definition is_done (p : RuntimePlan) : bool :=
  (length (plan p) <=? index p)%nat.

(** [if p in _attack_plans: _attack_plans.remove(p)] *)
Definition remove_step (plans : list RuntimePlan) (p : RuntimePlan)
  : list RuntimePlan :=
  if existsb (fun q => plan_eqb q p) plans
  then list_remove_first p plans else plans.

(** [for p in done: ...] *)
Definition remove_done (done plans : list RuntimePlan) : list RuntimePlan :=
  foldl remove_step plans done.

Section Tick.
Context {St : Type}.
(** The store operation the tick calls; it may raise. *)
Variable store_add : Event -> St -> Outcome St.

(** The inner [while idx < len(entries)] loop, on the entries from the
    cursor on.  [now] is [time.time()] read at the top of the tick, [stamp]
    is [datetime.utcnow().isoformat()]. *)
Fixpoint emit_due (now start : Q) (stamp : string) (pending : list Entry)
    (idx : nat) (s : St) : nat * St :=
  match pending with
  | [] => (idx, s)
  | entry :: rest =>
      let target_time := (start + delay entry)%Q in
      if Qle_bool target_time now then
        let s :=
          match event entry with
          | Some ev => swallow (store_add (set_timestamp stamp ev) s)
          | None => s
          end in
        emit_due now start stamp rest (S idx) s
      else (idx, s)
  end.

Definition scan_plan (now : Q) (stamp : string) (p : RuntimePlan) (s : St)
  : RuntimePlan * St :=
  let '(idx, s) :=
    emit_due now (start_time p) stamp (drop (index p) (plan p)) (index p) s in
  (set_index idx p, s).

(** The [for plan in _attack_plans] loop. *)
Fixpoint scan_plans (now : Q) (stamp : string) (plans : list RuntimePlan)
    (s : St) : list RuntimePlan * St :=
  match plans with
  | [] => ([], s)
  | p :: rest =>
      let '(p', s) := scan_plan now stamp p s in
      let '(rest', s) := scan_plans now stamp rest s in
      (p' :: rest', s)
  end.

(** One iteration of [attack_scheduler_loop]. *)
Definition tick (now : Q) (stamp : string) (plans : list RuntimePlan) (s : St)
  : list RuntimePlan * St :=
  let '(scanned, s) := scan_plans now stamp plans s in
  let done := List.filter is_done scanned in
  (remove_done done scanned, s).

End Tick.

(** The store the server runs with: [state.add_event], which does not
    raise.  [now_iso] is the clock it reads for a missing timestamp. *)
Definition real_add (now_iso : string) (ev : Event) (s : Store)
  : Outcome Store :=
  Returned (add_event now_iso ev s).2.

(** ** The event loop

    The asyncio loop interleaves, one at a time and never preempted, the
    request handler, the scheduler tick and the noise task. *)
Inductive Step : Type :=
| Request (client_ip : string) (now sampled : Q) (raw : Raw)
| Tick (now : Q) (stamp : string)
| Noise (now_iso : string) (ev : Event).

Definition step (x : Step) (w : Server * Store) : Server * Store :=
  match x with
  | Request client_ip now sampled raw =>
      ((trigger_attack client_ip now sampled raw w.1).2, w.2)
  | Tick now stamp =>
      let '(plans, s) :=
        tick (real_add stamp) now stamp (_attack_plans w.1) w.2 in
      (mkServer plans (_LAST_TRIGGER w.1) (_TRIGGER_HISTORY w.1), s)
  | Noise now_iso ev => (w.1, (add_event now_iso ev w.2).2)
  end.

Definition run (steps : list Step) (w : Server * Store) : Server * Store :=
  foldl (fun w x => step x w) w steps.

End Main.

(* ====================================================================== *)
(** * Vocabulary used to state the properties *)
(* ====================================================================== *)

Module Vocabulary.
Import State.
Local Open Scope bool_scope.

(** Number of calls, among [calls], whose event arrives without an id. *)
Fixpoint count_lacking (calls : list (string * Event)) : Z :=
  match calls with
  | [] => 0
  | (_, e) :: rest => (if lacks_id e then 1 else 0) + count_lacking rest
  end.

(** Number of events of [l] whose severity is [k]. *)
Fixpoint count_sev (k : string) (l : list Event) : nat :=
  match l with
  | [] => 0%nat
  | e :: rest =>
      ((if decide (e_severity e = k) then 1 else 0) + count_sev k rest)%nat
  end.

(** The fallback event of [generate_noise_event], stamped at creation. *)
Definition fallback_noise : Event :=
  mkEvent (Some 0) (Some "2024-05-01T12:00:00") "1.1.1.1" 80
          "noise" "noise" "benign" None (Some "noise") "Fallback noise"
          [("surface", "noise"); ("action", "fallback")] [].

(** An intrusion step as the attack engine builds it (ssh surface). *)
Definition sample_intrusion : Event :=
  mkEvent (Some 0) (Some "2024-05-01T12:00:00") "203.0.113.9" 22
          "attack" "intrusion" "malicious" (Some "ab12cd34")
          (Some "intrusion") "SSH brute force: repeated failed password logins"
          [("stage", "intrusion"); ("vector", "ssh"); ("attempts", "24");
           ("auth_type", "password")] [].

(** The store after that single event has been added at 12:00:00. *)
Definition store_with_intrusion : Store :=
  (add_event "2024-05-01T12:00:00" sample_intrusion initial).2.

Definition known_severities : list string :=
  ["benign"; "suspicious"; "malicious"; "critical"].

(** Number of events of [l] whose severity is none of the four. *)
Fixpoint count_unknown (l : list Event) : nat :=
  match l with
  | [] => 0%nat
  | e :: rest =>
      ((if decide (e_severity e ∈ known_severities) then 0 else 1)
       + count_unknown rest)%nat
  end.

(** Sum of the four per-severity entries of a counts dict. *)
Definition sum_known (m : gmap string nat) : nat :=
  foldr (fun k acc => (default 0%nat (m !! k) + acc)%nat) 0%nat known_severities.

(** A parser for the timestamps of the examples: it reads the strings
    2024-05-01THH:MM:SS, as [datetime.fromisoformat] does, counting the
    microseconds from midnight of that day (only differences of instants
    are ever used), and rejects every other string. *)
Definition digit_of (a : ascii) : option Z :=
  let n := Z.of_nat (nat_of_ascii a) - 48 in
  if (0 <=? n) && (n <=? 9) then Some n else None.

Definition two_digits (s : string) : option Z :=
  match s with
  | String a (String b EmptyString) =>
      match digit_of a, digit_of b with
      | Some x, Some y => Some (10 * x + y)
      | _, _ => None
      end
  | _ => None
  end.

Definition sample_fromisoformat : IsoParser := fun s =>
  if String.prefix "2024-05-01T" s && (String.length s =? 19)%nat
     && String.eqb (substring 13 1 s) ":" && String.eqb (substring 16 1 s) ":"
  then
    match two_digits (substring 11 2 s), two_digits (substring 14 2 s),
          two_digits (substring 17 2 s) with
    | Some h, Some m, Some sec =>
        if (h <? 24) && (m <? 60) && (sec <? 60)
        then Some (((h * 60 + m) * 60 + sec) * 1000000)
        else None
    | _, _, _ => None
    end
  else None.

(** An event dict holding only the four keys the pure modules read. *)
Definition dict_of (stage severity source_ip timestamp : option string)
  : EventDict :=
  mkDict None timestamp None stage source_ip None None None severity None None.

(** Number of occurrences of [k] in [l]. *)
Fixpoint occurrences {K : Type} `{EqDecision K} (k : K) (l : list K) : nat :=
  match l with
  | [] => 0%nat
  | x :: rest => ((if decide (x = k) then 1 else 0) + occurrences k rest)%nat
  end.

(** The count stored for [k] in a counter (0 when [k] is not a key). *)
Fixpoint counter_get {K : Type} `{EqDecision K} (k : K) (c : list (K * nat))
  : nat :=
  match c with
  | [] => 0%nat
  | (k', n) :: rest => if decide (k' = k) then n else counter_get k rest
  end.

(** The second posture rule, in the words of the specification: [evt] is
    a malicious event from address [ip] within the last 30 time units. *)
Definition recent_malicious_from `{IsoParser} (now : Z) (ip : option string)
    (evt : EventDict) : bool :=
  bool_decide (d_severity evt = Some "malicious")
  && Qle_bool (Posture._seconds_ago now (d_timestamp evt)) 30%Q
  && bool_decide (d_source_ip evt = ip).

Definition count_recent_malicious `{IsoParser} (now : Z) (ip : option string)
    (recent : list EventDict) : nat :=
  length (List.filter (recent_malicious_from now ip) recent).

(** The age of an event at [now], in microseconds, read off its timestamp
    directly: the time elapsed since the instant the timestamp denotes,
    and 0 for an event whose timestamp is missing or does not parse (such
    an event is taken to have happened now). *)
Definition age_us `{IsoParser} (now : Z) (evt : EventDict) : Z :=
  match d_timestamp evt with
  | Some ts =>
      match fromisoformat ts with
      | Some t => now - t
      | None => 0
      end
  | None => 0
  end.

(** [evt] is a malicious event from address [ip] that is at most
    [limit_us] microseconds old at [now]. *)
Definition malicious_within `{IsoParser} (limit_us now : Z)
    (ip : option string) (evt : EventDict) : bool :=
  bool_decide (d_severity evt = Some "malicious")
  && (age_us now evt <=? limit_us)
  && bool_decide (d_source_ip evt = ip).

Definition count_malicious_within `{IsoParser} (limit_us now : Z)
    (ip : option string) (recent : list EventDict) : nat :=
  length (List.filter (malicious_within limit_us now ip) recent).

(** *** Sample scenarios *)

(** A three-stage ssh chain as the generator draws it; [duration] is the
    sampled duration. *)
Definition sample_draws (duration : Q) : AttackEngine.Draws :=
  AttackEngine.mkDraws "203.0.113.9" 22 "ssh" "ab12cd34" 3 false
    [AttackEngine.mkTemplate "recon" "SSH banner grab from unknown host"
       [("stage", "recon"); ("vector", "ssh"); ("method", "banner_grab")];
     AttackEngine.mkTemplate "intrusion"
       "SSH brute force: repeated failed password logins"
       [("stage", "intrusion"); ("vector", "ssh"); ("attempts", "24");
        ("auth_type", "password")];
     AttackEngine.mkTemplate "exploit"
       "SSH privilege escalation attempt detected"
       [("stage", "exploit"); ("vector", "ssh");
        ("indicator", "suspicious sudo failure pattern")]]
    "2024-05-01T12:00:00" duration.

(** What the request route receives from the generator for these draws. *)
Definition sample_raw (duration : Q) : Main.Raw :=
  Main.raw_of_plan (AttackEngine.generate_attack_scenario (sample_draws duration)).

(** Fifteen requests from one client, two time units apart. *)
Definition fifteen_requests : list Main.Step :=
  map (fun i => Main.Request "198.51.100.7"
                  (1000 + 2 * inject_Z (Z.of_nat i))%Q 30 (sample_raw 30))
      (seq 0 15).

(** The runtime plan accepted at time 1000 for a chain of sampled duration
    20.0006: its delays are 0, 10 and 20.001 (rounded to 3 decimals). *)
Definition sample_runtime_plan : option Main.RuntimePlan :=
  Main._create_runtime_plan 1000 0 (sample_raw 20.0006).

(** The same chain requested at 1000, then ticks at 1000, 1010.5 and
    1020.0006 = start_time + duration. *)
Definition ticks_covering_the_duration : list Main.Step :=
  [Main.Request "198.51.100.7" 1000 0 (sample_raw 20.0006);
   Main.Tick 1000 "2024-05-01T12:00:00";
   Main.Tick 1010.5 "2024-05-01T12:00:10";
   Main.Tick 1020.0006 "2024-05-01T12:00:20"].

(** The delay of the [i]-th of [count] stage events before rounding:
    [0.0] for a single event, [i * (duration / (count - 1))] otherwise. *)
Definition ideal_delay (duration : Q) (count i : nat) : Q :=
  if (count =? 1)%nat then 0
  else (inject_Z (Z.of_nat i) * (duration / inject_Z (Z.of_nat count - 1)))%Q.

(** *** Scheduler vocabulary *)

(** An entry is due at [now] when its absolute due time has been reached. *)
Definition due (now start : Q) (en : Main.Entry) : bool :=
  Qle_bool (start + Main.delay en) now.

Fixpoint take_while {A : Type} (f : A -> bool) (l : list A) : list A :=
  match l with
  | [] => []
  | x :: rest => if f x then x :: take_while f rest else []
  end.

(** The entries of [p] a tick at [now] walks over: from the cursor up to,
    and excluding, the first entry that is not yet due. *)
Definition due_prefix (now : Q) (p : Main.RuntimePlan) : list Main.Entry :=
  take_while (due now (Main.start_time p))
             (drop (Main.index p) (Main.plan p)).

(** The events of these entries, stamped at emission. *)
Definition stamped (stamp : string) (entries : list Main.Entry) : list Event :=
  omap (fun en => set_timestamp stamp <$> Main.event en) entries.

Definition emitted (now : Q) (stamp : string) (p : Main.RuntimePlan)
  : list Event :=
  stamped stamp (due_prefix now p).

(** The plan with its cursor moved past the due prefix. *)
Definition advance (now : Q) (p : Main.RuntimePlan) : Main.RuntimePlan :=
  Main.set_index (Main.index p + length (due_prefix now p))%nat p.

(** Handing a sequence of events to a store whose failures are swallowed. *)
Definition store_all {St : Type} (store_add : Event -> St -> Main.Outcome St)
    (evs : list Event) (s : St) : St :=
  foldl (fun s ev => Main.swallow (store_add ev s)) s evs.

(** Delays in non-decreasing order. *)
Definition delays_sorted (entries : list Main.Entry) : Prop :=
  forall i j ei ej, (i <= j)%nat ->
    entries !! i = Some ei -> entries !! j = Some ej ->
    (Main.delay ei <= Main.delay ej)%Q.

(** A store that raises, before storing anything, on the events selected
    by [bad], and behaves as [state.add_event] on the others. *)
Definition failing_add (bad : Event -> bool) (now_iso : string) (ev : Event)
    (s : Store) : Main.Outcome Store :=
  if bad ev then Main.Raised s else Main.real_add now_iso ev s.

(** A store that only keeps the log of the events it is handed, in the
    order of the calls; it raises, after logging, on the events selected
    by [bad]. *)
Definition logging_add (bad : Event -> bool) (ev : Event) (log : list Event)
  : Main.Outcome (list Event) :=
  if bad ev then Main.Raised (log ++ [ev]) else Main.Returned (log ++ [ev]).

(** The fields of a runtime plan, cursor last. *)
Definition plan_fields (p : Main.RuntimePlan)
  : option string * Q * list Main.Entry * Q * nat :=
  (Main.chain_id p, Main.duration p, Main.plan p, Main.start_time p,
   Main.index p).

End Vocabulary.

(* ====================================================================== *)
(** * Further vocabulary *)
(* ====================================================================== *)

Module Tables.

(** The action the event-level recommender pairs with each stage. *)
Definition action_of_stage (stage : option string) : string :=
  if decide (stage = Some "recon") then "investigate"
  else if decide (stage = Some "intrusion") then "block"
  else if decide (stage = Some "exploit") then "isolate"
  else "watch".

(** The risk tier the event classifier pairs with each stage. *)
Definition risk_of_stage (stage : option string) : string :=
  if decide (stage = Some "noise") then "low"
  else if decide (stage = Some "recon") then "medium"
  else if decide (stage = Some "intrusion") then "high"
  else if decide (stage = Some "exploit") then "critical"
  else "medium".

(** The risk tier of a chain, read off the stages it contains. *)
Definition risk_of_stages (stages : list (option string)) : string :=
  if decide (Some "exploit" ∈ stages) then "critical"
  else if decide (Some "intrusion" ∈ stages) then "high"
  else if decide (Some "recon" ∈ stages) then "medium"
  else "low".

Definition risk_tiers : list string := ["low"; "medium"; "high"; "critical"].

Definition postures : list string :=
  ["MONITOR"; "ELEVATED"; "RESTRICT"; "LOCKDOWN"].

(** An event as the store keeps it: an integer id other than 0 and a
    non-empty timestamp. *)
Definition well_stored (e : Event) : Prop :=
  (exists n, e_id e = Some n /\ n <> 0) /\ truthy (e_timestamp e) = true.

(** The shape every reachable store has. *)
Definition store_ok (s : State.Store) : Prop :=
  (length (State._events s) <= State._MAX_EVENTS)%nat
  /\ 0 <= State._event_counter s
  /\ Forall well_stored (State._events s).

(** [a] sorts before [b] in a newest-first listing: the key
    [(timestamp, id)] of [b] is not greater than that of [a]. *)
Definition not_older (a b : Event) : Prop := State.key_gt b a = false.

(** The order of a listing by [(timestamp, id)] from the greatest down,
    written out on the fields: [a] may come before [b] when the timestamp
    of [a] is the greater string (strings compare character by
    character, a proper prefix being the smaller), or when the two
    timestamps are the same string and the id of [a] is at least that of
    [b]. *)
Definition key_ge (a b : Event) : Prop :=
  exists ta tb ia ib,
    e_timestamp a = Some ta /\ e_timestamp b = Some tb
    /\ e_id a = Some ia /\ e_id b = Some ib
    /\ (OrderedTypeEx.String_as_OT.lt tb ta \/ (ta = tb /\ ib <= ia)).

(** [x] has the same sort key as [e]. *)
Definition same_key (e x : Event) : bool :=
  bool_decide (e_timestamp x = e_timestamp e /\ e_id x = e_id e).

(** An event of the examples, told apart by its port. *)
Definition sample_event (ts : string) (id port : Z) : Event :=
  mkEvent (Some id) (Some ts) "203.0.113.9" port "noise" "noise" "benign"
          None (Some "noise") "Healthcheck ping"
          [("surface", "noise"); ("action", "healthcheck")]%string [].

(** Four events stored out of order; the last two share timestamp and
    id. *)
Definition unordered_calls : list (string * Event) :=
  [("2024-05-01T12:00:06", sample_event "2024-05-01T12:00:05" 0 1001);
   ("2024-05-01T12:00:06", sample_event "2024-05-01T12:00:01" 0 1002);
   ("2024-05-01T12:00:06", sample_event "2024-05-01T12:00:05" 7 1003);
   ("2024-05-01T12:00:06", sample_event "2024-05-01T12:00:05" 7 1004)]%string.

(** Some event of [recent] belongs to a chain and is at the exploit
    stage. *)
Definition chained_exploit (recent : list Event) : Prop :=
  exists e, e ∈ recent /\ truthy (e_chain_id e) = true
            /\ e_stage e = Some "exploit"%string.

Definition malicious_from (ip : string) (e : Event) : bool :=
  bool_decide (e_severity e = "malicious"%string)
  && bool_decide (e_source_ip e = ip).

(** Some address is the source of two or more malicious events of
    [recent]. *)
Definition repeated_malicious (recent : list Event) : Prop :=
  exists ip, (2 <= length (List.filter (malicious_from ip) recent))%nat.

Definition all_benign (recent : list Event) : Prop :=
  forall e, e ∈ recent -> e_severity e = "benign"%string.

(** [x] is a member of one of the groups of [chains]. *)
Definition in_chains (x : EventDict) (chains : list (string * list EventDict))
  : Prop :=
  exists c, c ∈ chains /\ x ∈ c.2.

(** *** Generated scenarios *)

(** The events and the delays of a generated plan, in plan order. *)
Definition scenario_events (ap : AttackEngine.AttackPlan) : list Event :=
  map snd (AttackEngine.ap_plan ap).

Definition scenario_delays (ap : AttackEngine.AttackPlan) : list Q :=
  map fst (AttackEngine.ap_plan ap).

(** What [generate_attack_scenario] makes of its draws: a chain of three
    to five stages with one template drawn for each. *)
Definition draws_ok (d : AttackEngine.Draws) : Prop :=
  3 <= AttackEngine.dr_length d <= 5
  /\ length (AttackEngine.dr_templates d)
     = Z.to_nat (AttackEngine.dr_length d).

(** The events [evs] as a tick stores them when the counter stands at
    [c]: stamped at emission, with the ids [c + 1], [c + 2], ... *)
Definition stored_as (c : Z) (stamp : string) (evs : list Event)
  : list Event :=
  imap (fun j e => set_id (c + 1 + Z.of_nat j) (set_timestamp stamp e)) evs.

(** *** Background noise *)

(** The calls of [add_event] that [noise_loop] makes, each with the clock
    reading of the call, for the given draws. *)
Definition noise_calls (ds : list (string * EventGenerator.NoiseDraws))
  : list (string * Event) :=
  map (fun x => (x.1, EventGenerator.generate_noise_event x.2)) ds.

Definition is_noise (e : Event) : Prop :=
  e_severity e = "benign"%string /\ e_stage e = Some "noise"%string
  /\ e_chain_id e = None /\ e_phase e = "noise"%string
  /\ e_category e = "noise"%string
  /\ e_dest_port e ∈ EventGenerator._COMMON_PORTS.

(** The events a raw plan carries, in order, whatever its shape. *)
Definition raw_events (raw : Main.Raw) : list (option Event) :=
  match raw with
  | Main.RawDict _ _ plan_entries =>
      map (fun entry => match entry with
                        | Main.RawPair _ ev => ev
                        | Main.RawBare ev => Some ev
                        end) plan_entries
  | Main.RawList events => map Some events
  | Main.RawOther => []
  end.

(** *** Template tables *)

(** The stage and the surface [_pick_template] acts on. *)
Definition effective_stage (stage : string) : string :=
  if bool_decide (stage ∈ ["recon"; "intrusion"; "exploit"]%string)
  then stage else "recon"%string.

Definition effective_surface (surface : string) : string :=
  if bool_decide (surface ∈ AttackTemplates._SURFACES)
  then surface else "http"%string.

(** *** The request log *)

(** The answers the requests among [steps] get, in order, each with the
    client and the clock reading of its request. *)
Fixpoint answers (steps : list Main.Step) (w : Main.Server * State.Store)
  : list (string * Q * Main.Response) :=
  match steps with
  | [] => []
  | x :: rest =>
      match x with
      | Main.Request client_ip now sampled raw =>
          [(client_ip, now,
            (Main.trigger_attack client_ip now sampled raw w.1).1)]
      | _ => []
      end ++ answers rest (Main.step x w)
  end.

(** The request got past the per-client cooldown. *)
Definition past_cooldown (r : Main.Response) : bool :=
  match r with
  | Main.Throttled_cooldown _ => false
  | _ => true
  end.

(** The request got past both per-client throttles. *)
Definition let_through (r : Main.Response) : bool :=
  match r with
  | Main.Throttled_cooldown _ | Main.Throttled_rate_limit _ => false
  | _ => true
  end.

(** The clock readings of the requests of [client_ip] in [log] whose answer
    satisfies [sel]. *)
Definition times_of (sel : Main.Response -> bool) (client_ip : string)
    (log : list (string * Q * Main.Response)) : list Q :=
  omap (fun '(ip, t, r) =>
          if decide (ip = client_ip) then if sel r then Some t else None
          else None) log.

(** What the two tables record about client [ip] after the requests
    logged in [log]. *)
Definition limiter_inv (st : Main.Server)
    (log : list (string * Q * Main.Response))
    (ip : string) : Prop :=
  let last := default 0%Q (Main._LAST_TRIGGER st !! ip) in
  let hist := default [] (Main._TRIGGER_HISTORY st !! ip) in
  (forall t, t ∈ times_of past_cooldown ip log ->
             (15 # 10 <= t)%Q /\ (t <= last)%Q)
  /\ (Main._LAST_TRIGGER st !! ip = None
      \/ exists t, Main._LAST_TRIGGER st !! ip = Some t
                   /\ t ∈ times_of past_cooldown ip log)
  /\ (forall c, (last - 60 <= c)%Q ->
        List.filter (Qle_bool c) hist
        = List.filter (Qle_bool c) (times_of let_through ip log))
  /\ (length hist <= 30)%nat.

End Tables.

(* ====================================================================== *)
(** * Properties *)
(* ====================================================================== *)

Module StateProps.
Import State Vocabulary.

Lemma length_deque_append {A} (n : nat) (d : list A) (x : A) :
  (length d <= n)%nat ->
  length (deque_append n d x) = Nat.min (S (length d)) n.
Proof.
  intros H. unfold deque_append.
  destruct (Nat.ltb_spec (length d) n).
  - rewrite length_app; cbn [length]; lia.
  - rewrite length_drop, length_app; cbn [length]; lia.
Qed.

Lemma deque_append_drop {A} (n : nat) (d : list A) (x : A) :
  (length d <= n)%nat ->
  deque_append n d x = drop (length (d ++ [x]) - n) (d ++ [x]).
Proof.
  intros H. unfold deque_append. rewrite length_app; cbn [length].
  destruct (Nat.ltb_spec (length d) n).
  - replace (length d + 1 - n)%nat with 0%nat by lia. reflexivity.
  - replace (length d + 1 - n)%nat with 1%nat by lia. reflexivity.
Qed.

Lemma add_event_buffer now e s :
  _events (add_event now e s).2
  = deque_append _MAX_EVENTS (_events s) (add_event now e s).1.
Proof.
  unfold add_event, next_event_id. destruct (lacks_id e); reflexivity.
Qed.

Lemma add_event_counter now e s :
  _event_counter (add_event now e s).2
  = _event_counter s + (if lacks_id e then 1 else 0).
Proof.
  unfold add_event, next_event_id. destruct (lacks_id e); simpl; lia.
Qed.

Lemma add_event_id now e s :
  e_id (add_event now e s).1
  = if lacks_id e then Some (_event_counter s + 1) else e_id e.
Proof.
  unfold add_event, next_event_id, _ensure_timestamp.
  destruct (lacks_id e); simpl;
    match goal with |- context [truthy ?t] => destruct (truthy t) end;
    reflexivity.
Qed.

Lemma add_events_cons now e rest s :
  add_events ((now, e) :: rest) s
  = ((add_event now e s).1 :: (add_events rest (add_event now e s).2).1,
     (add_events rest (add_event now e s).2).2).
Proof.
  simpl. destruct (add_event now e s) as [r s1]; simpl.
  destruct (add_events rest s1); reflexivity.
Qed.

Lemma add_events_length calls : forall s,
  length (add_events calls s).1 = length calls.
Proof.
  induction calls as [|[now e] rest IH]; intros s; [reflexivity|].
  rewrite add_events_cons. simpl. now rewrite IH.
Qed.

(** The buffer is always the tail of everything ever appended. *)
Lemma add_events_buffer calls : forall s,
  (length (_events s) <= _MAX_EVENTS)%nat ->
  _events (add_events calls s).2
  = drop (length (_events s ++ (add_events calls s).1) - _MAX_EVENTS)
         (_events s ++ (add_events calls s).1).
Proof.
  induction calls as [|[now e] rest IH]; intros s Hs.
  - simpl. rewrite app_nil_r.
    replace (length (_events s) - _MAX_EVENTS)%nat with 0%nat by lia.
    reflexivity.
  - rewrite add_events_cons. cbn [fst snd].
    set (r := (add_event now e s).1).
    set (s1 := (add_event now e s).2).
    assert (Hb : _events s1 = deque_append _MAX_EVENTS (_events s) r)
      by apply add_event_buffer.
    assert (Hlen : (length (_events s1) <= _MAX_EVENTS)%nat).
    { rewrite Hb, length_deque_append by exact Hs. lia. }
    rewrite (IH s1 Hlen).
    rewrite Hb, deque_append_drop by exact Hs.
    set (k1 := (length (_events s ++ [r]) - _MAX_EVENTS)%nat).
    assert (Hk1 : (k1 <= length (_events s ++ [r]))%nat) by (subst k1; lia).
    rewrite <- (drop_app_le (_events s ++ [r]) _ k1) by exact Hk1.
    rewrite drop_drop, <- app_assoc. cbn [app].
    f_equal. rewrite length_drop, !length_app. cbn [length].
    subst k1. rewrite length_app. cbn [length]. lia.
Qed.

(** The id handed to the [i]-th call, when its event lacks one, is the
    number of id-less events submitted up to and including that call. *)
Lemma add_events_ids calls : forall s i now e r,
  calls !! i = Some (now, e) ->
  lacks_id e = true ->
  (add_events calls s).1 !! i = Some r ->
  e_id r = Some (_event_counter s + count_lacking (take (S i) calls)).
Proof.
  induction calls as [|[now0 e0] rest IH]; intros s i now e r Hc Hl Hr.
  - discriminate.
  - rewrite add_events_cons in Hr. cbn [fst] in Hr.
    destruct i as [|i].
    + simpl in Hc, Hr. inversion Hc; subst. inversion Hr; subst.
      rewrite add_event_id, Hl. simpl. rewrite Hl. f_equal; lia.
    + simpl in Hc, Hr.
      rewrite (IH _ _ _ _ _ Hc Hl Hr), add_event_counter.
      f_equal. change (take (S (S i)) ((now0, e0) :: rest))
        with ((now0, e0) :: take (S i) rest).
      cbn [count_lacking]. lia.
Qed.

Lemma count_lacking_nonneg l : 0 <= count_lacking l.
Proof.
  induction l as [|[? e] l IH]; simpl; [lia|]. destruct (lacks_id e); lia.
Qed.

Lemma count_lacking_app l1 l2 :
  count_lacking (l1 ++ l2) = count_lacking l1 + count_lacking l2.
Proof.
  induction l1 as [|[? e] l1 IH]; simpl; [lia|]. rewrite IH. lia.
Qed.

Lemma count_lacking_take_S calls i now e :
  calls !! i = Some (now, e) ->
  count_lacking (take (S i) calls)
  = count_lacking (take i calls) + (if lacks_id e then 1 else 0).
Proof.
  intros H. rewrite (take_S_r _ _ _ H), count_lacking_app. simpl. lia.
Qed.

Lemma count_lacking_take_mono calls i j :
  (i <= j)%nat ->
  count_lacking (take i calls) <= count_lacking (take j calls).
Proof.
  intros Hij.
  rewrite <- (take_drop i (take j calls)), take_take, count_lacking_app.
  replace (i `min` j)%nat with i by lia.
  pose proof (count_lacking_nonneg (drop i (take j calls))). lia.
Qed.

(** C4 (ids and eviction of the event store).  Started from the empty
    store, the store gives the events that arrive without an id (missing
    or 0) the ids 1, 2, 3, ... in arrival order: the [i]-th call, when its
    event lacks an id, receives the number of id-less events submitted so
    far, which is at least 1 and strictly larger than every id handed out
    before.  After [_MAX_EVENTS + k] insertions the buffer holds exactly
    [_MAX_EVENTS] = 500 events, namely all stored events but the first
    [k], in insertion order. *)
Theorem event_store_ids_and_fifo_eviction :
  (forall calls i now e r,
      calls !! i = Some (now, e) -> lacks_id e = true ->
      (add_events calls initial).1 !! i = Some r ->
      e_id r = Some (count_lacking (take (S i) calls))
      /\ 1 <= count_lacking (take (S i) calls))
  /\ (forall calls i j ni ei nj ej ri rj a b,
      (i < j)%nat ->
      calls !! i = Some (ni, ei) -> lacks_id ei = true ->
      calls !! j = Some (nj, ej) -> lacks_id ej = true ->
      (add_events calls initial).1 !! i = Some ri ->
      (add_events calls initial).1 !! j = Some rj ->
      e_id ri = Some a -> e_id rj = Some b -> a < b)
  /\ (forall calls k,
      length calls = (_MAX_EVENTS + k)%nat ->
      _MAX_EVENTS = 500%nat
      /\ length (_events (add_events calls initial).2) = _MAX_EVENTS
      /\ _events (add_events calls initial).2
         = drop k (add_events calls initial).1).
Proof.
  split; [|split].
  - intros calls i now e r Hc Hl Hr. split.
    + rewrite (add_events_ids _ _ _ _ _ _ Hc Hl Hr). reflexivity.
    + rewrite (count_lacking_take_S _ _ _ _ Hc), Hl.
      pose proof (count_lacking_nonneg (take i calls)). lia.
  - intros calls i j ni ei nj ej ri rj a b Hij Hi Hli Hj Hlj Hri Hrj Ha Hb.
    rewrite (add_events_ids _ _ _ _ _ _ Hi Hli Hri) in Ha.
    rewrite (add_events_ids _ _ _ _ _ _ Hj Hlj Hrj) in Hb.
    inversion Ha; inversion Hb; subst. simpl.
    rewrite (count_lacking_take_S _ _ _ _ Hj), Hlj.
    pose proof (count_lacking_take_mono calls (S i) j ltac:(lia)). lia.
  - intros calls k Hlen.
    pose proof (add_events_buffer calls initial ltac:(simpl; lia)) as Hb.
    cbn [initial _events app] in Hb.
    rewrite add_events_length, Hlen in Hb.
    replace (_MAX_EVENTS + k - _MAX_EVENTS)%nat with k in Hb by lia.
    split; [reflexivity|]. split; [|exact Hb].
    rewrite Hb, length_drop, add_events_length, Hlen. lia.
Qed.

Lemma event_store_ids_and_fifo_eviction_witness :
  let calls := repeat ("2024-05-01T12:00:01"%string, fallback_noise) 501 in
  (e_id <$> (add_events calls initial).1 !! 0%nat) = Some (Some 1)
  /\ (forall a b,
        (e_id <$> (add_events calls initial).1 !! 0%nat) = Some (Some a) ->
        (e_id <$> (add_events calls initial).1 !! 1%nat) = Some (Some b) ->
        a < b)
  /\ length (_events (add_events calls initial).2) = 500%nat
  /\ _events (add_events calls initial).2 = drop 1 (add_events calls initial).1.
Proof.
  intros calls.
  destruct event_store_ids_and_fifo_eviction as (Hid & Hmono & Hfifo).
  assert (H0 : calls !! 0%nat = Some ("2024-05-01T12:00:01"%string, fallback_noise))
    by reflexivity.
  assert (H1 : calls !! 1%nat = Some ("2024-05-01T12:00:01"%string, fallback_noise))
    by reflexivity.
  destruct ((add_events calls initial).1 !! 0%nat) as [r0|] eqn:E0;
    [|vm_compute in E0; discriminate].
  destruct ((add_events calls initial).1 !! 1%nat) as [r1|] eqn:E1;
    [|vm_compute in E1; discriminate].
  split; [|split].
  - simpl. f_equal.
    exact (proj1 (Hid calls 0%nat _ _ r0 H0 eq_refl E0)).
  - intros a b Ha Hb. simpl in Ha, Hb. inversion Ha. inversion Hb.
    eapply (Hmono calls 0%nat 1%nat); eauto.
  - destruct (Hfifo calls 1%nat eq_refl) as (_ & Hlen & Hbuf).
    split; [exact Hlen | exact Hbuf].
Defined.

(** ** Lookup by id *)

Lemma first_with_id_spec i l :
  match first_with_id i l with
  | Some e => exists before after,
      l = before ++ e :: after /\ e_id e = Some i
      /\ Forall (fun x => e_id x <> Some i) before
  | None => Forall (fun x => e_id x <> Some i) l
  end.
Proof.
  induction l as [|x l IH]; simpl; [constructor|].
  destruct (decide (e_id x = Some i)) as [Hx|Hx].
  - exists [], l. repeat split; [assumption | constructor].
  - destruct (first_with_id i l) as [e|].
    + destruct IH as (before & after & -> & He & Hb).
      exists (x :: before), after. repeat split; [assumption|].
      constructor; assumption.
    + constructor; assumption.
Qed.

Lemma Forall_rev_iff {A} (P : A -> Prop) (l : list A) :
  Forall P (rev l) <-> Forall P l.
Proof.
  rewrite !List.Forall_forall. split; intros H x Hx; apply H.
  - apply List.in_rev. now rewrite rev_involutive.
  - now apply List.in_rev.
Qed.

Lemma add_event_newest now e s :
  exists kept, _events (add_event now e s).2 = kept ++ [(add_event now e s).1].
Proof.
  rewrite add_event_buffer. unfold deque_append.
  destruct (Nat.ltb_spec (length (_events s)) _MAX_EVENTS) as [Hlt|Hge].
  - eexists; reflexivity.
  - (* an empty buffer is never full: the capacity is positive *)
    destruct (_events s) as [|x d]; [|eexists; reflexivity].
    unfold _MAX_EVENTS in Hge. simpl in Hge. lia.
Qed.

(** C9 (ids are kept, lookup returns the newest match).  [add_event] leaves
    a nonzero id untouched and does not consume a counter value, and the
    event just stored is the one [get_event_by_id] returns for its id,
    whatever the buffer held before.  In general [get_event_by_id] returns
    the last event of the buffer (in insertion order) bearing the id, and
    nothing exactly when no buffered event bears it.  Ids are not unique:
    storing twice an event with id 7 leaves two buffered events with id 7. *)
Theorem add_event_keeps_nonzero_id_and_lookup_returns_newest :
  (forall now e s n,
      e_id e = Some n -> n <> 0 ->
      e_id (add_event now e s).1 = Some n
      /\ _event_counter (add_event now e s).2 = _event_counter s
      /\ get_event_by_id n (add_event now e s).2 = Some (add_event now e s).1)
  /\ (forall i s,
      match get_event_by_id i s with
      | Some e => exists older newer,
          _events s = older ++ e :: newer /\ e_id e = Some i
          /\ Forall (fun x => e_id x <> Some i) newer
      | None => Forall (fun x => e_id x <> Some i) (_events s)
      end)
  /\ (exists now e s a b,
      s = (add_event now e (add_event now e initial).2).2
      /\ _events s = [a; b] /\ e_id a = Some 7 /\ e_id b = Some 7).
Proof.
  split; [|split].
  - intros now e s n He Hn.
    assert (Hl : lacks_id e = false).
    { unfold lacks_id. rewrite He. now apply Z.eqb_neq. }
    assert (Hid : e_id (add_event now e s).1 = Some n)
      by (rewrite add_event_id, Hl; exact He).
    split; [exact Hid|]. split.
    + rewrite add_event_counter, Hl. lia.
    + unfold get_event_by_id.
      destruct (add_event_newest now e s) as [kept ->].
      rewrite rev_app_distr. simpl.
      destruct (decide (e_id (add_event now e s).1 = Some n));
        [reflexivity | contradiction].
  - intros i s. unfold get_event_by_id.
    pose proof (first_with_id_spec i (rev (_events s))) as H.
    destruct (first_with_id i (rev (_events s))) as [e|].
    + destruct H as (before & after & Hrev & He & Hb).
      exists (rev after), (rev before). split; [|split].
      * rewrite <- (rev_involutive (_events s)), Hrev, rev_app_distr.
        simpl. now rewrite <- app_assoc.
      * exact He.
      * now apply Forall_rev_iff.
    + now apply Forall_rev_iff.
  - exists "2024-05-01T12:00:01"%string, (set_id 7 fallback_noise).
    eexists. exists (set_id 7 fallback_noise), (set_id 7 fallback_noise).
    split; [reflexivity|]. repeat split.
Qed.

Lemma add_event_keeps_nonzero_id_witness :
  let e := set_id 7 fallback_noise in
  let s := (add_event "2024-05-01T12:00:01" e initial).2 in
  e_id (add_event "2024-05-01T12:00:02" e s).1 = Some 7
  /\ _event_counter (add_event "2024-05-01T12:00:02" e s).2 = 0
  /\ get_event_by_id 7 (add_event "2024-05-01T12:00:02" e s).2
     = Some (add_event "2024-05-01T12:00:02" e s).1.
Proof.
  intros e s.
  exact (proj1 add_event_keeps_nonzero_id_and_lookup_returns_newest
           "2024-05-01T12:00:02"%string e s 7 eq_refl ltac:(lia)).
Defined.

(** ** Dashboard counts *)

Lemma fold_count_severity l : forall (m : gmap string nat) k,
  foldl count_severity m l !! k
  = (fun c => (c + count_sev k l)%nat) <$> (m !! k).
Proof.
  induction l as [|e l IH]; intros m k.
  - simpl. destruct (m !! k); simpl; [f_equal; lia | reflexivity].
  - cbn [foldl count_sev]. rewrite IH. unfold count_severity.
    destruct (m !! e_severity e) as [c|] eqn:E.
    + destruct (decide (e_severity e = k)) as [Heq|Hne].
      * rewrite <- Heq, lookup_insert_eq, E. simpl. f_equal. lia.
      * rewrite lookup_insert_ne by exact Hne.
        destruct (m !! k); simpl; [f_equal; lia | reflexivity].
    + destruct (decide (e_severity e = k)) as [Heq|Hne].
      * rewrite <- Heq, E. reflexivity.
      * destruct (m !! k); simpl; [f_equal; lia | reflexivity].
Qed.

Lemma zero_counts_lookup k :
  zero_counts !! k = if decide (k ∈ known_severities) then Some 0%nat else None.
Proof.
  unfold zero_counts, known_severities.
  destruct (decide (k ∈ _)) as [Hin|Hnin].
  - repeat (apply elem_of_cons in Hin as [->|Hin]; [reflexivity|]).
    inversion Hin.
  - rewrite !lookup_insert_ne, lookup_empty; [reflexivity|..];
      intros <-; apply Hnin; repeat constructor.
Qed.

Lemma length_by_severity l :
  length l
  = (count_sev "benign" l + (count_sev "suspicious" l
     + (count_sev "malicious" l + (count_sev "critical" l + 0)))
     + count_unknown l)%nat.
Proof.
  induction l as [|e l IH]; [reflexivity|].
  cbn [length count_sev count_unknown]. rewrite IH.
  destruct (decide (e_severity e ∈ known_severities)) as [Hin|Hnin].
  - unfold known_severities in Hin.
    repeat (apply elem_of_cons in Hin as [->|Hin]; [simpl; lia|]).
    inversion Hin.
  - repeat match goal with
           | |- context [decide (e_severity e = ?k)] =>
               destruct (decide (e_severity e = k)) as [Heq|_];
               [exfalso; apply Hnin; rewrite Heq; repeat constructor|]
           end.
    lia.
Qed.

Lemma count_unknown_pos l :
  (0 < count_unknown l)%nat
  <-> exists e, e ∈ l /\ e_severity e ∉ known_severities.
Proof.
  induction l as [|x l IH]; cbn [count_unknown].
  - split; [lia|]. intros (e & He & _). inversion He.
  - destruct (decide (e_severity x ∈ known_severities)) as [Hin|Hnin].
    + simpl. rewrite IH. split.
      * intros (e & He & Hu). exists e. split; [now right | exact Hu].
      * intros (e & He & Hu). apply elem_of_cons in He as [->|He];
          [contradiction | eauto].
    + split; [|lia]. intros _. exists x. split; [now left | exact Hnin].
Qed.

(** C10 (dashboard counts).  [get_dashboard_counts] reports the buffer
    length as total and, in a dict with exactly the four known keys, the
    number of buffered events of each known severity.  Hence the total is
    at least the sum of the four counts, and strictly larger exactly when
    some buffered event carries a severity outside the four. *)
Theorem dashboard_total_bounds_known_severities :
  forall s : Store,
    let c := get_dashboard_counts s in
    total c = length (_events s)
    /\ (forall k, by_severity c !! k
                  = if decide (k ∈ known_severities)
                    then Some (count_sev k (_events s)) else None)
    /\ (sum_known (by_severity c) <= total c)%nat
    /\ ((sum_known (by_severity c) < total c)%nat
        <-> exists e, e ∈ _events s /\ e_severity e ∉ known_severities).
Proof.
  intros s c.
  assert (Hk : forall k, by_severity c !! k
                 = if decide (k ∈ known_severities)
                   then Some (count_sev k (_events s)) else None).
  { intros k. subst c. cbn [get_dashboard_counts by_severity].
    rewrite fold_count_severity, zero_counts_lookup.
    destruct (decide (k ∈ known_severities)); reflexivity. }
  assert (Hsum : sum_known (by_severity c)
                 = (length (_events s) - count_unknown (_events s))%nat
                   /\ (count_unknown (_events s) <= length (_events s))%nat).
  { unfold sum_known, known_severities. cbn [foldr].
    rewrite !Hk. unfold known_severities.
    repeat match goal with
           | |- context [decide (?k ∈ ?l)] =>
               destruct (decide (k ∈ l)) as [_|Hn];
               [|exfalso; apply Hn; repeat constructor]
           end.
    cbv [default from_option id]. pose proof (length_by_severity (_events s)). lia. }
  destruct Hsum as [Hsum Hle].
  split; [reflexivity|]. split; [exact Hk|].
  change (total c) with (length (_events s)).
  rewrite Hsum. split; [lia|].
  rewrite <- count_unknown_pos. lia.
Qed.

End StateProps.

(* ---------------------------------------------------------------------- *)
(** ** The classifier *)
(* ---------------------------------------------------------------------- *)

Module ClassifierProps.
Import Classifier Vocabulary.

(** C8 (exploit, critical, just now).  An event dict with stage exploit,
    severity critical and a timestamp that parses to the current instant is
    classified as risk critical with confidence exactly 1 (the increments
    0.3 + 0.45 + 0.3 + 0.1 exceed 1 and are clamped) and the factors, in
    evaluation order, exploit, critical severity and recent activity. *)
Theorem classify_exploit_critical_now :
  forall (P : IsoParser) (now : Z) (event : EventDict) (ts : string),
    d_stage event = Some "exploit"%string ->
    d_severity event = Some "critical"%string ->
    d_timestamp event = Some ts ->
    fromisoformat ts = Some now ->
    classify_event now event
    = mkClassification "critical" 1
        ["exploit behavior detected"; "severity=critical → high concern";
         "recent activity (<60s)"]%string
    /\ risk (classify_event now event) = "critical"%string
    /\ confidence (classify_event now event) = 1%Q
    /\ "exploit behavior detected"%string ∈ factors (classify_event now event)
    /\ "severity=critical → high concern"%string
       ∈ factors (classify_event now event).
Proof.
  intros P now event ts Hstage Hsev Hts Hparse.
  assert (E : classify_event now event
    = mkClassification "critical" 1
        ["exploit behavior detected"; "severity=critical → high concern";
         "recent activity (<60s)"]%string).
  { unfold classify_event, _seconds_ago, _parse_ts.
    rewrite Hstage, Hsev, Hts, Hparse, Z.sub_diag.
    reflexivity. }
  rewrite E. cbn [risk confidence factors].
  repeat split; auto; repeat constructor.
Qed.

Lemma classify_exploit_critical_now_witness :
  @classify_event sample_fromisoformat 43200000000
    (dict_of (Some "exploit") (Some "critical") (Some "203.0.113.9")
             (Some "2024-05-01T12:00:00"))%string
  = mkClassification "critical" 1
      ["exploit behavior detected"; "severity=critical → high concern";
       "recent activity (<60s)"]%string.
Proof.
  exact (proj1 (classify_exploit_critical_now sample_fromisoformat
                  43200000000
                  (dict_of (Some "exploit") (Some "critical")
                           (Some "203.0.113.9")
                           (Some "2024-05-01T12:00:00"))%string
                  "2024-05-01T12:00:00"%string
                  eq_refl eq_refl eq_refl eq_refl)).
Defined.

End ClassifierProps.

(* ---------------------------------------------------------------------- *)
(** ** The posture engine *)
(* ---------------------------------------------------------------------- *)

Module PostureProps.
Import Classifier Posture Vocabulary.

Section Counters.
Context {K : Type} `{EqDecision K}.

Lemma counter_get_incr (k k' : K) (c : list (K * nat)) :
  counter_get k' (counter_incr k c)
  = (counter_get k' c + if decide (k = k') then 1 else 0)%nat.
Proof.
  induction c as [|[k0 n] c IH]; simpl.
  - destruct (decide (k = k')); reflexivity.
  - destruct (decide (k0 = k)) as [->|Hk0]; simpl.
    + destruct (decide (k = k')); lia.
    + destruct (decide (k0 = k')) as [->|Hk0'].
      * destruct (decide (k = k')); [congruence | lia].
      * exact IH.
Qed.

Lemma keys_counter_incr (k : K) (c : list (K * nat)) :
  (counter_incr k c).*1 = if decide (k ∈ c.*1) then c.*1 else c.*1 ++ [k].
Proof.
  induction c as [|[k0 n] c IH]; simpl in *.
  - destruct (decide (k ∈ [])) as [Hin|_]; [inversion Hin | reflexivity].
  - destruct (decide (k0 = k)) as [->|Hk0]; simpl in *.
    + clear IH. case_decide as Hn; [reflexivity|]. exfalso. apply Hn. left.
    + unfold fmap in *. rewrite IH.
      repeat case_decide; try reflexivity; exfalso;
        repeat match goal with
               | Hm : _ ∈ _ :: _ |- _ => apply elem_of_cons in Hm as [Hm|Hm]
               | Hm : ~ _ ∈ _ :: _ |- _ => apply not_elem_of_cons in Hm as [? ?]
               end; congruence.
Qed.

Lemma NoDup_counter_incr (k : K) (c : list (K * nat)) :
  NoDup c.*1 -> NoDup (counter_incr k c).*1.
Proof.
  intros Hc. rewrite keys_counter_incr.
  destruct (decide (k ∈ c.*1)) as [Hin|Hnin]; [exact Hc|].
  apply NoDup_app. repeat split; [exact Hc | | apply NoDup_singleton].
  intros x Hx Hx'. apply list_elem_of_singleton in Hx'. now subst.
Qed.

Lemma foldl_counter_spec (l : list K) : forall c : list (K * nat),
  NoDup c.*1 ->
  NoDup (foldl (fun c k => counter_incr k c) c l).*1
  /\ forall k, counter_get k (foldl (fun c k => counter_incr k c) c l)
              = (counter_get k c + occurrences k l)%nat.
Proof.
  induction l as [|x l IH]; intros c Hc; simpl.
  - split; [exact Hc | intros; lia].
  - destruct (IH _ (NoDup_counter_incr x c Hc)) as [Hnd Hget].
    split; [exact Hnd|]. intros k. rewrite Hget, counter_get_incr. lia.
Qed.

Lemma counter_get_elem (k : K) (n : nat) (c : list (K * nat)) :
  NoDup c.*1 -> (k, n) ∈ c -> counter_get k c = n.
Proof.
  induction c as [|[k0 n0] c IH]; intros Hnd Hin; [inversion Hin|].
  simpl in *. apply NoDup_cons in Hnd as [Hk0 Hnd].
  apply elem_of_cons in Hin as [Heq|Hin].
  - inversion Heq; subst. destruct (decide (k0 = k0)); congruence.
  - destruct (decide (k0 = k)) as [->|_]; [|now apply IH].
    exfalso. apply Hk0. apply list_elem_of_fmap. now exists (k, n).
Qed.

Lemma counter_get_pos (k : K) (c : list (K * nat)) :
  (0 < counter_get k c)%nat -> (k, counter_get k c) ∈ c.
Proof.
  induction c as [|[k0 n0] c IH]; simpl; [lia|].
  destruct (decide (k0 = k)) as [->|_]; intros Hpos; [left|].
  right. now apply IH.
Qed.

(** [any(v >= 2 for v in Counter(l).values())] holds exactly when some
    element occurs at least twice in [l]. *)
Lemma any_repeated_iff (l : list K) :
  existsb (fun v => (2 <=? v)%nat) (map snd (Counter l)) = true
  <-> exists k, (2 <= occurrences k l)%nat.
Proof.
  destruct (foldl_counter_spec l [] (NoDup_nil_2)) as [Hnd Hget].
  fold (Counter l) in Hnd, Hget. simpl in Hget.
  rewrite List.existsb_exists. split.
  - intros (v & Hv & Hle). apply List.in_map_iff in Hv as ([k n] & <- & Hin).
    apply list_elem_of_In in Hin. cbn [snd] in Hle. apply Nat.leb_le in Hle.
    exists k. rewrite <- Hget, (counter_get_elem _ _ _ Hnd Hin). exact Hle.
  - intros (k & Hk). exists (counter_get k (Counter l)). split.
    + apply List.in_map_iff. exists (k, counter_get k (Counter l)).
      split; [reflexivity|]. apply list_elem_of_In, counter_get_pos.
      rewrite Hget. lia.
    + apply Nat.leb_le. rewrite Hget. exact Hk.
Qed.

End Counters.

Section Rules.
Context {P : IsoParser}.

Lemma any_repeated_occurrences ips :
  any_repeated ips = true <-> exists ip, (2 <= occurrences ip ips)%nat.
Proof.
  destruct ips as [|x ips]; [|apply any_repeated_iff].
  simpl. split; [discriminate | intros [ip Hip]; lia].
Qed.

Lemma occurrences_malicious_ips now ip recent :
  occurrences ip (malicious_ips now recent)
  = count_recent_malicious now ip recent.
Proof.
  unfold count_recent_malicious.
  induction recent as [|evt recent IH]; [reflexivity|].
  cbn [malicious_ips List.filter]. unfold recent_malicious_from at 1.
  destruct (decide (d_severity evt = Some "malicious"%string)) as [Hs|Hs].
  - rewrite (bool_decide_eq_true_2 _ Hs).
    destruct (Qle_bool (_seconds_ago now (d_timestamp evt)) 30); cbn [andb].
    + cbn [occurrences]. rewrite IH.
      destruct (decide (d_source_ip evt = ip)) as [Hi|Hi].
      * rewrite (bool_decide_eq_true_2 _ Hi). reflexivity.
      * rewrite (bool_decide_eq_false_2 _ Hi). reflexivity.
    + exact IH.
  - rewrite (bool_decide_eq_false_2 _ Hs). exact IH.
Qed.

Lemma critical_test_iff (summaries : list ChainSummary) :
  existsb (fun summary => bool_decide (cs_risk summary = Some "critical"%string))
          summaries = true
  <-> exists s, s ∈ summaries /\ cs_risk s = Some "critical"%string.
Proof.
  rewrite List.existsb_exists. split; intros (x & Hx & Hr); exists x.
  - split; [now apply list_elem_of_In | now apply bool_decide_eq_true_1 in Hr].
  - split; [now apply list_elem_of_In | now apply bool_decide_eq_true_2].
Qed.

Lemma benign_test_iff (recent : list EventDict) :
  forallb (fun evt => bool_decide (d_severity evt = Some "benign"%string))
          recent = true
  <-> forall evt, evt ∈ recent -> d_severity evt = Some "benign"%string.
Proof.
  rewrite List.forallb_forall. split; intros Hall x Hx.
  - apply list_elem_of_In in Hx. specialize (Hall x Hx).
    now apply bool_decide_eq_true_1 in Hall.
  - apply bool_decide_eq_true_2, Hall. now apply list_elem_of_In.
Qed.

(** The age test of the engine, [_seconds_ago(ts) <= 30], holds exactly
    when the event is at most 30 000 000 microseconds old. *)
Lemma seconds_ago_le_30 now (evt : EventDict) :
  Qle_bool (_seconds_ago now (d_timestamp evt)) 30
  = (age_us now evt <=? 30000000).
Proof.
  unfold _seconds_ago, _parse_ts, age_us, total_seconds.
  destruct (d_timestamp evt) as [ts|];
    [destruct (fromisoformat ts) as [t|]|];
    unfold Qle_bool; cbn [Qnum Qden]; rewrite ?Z.sub_diag;
    try reflexivity.
  rewrite Z.mul_1_r. reflexivity.
Qed.

Lemma count_recent_malicious_age now ip (recent : list EventDict) :
  count_recent_malicious now ip recent
  = count_malicious_within 30000000 now ip recent.
Proof.
  unfold count_recent_malicious, count_malicious_within. f_equal.
  apply List.filter_ext. intros evt.
  unfold recent_malicious_from, malicious_within.
  now rewrite seconds_ago_le_30.
Qed.

(** C2 (the posture decision list).  [determine_posture] answers LOCKDOWN
    as soon as one chain summary has risk critical, whatever the events;
    failing that, RESTRICT when some source address has two or more
    malicious events that are at most 30 seconds (30 000 000 microseconds)
    old, the age being the time elapsed since the instant the event's
    timestamp denotes (0 for a missing or unreadable timestamp); failing
    that, MONITOR when every recent event is benign (also for no event at
    all); and ELEVATED in every remaining case.  Malicious events older
    than 30 seconds count for nothing in the second rule. *)
Theorem determine_posture_decision_list :
  forall (now : Z) (recent : list EventDict) (summaries : list ChainSummary),
    let critical :=
      exists s, s ∈ summaries /\ cs_risk s = Some "critical"%string in
    let repeated :=
      exists ip, (2 <= count_malicious_within 30000000 now ip recent)%nat in
    let all_benign :=
      forall evt, evt ∈ recent -> d_severity evt = Some "benign"%string in
    (critical -> determine_posture now recent summaries = "LOCKDOWN"%string)
    /\ (~ critical -> repeated ->
        determine_posture now recent summaries = "RESTRICT"%string)
    /\ (~ critical -> ~ repeated -> all_benign ->
        determine_posture now recent summaries = "MONITOR"%string)
    /\ (~ critical -> ~ repeated -> ~ all_benign ->
        determine_posture now recent summaries = "ELEVATED"%string)
    /\ (~ critical -> determine_posture now [] summaries = "MONITOR"%string)
    /\ (forall old,
          Forall (fun evt => 30000000 < age_us now evt) old ->
          determine_posture now (recent ++ old) summaries <> "RESTRICT"%string
          \/ repeated).
Proof.
  intros now recent summaries critical repeated all_benign.
  assert (Hrep_iff : forall l,
            any_repeated (malicious_ips now l) = true
            <-> exists ip, (2 <= count_malicious_within 30000000 now ip l)%nat).
  { intros l. rewrite any_repeated_occurrences.
    split; intros [ip Hip]; exists ip;
      [rewrite <- count_recent_malicious_age, <- occurrences_malicious_ips
      |rewrite occurrences_malicious_ips, count_recent_malicious_age];
      exact Hip. }
  pose proof (Hrep_iff recent) as Hrep. fold repeated in Hrep.
  pose proof (critical_test_iff summaries) as Hcrit.
  pose proof (benign_test_iff recent) as Hben.
  fold critical in Hcrit. fold all_benign in Hben.
  assert (Hno : ~ critical ->
    existsb (fun summary =>
               bool_decide (cs_risk summary = Some "critical"%string))
            summaries = false).
  { intros Hc. apply not_true_is_false. now rewrite Hcrit. }
  split; [|split; [|split; [|split; [|split]]]].
  - unfold determine_posture. intros Hc. apply Hcrit in Hc. now rewrite Hc.
  - unfold determine_posture.
    intros Hc Hr. rewrite (Hno Hc). apply Hrep in Hr. now rewrite Hr.
  - unfold determine_posture. intros Hc Hr Hb. rewrite (Hno Hc).
    rewrite (proj1 (not_true_iff_false _) (fun E => Hr (proj1 Hrep E))).
    apply Hben in Hb. now rewrite Hb.
  - unfold determine_posture. intros Hc Hr Hb. rewrite (Hno Hc).
    rewrite (proj1 (not_true_iff_false _) (fun E => Hr (proj1 Hrep E))).
    rewrite (proj1 (not_true_iff_false _) (fun E => Hb (proj1 Hben E))).
    reflexivity.
  - unfold determine_posture. intros Hc. rewrite (Hno Hc). reflexivity.
  - intros old Hold.
    destruct (any_repeated (malicious_ips now (recent ++ old))) eqn:Hany.
    + right. apply Hrep_iff in Hany as [ip Hip]. exists ip.
      unfold count_malicious_within in *.
      rewrite List.filter_app, length_app in Hip.
      replace (List.filter (malicious_within 30000000 now ip) old)
        with (@nil EventDict) in Hip; [cbn in Hip; lia|].
      symmetry. clear Hip.
      induction Hold as [|evt old Hevt _ IH]; [reflexivity|].
      cbn [List.filter]. unfold malicious_within at 1.
      apply Z.leb_gt in Hevt. rewrite Hevt, andb_false_r. exact IH.
    + left. unfold determine_posture. rewrite Hany.
      destruct (existsb _ summaries); [discriminate|].
      destruct (forallb _ (recent ++ old)); discriminate.
Qed.

End Rules.

Lemma determine_posture_decision_list_witness :
  let now := 43210000000 in
  let m1 := dict_of (Some "intrusion") (Some "malicious") (Some "9.9.9.9")
                    (Some "2024-05-01T12:00:00")%string in
  let m2 := dict_of (Some "intrusion") (Some "malicious") (Some "9.9.9.9")
                    (Some "2024-05-01T12:00:05")%string in
  let stale := dict_of (Some "intrusion") (Some "malicious") (Some "9.9.9.9")
                       (Some "2024-05-01T11:59:00")%string in
  let sus := dict_of (Some "recon") (Some "suspicious") (Some "9.9.9.9")
                     (Some "2024-05-01T12:00:05")%string in
  let crit := mkSummary (Some "critical"%string) 1 [] None [] None in
  @determine_posture sample_fromisoformat now [m1; m2] [crit]
    = "LOCKDOWN"%string
  /\ @determine_posture sample_fromisoformat now [m1; m2] []
    = "RESTRICT"%string
  /\ @determine_posture sample_fromisoformat now [] [] = "MONITOR"%string
  /\ @determine_posture sample_fromisoformat now [sus] [] = "ELEVATED"%string
  /\ @determine_posture sample_fromisoformat now [m2; stale] []
    = "ELEVATED"%string.
Proof.
  intros now m1 m2 stale sus crit.
  assert (Hnone : ~ exists s : ChainSummary,
             s ∈ [] /\ cs_risk s = Some "critical"%string).
  { intros (s & Hs & _). inversion Hs. }
  destruct (determine_posture_decision_list (P := sample_fromisoformat)
              now [m1; m2] [crit]) as (Hlock & _).
  destruct (determine_posture_decision_list (P := sample_fromisoformat)
              now [m1; m2] []) as (_ & Hrestrict & _).
  destruct (determine_posture_decision_list (P := sample_fromisoformat)
              now [] []) as (_ & _ & Hmonitor & _).
  destruct (determine_posture_decision_list (P := sample_fromisoformat)
              now [sus] []) as (_ & _ & _ & Helevated & _).
  destruct (determine_posture_decision_list (P := sample_fromisoformat)
              now [m2; stale] []) as (_ & _ & _ & Hstale & _).
  split; [|split; [|split; [|split]]].
  - apply Hlock. exists crit. split; [left | reflexivity].
  - apply Hrestrict; [exact Hnone|].
    exists (Some "9.9.9.9"%string). vm_compute. lia.
  - apply Hmonitor; [exact Hnone | |].
    + intros [ip Hip]. vm_compute in Hip. lia.
    + intros evt Hevt. inversion Hevt.
  - apply Helevated; [exact Hnone | |].
    + intros [ip Hip]. cbv in Hip. lia.
    + intros Hb. specialize (Hb sus ltac:(left)). discriminate Hb.
  - apply Hstale; [exact Hnone | |].
    + intros [ip Hip]. revert Hip.
      unfold count_malicious_within. cbn [List.filter].
      assert (Hs : @malicious_within sample_fromisoformat 30000000 now ip stale
                   = false).
      { unfold malicious_within.
        replace (@age_us sample_fromisoformat now stale <=? 30000000)
          with false by (vm_compute; reflexivity).
        now rewrite andb_false_r. }
      rewrite Hs.
      destruct (@malicious_within sample_fromisoformat 30000000 now ip m2);
        cbn; lia.
    + intros Hb. specialize (Hb m2 ltac:(left)). discriminate Hb.
Defined.

End PostureProps.

(* ---------------------------------------------------------------------- *)
(** ** The dashboard *)
(* ---------------------------------------------------------------------- *)

Module DashboardProps.
Import State Dashboard Vocabulary.

Lemma elem_of_insert_desc (x y : Event) (l : list Event) :
  y ∈ insert_desc x l <-> y = x \/ y ∈ l.
Proof.
  induction l as [|z l IH]; simpl.
  - rewrite list_elem_of_singleton. split; [auto | intros [?|Hn]; [auto | inversion Hn]].
  - destruct (key_gt z x).
    + rewrite !elem_of_cons, IH. tauto.
    + rewrite !elem_of_cons. tauto.
Qed.

Lemma elem_of_sorted_newest_first (y : Event) (l : list Event) :
  y ∈ sorted_newest_first l <-> y ∈ l.
Proof.
  unfold sorted_newest_first.
  induction l as [|x l IH]; simpl; [reflexivity|].
  rewrite elem_of_insert_desc, IH, elem_of_cons. reflexivity.
Qed.

Section WithParser.
Context {P : IsoParser}.

Lemma window_elem now seconds s e :
  e ∈ get_events_in_window now seconds s ->
  e ∈ _events s /\ in_window (now - seconds * 1000000) e = true.
Proof.
  unfold get_events_in_window. rewrite elem_of_sorted_newest_first.
  intros Hin. apply list_elem_of_In, List.filter_In in Hin as [Hin Hw].
  split; [now apply list_elem_of_In | exact Hw].
Qed.

(** An event of the 15-unit window is at most 15, hence at most 30, time
    units old for the posture engine reading the same clock. *)
Lemma window_event_is_recent now e :
  in_window (now - 15 * 1000000) e = true ->
  Qle_bool (Posture._seconds_ago now (d_timestamp (event_dict e))) 30 = true.
Proof.
  unfold in_window, Posture._seconds_ago, Posture._parse_ts, event_dict.
  cbn [d_timestamp].
  destruct (e_timestamp e) as [ts|]; [|discriminate].
  destruct (truthy (Some ts)); [|discriminate].
  destruct (fromisoformat ts) as [t|]; [|discriminate].
  intros Hc. apply Z.leb_le in Hc.
  apply Qle_bool_iff. unfold total_seconds, Qle. simpl. lia.
Qed.

Lemma malicious_ips_clock_irrelevant now1 now2 (l : list EventDict) :
  Forall (fun evt =>
            Qle_bool (Posture._seconds_ago now1 (d_timestamp evt)) 30 = true) l ->
  Forall (fun evt =>
            Qle_bool (Posture._seconds_ago now2 (d_timestamp evt)) 30 = true) l ->
  Posture.malicious_ips now1 l = Posture.malicious_ips now2 l.
Proof.
  induction 1 as [|evt l H1 _ IH]; intros H2; [reflexivity|].
  apply Forall_cons in H2 as [H2 H2l]. simpl.
  rewrite H1, H2, (IH H2l). reflexivity.
Qed.

Lemma window_dicts_recent now s :
  Forall (fun evt =>
            Qle_bool (Posture._seconds_ago now (d_timestamp evt)) 30 = true)
         (map event_dict (get_events_in_window now 15 s)).
Proof.
  apply Forall_forall. intros evt Hevt.
  apply list_elem_of_In, List.in_map_iff in Hevt as (e & <- & He).
  apply list_elem_of_In, window_elem in He as [_ He].
  now apply window_event_is_recent.
Qed.

Lemma determine_posture_same_ips now1 now2 recent summaries :
  Posture.malicious_ips now1 recent = Posture.malicious_ips now2 recent ->
  Posture.determine_posture now1 recent summaries
  = Posture.determine_posture now2 recent summaries.
Proof. unfold Posture.determine_posture. now intros ->. Qed.

(** C3, as the code has it.  Between two calls of [dashboard] with no write
    in between, the counts by severity and the total never differ (they do
    not read the clock); the whole output (posture and delta included) is
    the same whenever the 15-unit window selects the same events at both
    clock readings, in particular when both calls read the same clock. *)
Theorem dashboard_repeatable_on_same_window :
  forall (s : Store) (now1 now2 : Z),
    (out_counts (dashboard now1 s) = out_counts (dashboard now2 s)
     /\ out_total (dashboard now1 s) = out_total (dashboard now2 s))
    /\ (get_events_in_window now1 15 s = get_events_in_window now2 15 s ->
        dashboard now1 s = dashboard now2 s).
Proof.
  intros s now1 now2. split; [split; reflexivity|].
  intros Hw. unfold dashboard, get_posture, get_deltas.
  pose proof (window_dicts_recent now1 s) as H1.
  pose proof (window_dicts_recent now2 s) as H2.
  rewrite Hw in *.
  f_equal. apply determine_posture_same_ips.
  now apply malicious_ips_clock_irrelevant.
Qed.

End WithParser.

Lemma dashboard_repeatable_on_same_window_witness :
  @dashboard sample_fromisoformat 43205000000 store_with_intrusion
  = @dashboard sample_fromisoformat 43206000000 store_with_intrusion.
Proof.
  apply (dashboard_repeatable_on_same_window (P := sample_fromisoformat)).
  vm_compute. reflexivity.
Defined.

(** C3, as stated, fails: the same store, read at 12:00:05 and again at
    12:00:20 with no write in between, yields posture ELEVATED with one
    malicious event in the delta, then posture MONITOR with none. *)
Lemma dashboard_differs_when_clock_advances :
  out_posture (@dashboard sample_fromisoformat 43205000000 store_with_intrusion)
    = "ELEVATED"%string
  /\ out_posture (@dashboard sample_fromisoformat 43220000000 store_with_intrusion)
    = "MONITOR"%string
  /\ out_delta (@dashboard sample_fromisoformat 43205000000 store_with_intrusion)
       !! "malicious"%string = Some 1%nat
  /\ out_delta (@dashboard sample_fromisoformat 43220000000 store_with_intrusion)
       !! "malicious"%string = Some 0%nat
  /\ @dashboard sample_fromisoformat 43205000000 store_with_intrusion
     <> @dashboard sample_fromisoformat 43220000000 store_with_intrusion.
Proof.
  assert (H1 : out_posture (@dashboard sample_fromisoformat 43205000000
                              store_with_intrusion) = "ELEVATED"%string)
    by (vm_compute; reflexivity).
  assert (H2 : out_posture (@dashboard sample_fromisoformat 43220000000
                              store_with_intrusion) = "MONITOR"%string)
    by (vm_compute; reflexivity).
  repeat split; try assumption; try (vm_compute; reflexivity).
  intros E. rewrite E, H2 in H1. discriminate H1.
Qed.

End DashboardProps.

(* ---------------------------------------------------------------------- *)
(** ** The plan normalizer *)
(* ---------------------------------------------------------------------- *)

Module NormalizerProps.
Import State Main Vocabulary.

Lemma inject_nat_pos (n : nat) : (0 < n)%nat -> (0 < inject_Z (Z.of_nat n))%Q.
Proof. intros Hn. change 0%Q with (inject_Z 0). rewrite <- Zlt_Qlt. lia. Qed.

Lemma slot_nonneg (d : Q) (n : nat) :
  (0 <= d)%Q -> (0 < n)%nat -> (0 <= d / inject_Z (Z.of_nat n))%Q.
Proof.
  intros Hd Hn. apply Qle_shift_div_l; [now apply inject_nat_pos|].
  now rewrite Qmult_0_l.
Qed.

Lemma slot_pos (d : Q) (n : nat) :
  (0 < d)%Q -> (0 < n)%nat -> (0 < d / inject_Z (Z.of_nat n))%Q.
Proof.
  intros Hd Hn. apply Qlt_shift_div_l; [now apply inject_nat_pos|].
  now rewrite Qmult_0_l.
Qed.

(** C1, as the code has it.  For a bare list of [N >= 2] events the
    normalized plan carries the freshly sampled duration (in [20, 40]) and
    one entry per event, in order, the [i]-th with delay
    [i * (duration / N)]: the spacing is the duration divided by [N] (not
    by [N - 1]).  The delays are non-decreasing, and the last delay is one
    slot short of the duration, [duration - duration / N], hence strictly
    smaller than the duration. *)
Theorem bare_list_delays_are_spaced_by_duration_over_n :
  forall (sampled : Q) (events : list Event),
    (20 <= sampled)%Q -> (sampled <= 40)%Q -> (2 <= length events)%nat ->
    let p := _normalize_attack_plan sampled (RawList events) in
    let n := inject_Z (Z.of_nat (length events)) in
    np_duration p = sampled
    /\ (20 <= np_duration p)%Q /\ (np_duration p <= 40)%Q
    /\ length (np_plan p) = length events
    /\ (forall i en, np_plan p !! i = Some en ->
          delay en = (inject_Z (Z.of_nat i) * (sampled / n))%Q
          /\ event en = events !! i
          /\ (0 <= delay en)%Q)
    /\ (forall i j ei ej, (i <= j)%nat ->
          np_plan p !! i = Some ei -> np_plan p !! j = Some ej ->
          (delay ei <= delay ej)%Q)
    /\ (forall en, last (np_plan p) = Some en ->
          (delay en == np_duration p - np_duration p / n)%Q
          /\ (delay en < np_duration p)%Q).
Proof.
  intros sampled events Hlo Hhi Hlen p n.
  assert (Hp : exists cid, p = mkNormalized cid sampled
                 (imap (fun idx ev =>
                          mkEntry (inject_Z (Z.of_nat idx) * (sampled / n))%Q
                                  (Some ev)) events)).
  { subst p n. unfold _normalize_attack_plan.
    replace (Nat.max (length events) 1) with (length events) by lia.
    destruct events as [|first rest]; [simpl in Hlen; lia|].
    exists (e_chain_id first). reflexivity. }
  destruct Hp as [cid Hp].
  assert (Hslot : (0 < sampled / n)%Q).
  { subst n. apply slot_pos; [lra | lia]. }
  assert (Hlook : forall i en, np_plan p !! i = Some en ->
            delay en = (inject_Z (Z.of_nat i) * (sampled / n))%Q
            /\ event en = events !! i).
  { intros i en Hi. rewrite Hp in Hi. cbn [np_plan] in Hi.
    rewrite list_lookup_imap in Hi.
    destruct (events !! i) as [ev|]; [|discriminate].
    inversion Hi; subst en. split; reflexivity. }
  assert (Hdur : np_duration p = sampled) by (rewrite Hp; reflexivity).
  rewrite !Hdur.
  split; [reflexivity|]. split; [exact Hlo|]. split; [exact Hhi|].
  split; [rewrite Hp; apply length_imap|]. split; [|split].
  - intros i en Hi. destruct (Hlook i en Hi) as [Hd He].
    split; [exact Hd|]. split; [exact He|].
    rewrite Hd. apply Qmult_le_0_compat; [|lra].
    change 0%Q with (inject_Z 0). rewrite <- Zle_Qle. lia.
  - intros i j ei ej Hij Hi Hj.
    destruct (Hlook i ei Hi) as [-> _]. destruct (Hlook j ej Hj) as [-> _].
    apply Qmult_le_compat_r; [|lra]. rewrite <- Zle_Qle. lia.
  - intros en Hlast. rewrite last_lookup in Hlast.
    assert (Hl : length (np_plan p) = length events)
      by (rewrite Hp; apply length_imap).
    rewrite Hl in Hlast. destruct (Hlook _ en Hlast) as [Hd _].
    assert (Hn1 : (inject_Z (Z.of_nat (pred (length events))) == n - 1)%Q).
    { subst n. replace (Z.of_nat (pred (length events)))
        with (Z.of_nat (length events) + - 1)%Z by lia.
      rewrite inject_Z_plus. reflexivity. }
    assert (Hn0 : ~ (n == 0)%Q).
    { subst n. pose proof (inject_nat_pos (length events) ltac:(lia)). lra. }
    assert (Heq : (delay en == sampled - sampled / n)%Q).
    { rewrite Hd, Hn1. field. exact Hn0. }
    split; [exact Heq | rewrite Heq; lra].
Qed.

Lemma bare_list_delays_witness :
  let p := _normalize_attack_plan 20
             (RawList [sample_intrusion; sample_intrusion]) in
  np_duration p = 20%Q /\ (20 <= np_duration p)%Q /\ (np_duration p <= 40)%Q
  /\ length (np_plan p) = 2%nat.
Proof.
  intros p.
  destruct (bare_list_delays_are_spaced_by_duration_over_n 20
              [sample_intrusion; sample_intrusion]
              ltac:(lra) ltac:(lra) ltac:(simpl; lia))
    as (Hd & Hlo & Hhi & Hlen & _).
  repeat split; assumption.
Defined.

(** C1, as stated, fails: two events and a sampled duration of 20 give the
    delays 0 and 10; the last delay is 10, whereas the formula of section
    4.1, [i * duration / (N - 1)], gives 20 = duration. *)
Lemma bare_list_last_delay_falls_short_of_duration :
  let p := _normalize_attack_plan 20
             (RawList [sample_intrusion; sample_intrusion]) in
  np_duration p = 20%Q
  /\ exists e0 e1,
       np_plan p = [e0; e1]
       /\ (delay e0 == 0)%Q /\ (delay e1 == 10)%Q
       /\ ~ (delay e1 == np_duration p)%Q
       /\ ~ (delay e1 == 1 * (np_duration p / (2 - 1)))%Q.
Proof.
  intros p. split; [reflexivity|].
  eexists _, _. split; [reflexivity|].
  repeat split; try (vm_compute; reflexivity);
    intros E; vm_compute in E; discriminate E.
Qed.

End NormalizerProps.

(* ---------------------------------------------------------------------- *)
(** ** The generated plans *)
(* ---------------------------------------------------------------------- *)

Module GeneratorProps.
Import State Main Vocabulary AttackEngine.

Ltac qcompare_in H :=
  match type of H with
  | (_ ?= _)%Q = Eq => apply Qeq_alt in H
  | (_ ?= _)%Q = Lt => apply Qlt_alt in H
  | (_ ?= _)%Q = Gt => apply Qgt_alt in H
  end.

Lemma Qmake_le (a b : Z) (c : positive) : (a <= b)%Z -> (a # c <= b # c)%Q.
Proof. intros H. unfold Qle. cbn. nia. Qed.

Lemma nearest_even_bounds y :
  (Qfloor y <= nearest_even y <= Qfloor y + 1)%Z.
Proof.
  unfold nearest_even. destruct (_ ?= _)%Q; [destruct (Z.even _)| |]; lia.
Qed.

Lemma nearest_even_upper y : (inject_Z (nearest_even y) <= y + (1 # 2))%Q.
Proof.
  unfold nearest_even. pose proof (Qfloor_le y) as Hf.
  destruct (y - inject_Z (Qfloor y) ?= 1 # 2)%Q eqn:E; qcompare_in E.
  - destruct (Z.even _); [lra|].
    rewrite inject_Z_plus. change (inject_Z 1) with 1%Q. lra.
  - lra.
  - rewrite inject_Z_plus. change (inject_Z 1) with 1%Q. lra.
Qed.

Lemma nearest_even_mono x y :
  (x <= y)%Q -> (nearest_even x <= nearest_even y)%Z.
Proof.
  intros Hxy. pose proof (Qfloor_resp_le _ _ Hxy) as Hn.
  pose proof (nearest_even_bounds x). pose proof (nearest_even_bounds y).
  destruct (Z.eq_dec (Qfloor x) (Qfloor y)) as [Heq|Hne]; [|lia].
  unfold nearest_even in *. rewrite <- Heq in *.
  destruct (x - inject_Z (Qfloor x) ?= 1 # 2)%Q eqn:Ex;
    destruct (y - inject_Z (Qfloor x) ?= 1 # 2)%Q eqn:Ey;
    try (destruct (Z.even (Qfloor x))); try lia; exfalso;
    qcompare_in Ex; qcompare_in Ey; lra.
Qed.

(** Decimal rounding is monotone and rounds up by at most half a unit of
    the last place. *)
Lemma round_half_even_mono scale x y :
  (x <= y)%Q -> (round_half_even scale x <= round_half_even scale y)%Q.
Proof.
  intros H. unfold round_half_even. apply Qmake_le, nearest_even_mono.
  apply Qmult_le_compat_r; [exact H|]. unfold Qle; cbn; lia.
Qed.

Lemma round_half_even_upper scale x :
  (round_half_even scale x <= x + (1 # (2 * scale)))%Q.
Proof.
  unfold round_half_even.
  pose proof (nearest_even_upper (x * inject_Z (Z.pos scale))) as Hu.
  set (m := nearest_even _) in *.
  rewrite (Qmake_Qdiv m scale).
  apply Qle_shift_div_r; [unfold Qlt; cbn; lia|].
  eapply Qle_trans; [exact Hu|].
  rewrite Qmult_plus_distr_l.
  apply Qplus_le_r. unfold Qle, Qmult, inject_Z. cbn. lia.
Qed.

Lemma ideal_delay_mono duration count i j :
  (0 <= duration)%Q -> (2 <= count)%nat -> (i <= j)%nat ->
  (ideal_delay duration count i <= ideal_delay duration count j)%Q.
Proof.
  intros Hd Hc Hij. unfold ideal_delay.
  destruct (count =? 1)%nat; [lra|].
  apply Qmult_le_compat_r; [rewrite <- Zle_Qle; lia|].
  apply Qle_shift_div_l; [|now rewrite Qmult_0_l].
  change 0%Q with (inject_Z 0). rewrite <- Zlt_Qlt. lia.
Qed.

Lemma ideal_delay_le_duration duration count i :
  (0 <= duration)%Q -> (i < count)%nat ->
  (ideal_delay duration count i <= duration)%Q.
Proof.
  intros Hd Hi. unfold ideal_delay.
  destruct (Nat.eqb_spec count 1) as [|Hne]; [exact Hd|].
  set (k := inject_Z (Z.of_nat count - 1)).
  assert (Hk : (0 < k)%Q).
  { subst k. change 0%Q with (inject_Z 0). rewrite <- Zlt_Qlt. lia. }
  assert (Hs : (0 <= duration / k)%Q)
    by (apply Qle_shift_div_l; [exact Hk | now rewrite Qmult_0_l]).
  assert (Hik : (inject_Z (Z.of_nat i) <= k)%Q)
    by (subst k; rewrite <- Zle_Qle; lia).
  eapply Qle_trans; [apply Qmult_le_compat_r; [exact Hik | exact Hs]|].
  rewrite Qmult_div_r; [apply Qle_refl | lra].
Qed.

Lemma lookup_map {A B} (f : A -> B) (l : list A) (i : nat) :
  map f l !! i = f <$> (l !! i).
Proof.
  revert i. induction l as [|x l IH]; intros [|i]; cbn; auto.
Qed.

(** Entry [i] of a built plan: the rounded ideal delay, with event [i]. *)
Lemma build_plan_lookup duration cid ip port surf events i d ev :
  ap_plan (_build_attack_plan duration cid ip port surf events) !! i
    = Some (d, ev) ->
  d = round_half_even 1000 (ideal_delay duration (length events) i)
  /\ events !! i = Some ev
  /\ ap_duration (_build_attack_plan duration cid ip port surf events)
     = duration.
Proof.
  unfold _build_attack_plan.
  destruct events as [|e0 es] eqn:Hev; [discriminate|]. rewrite <- Hev.
  cbn [ap_plan ap_duration]. rewrite lookup_map.
  destruct (zip _ events !! i) as [[dl ev']|] eqn:Hz; [|discriminate].
  cbn. intros Hi. inversion Hi; subst d ev'. clear Hi.
  apply lookup_zip_Some in Hz as [Hd He].
  split; [|split; [exact He | reflexivity]]. f_equal. unfold ideal_delay.
  destruct (length events =? 1)%nat.
  - destruct i as [|i]; cbn in Hd; [now inversion Hd | discriminate].
  - rewrite lookup_map in Hd.
    destruct (seq 0 (length events) !! i) as [k|] eqn:Hk; [|discriminate].
    apply lookup_seq in Hk as [-> _]. cbn in Hd. now inversion Hd.
Qed.

Lemma normalized_generated_entry sampled ap i en :
  np_plan (_normalize_attack_plan sampled (raw_of_plan ap)) !! i = Some en ->
  exists dl ev, ap_plan ap !! i = Some (dl, ev) /\ en = mkEntry dl (Some ev).
Proof.
  unfold raw_of_plan. cbn [_normalize_attack_plan np_plan].
  rewrite list_lookup_imap, lookup_map.
  destruct (ap_plan ap !! i) as [[dl ev]|]; [|discriminate].
  cbn. intros Hi. inversion Hi. now exists dl, ev.
Qed.

(** Every chain the generator produces, once accepted, is a runtime plan
    whose delays are non-decreasing and exceed the sampled duration by at
    most half a thousandth, and whose entries all carry an event. *)
Lemma generated_runtime_plan (d : Draws) now sampled p :
  (0 <= dr_duration d)%Q ->
  _create_runtime_plan now sampled (raw_of_plan (generate_attack_scenario d))
    = Some p ->
  start_time p = now /\ index p = 0%nat /\ duration p = dr_duration d
  /\ delays_sorted (plan p)
  /\ (forall en, en ∈ plan p ->
        (delay en <= duration p + (1 # 2000))%Q /\ is_Some (event en)).
Proof.
  intros Hd. unfold _create_runtime_plan, generate_attack_scenario.
  set (events := map _ (zip _ (dr_templates d))).
  set (ap := _build_attack_plan _ _ _ _ _ events).
  destruct (np_plan (_normalize_attack_plan sampled (raw_of_plan ap)))
    as [|en0 ens] eqn:Hplan; [discriminate|].
  rewrite <- Hplan. intros Hp. inversion Hp; subst p. clear Hp.
  cbn [start_time index duration plan].
  assert (Hentry : forall i en,
            np_plan (_normalize_attack_plan sampled (raw_of_plan ap)) !! i
              = Some en ->
            delay en = round_half_even 1000
                         (ideal_delay (dr_duration d) (length events) i)
            /\ (i < length events)%nat /\ is_Some (event en)
            /\ ap_duration ap = dr_duration d).
  { intros i en Hi.
    apply normalized_generated_entry in Hi as (dl & ev & Hi & ->).
    apply build_plan_lookup in Hi as (-> & Hev & Hdur).
    cbn [delay event]. repeat split; [|eauto|exact Hdur].
    now apply lookup_lt_Some in Hev. }
  assert (Hdur : ap_duration ap = dr_duration d).
  { destruct (Hentry 0%nat en0) as (_ & _ & _ & Hdur);
      [now rewrite Hplan | exact Hdur]. }
  split; [reflexivity|]. split; [reflexivity|]. split; [exact Hdur|].
  rewrite Hdur. split.
  - intros i j ei ej Hij Hi Hj.
    destruct (Hentry i ei Hi) as (-> & Hil & _).
    destruct (Hentry j ej Hj) as (-> & Hjl & _).
    apply round_half_even_mono.
    destruct (Nat.le_gt_cases 2 (length events)) as [Hc|Hc].
    + now apply ideal_delay_mono.
    + replace j with i by lia. apply Qle_refl.
  - intros en Hen. apply list_elem_of_lookup in Hen as [i Hi].
    destruct (Hentry i en Hi) as (-> & Hil & Hev & _).
    split; [|exact Hev].
    eapply Qle_trans; [apply round_half_even_upper|].
    apply Qplus_le_l. now apply ideal_delay_le_duration.
Qed.

End GeneratorProps.

(* ---------------------------------------------------------------------- *)
(** ** The scheduler *)
(* ---------------------------------------------------------------------- *)

Module SchedulerProps.
Import State Main Vocabulary.

(** *** Removing the completed plans *)

Lemma entries_eqb_refl l : entries_eqb l l = true.
Proof.
  induction l as [|a l IH]; [reflexivity|]. simpl. rewrite IH.
  unfold entry_eqb. rewrite (proj2 (Qeq_bool_iff _ _) (Qeq_refl _)).
  now rewrite bool_decide_eq_true_2.
Qed.

Lemma entries_eqb_length l1 : forall l2,
  entries_eqb l1 l2 = true -> length l1 = length l2.
Proof.
  induction l1 as [|a l1 IH]; intros [|b l2] E; simpl in *;
    try discriminate; [reflexivity|].
  apply andb_true_iff in E as [_ E]. now rewrite (IH _ E).
Qed.

Lemma plan_eqb_refl p : plan_eqb p p = true.
Proof.
  unfold plan_eqb.
  rewrite bool_decide_eq_true_2, entries_eqb_refl, Nat.eqb_refl by reflexivity.
  now rewrite !(proj2 (Qeq_bool_iff _ _) (Qeq_refl _)).
Qed.

Lemma plan_eqb_is_done p q : plan_eqb p q = true -> is_done p = is_done q.
Proof.
  unfold plan_eqb, is_done. rewrite !andb_true_iff.
  intros [[[[_ _] He] _] Hi].
  apply Nat.eqb_eq in Hi. apply entries_eqb_length in He. now rewrite He, Hi.
Qed.

Lemma remove_step_cons_ne x d plans :
  plan_eqb x d = false ->
  remove_step (x :: plans) d = x :: remove_step plans d.
Proof.
  intros Hx. unfold remove_step. cbn [existsb list_remove_first].
  rewrite Hx. cbn [orb]. destruct (existsb _ plans); reflexivity.
Qed.

Lemma remove_all_cons_ne x done : forall plans,
  Forall (fun d => plan_eqb x d = false) done ->
  foldl remove_step (x :: plans) done = x :: foldl remove_step plans done.
Proof.
  induction done as [|d done IH]; intros plans Hd; [reflexivity|].
  apply Forall_cons in Hd as [Hx Hd]. cbn [foldl].
  rewrite remove_step_cons_ne by exact Hx. now apply IH.
Qed.

(** Collect-then-remove drops exactly the completed plans and keeps the
    others in order. *)
Lemma remove_done_spec plans :
  remove_done (List.filter is_done plans) plans
  = List.filter (fun p => negb (is_done p)) plans.
Proof.
  unfold remove_done.
  induction plans as [|x plans IH]; [reflexivity|].
  cbn [List.filter]. destruct (is_done x) eqn:Hx; cbn [negb].
  - cbn [foldl]. unfold remove_step at 2. cbn [existsb list_remove_first].
    rewrite plan_eqb_refl. cbn [orb]. exact IH.
  - rewrite remove_all_cons_ne; [now rewrite IH|].
    apply Forall_forall. intros d Hd.
    apply list_elem_of_In, List.filter_In in Hd as [_ Hd].
    destruct (plan_eqb x d) eqn:E; [|reflexivity].
    apply plan_eqb_is_done in E. congruence.
Qed.

Section Tick.
Context {St : Type} (store_add : Event -> St -> Outcome St).

Lemma emit_due_spec now start stamp pending : forall idx s,
  emit_due store_add now start stamp pending idx s
  = ((idx + length (take_while (due now start) pending))%nat,
     store_all store_add (stamped stamp (take_while (due now start) pending)) s).
Proof.
  induction pending as [|en rest IH]; intros idx s;
    cbn [emit_due take_while].
  - cbn [length]. f_equal. lia.
  - change (Qle_bool (start + delay en) now) with (due now start en).
    destruct (due now start en).
    + rewrite IH. cbn [length]. f_equal; [lia|].
      unfold stamped. cbn [omap list_omap].
      destruct (event en); reflexivity.
    + cbn [length]. f_equal. lia.
Qed.

Lemma scan_plan_spec now stamp p s :
  scan_plan store_add now stamp p s
  = (advance now p, store_all store_add (emitted now stamp p) s).
Proof. unfold scan_plan. rewrite emit_due_spec. reflexivity. Qed.

Lemma store_all_app evs1 evs2 (s : St) :
  store_all store_add (evs1 ++ evs2) s
  = store_all store_add evs2 (store_all store_add evs1 s).
Proof. unfold store_all. apply foldl_app. Qed.

Lemma scan_plans_spec now stamp plans : forall s,
  scan_plans store_add now stamp plans s
  = (map (advance now) plans,
     store_all store_add (flat_map (emitted now stamp) plans) s).
Proof.
  induction plans as [|p rest IH]; intros s; [reflexivity|].
  cbn [scan_plans]. rewrite scan_plan_spec, IH. cbn [map flat_map].
  now rewrite store_all_app.
Qed.

Lemma tick_spec now stamp plans s :
  tick store_add now stamp plans s
  = (List.filter (fun p => negb (is_done p)) (map (advance now) plans),
     store_all store_add (flat_map (emitted now stamp) plans) s).
Proof.
  unfold tick. rewrite scan_plans_spec, remove_done_spec. reflexivity.
Qed.

Lemma tick_never_adds_plans now stamp plans s :
  (length (tick store_add now stamp plans s).1 <= length plans)%nat.
Proof.
  rewrite tick_spec. cbn [fst].
  etransitivity; [apply List.filter_length_le|]. now rewrite length_map.
Qed.

End Tick.

(** *** The ceiling on active plans *)

Lemma request_at_ceiling now sampled raw st :
  (MAX_ACTIVE_PLANS <= length (_attack_plans st))%nat ->
  request now sampled raw st
  = (Busy (length (_attack_plans st)) MAX_ACTIVE_PLANS, st).
Proof.
  intros H. unfold request.
  now rewrite (proj2 (Nat.leb_le _ _) H).
Qed.

Lemma request_keeps_ceiling now sampled raw st :
  (length (_attack_plans st) <= MAX_ACTIVE_PLANS)%nat ->
  (length (_attack_plans (request now sampled raw st).2)
   <= MAX_ACTIVE_PLANS)%nat.
Proof.
  intros H. unfold request.
  destruct (Nat.leb_spec MAX_ACTIVE_PLANS (length (_attack_plans st)));
    [exact H|].
  destruct (_create_runtime_plan now sampled raw); [|exact H].
  cbn [snd _attack_plans]. rewrite length_app. cbn [length]. lia.
Qed.

Lemma trigger_attack_cases client_ip now sampled raw st :
  (status (trigger_attack client_ip now sampled raw st).1 = "throttled"%string
   /\ _attack_plans (trigger_attack client_ip now sampled raw st).2
      = _attack_plans st)
  \/ exists st',
       _attack_plans st' = _attack_plans st
       /\ trigger_attack client_ip now sampled raw st
          = request now sampled raw st'.
Proof.
  unfold trigger_attack.
  destruct (Qlt_le_dec _ _); [left; split; reflexivity|].
  cbn [_attack_plans _LAST_TRIGGER _TRIGGER_HISTORY].
  destruct (_MAX_TRIGGERS_PER_MIN <=? _)%nat; [left; split; reflexivity|].
  right. eexists. split; [|reflexivity]. reflexivity.
Qed.

Lemma trigger_attack_keeps_ceiling client_ip now sampled raw st :
  (length (_attack_plans st) <= MAX_ACTIVE_PLANS)%nat ->
  (length (_attack_plans (trigger_attack client_ip now sampled raw st).2)
   <= MAX_ACTIVE_PLANS)%nat.
Proof.
  intros H.
  destruct (trigger_attack_cases client_ip now sampled raw st)
    as [[_ ->]|(st' & Hst' & ->)]; [exact H|].
  apply request_keeps_ceiling. now rewrite Hst'.
Qed.

Lemma step_keeps_ceiling x w :
  (length (_attack_plans w.1) <= MAX_ACTIVE_PLANS)%nat ->
  (length (_attack_plans (step x w).1) <= MAX_ACTIVE_PLANS)%nat.
Proof.
  intros H. destruct x as [client_ip now sampled raw|now stamp|now_iso ev];
    cbn [step].
  - cbn [fst]. now apply trigger_attack_keeps_ceiling.
  - pose proof (tick_never_adds_plans (real_add stamp) now stamp
                  (_attack_plans w.1) w.2) as Ht.
    destruct (tick (real_add stamp) now stamp (_attack_plans w.1) w.2)
      as [plans s]. cbn [fst _attack_plans] in *. lia.
  - exact H.
Qed.

Lemma run_keeps_ceiling steps : forall w,
  (length (_attack_plans w.1) <= MAX_ACTIVE_PLANS)%nat ->
  (length (_attack_plans (run steps w).1) <= MAX_ACTIVE_PLANS)%nat.
Proof.
  unfold run. induction steps as [|x steps IH]; intros w H; [exact H|].
  cbn [foldl]. apply IH. now apply step_keeps_ceiling.
Qed.

(** C5 (the ceiling on active plans).  A request that reaches the
    scheduler while [MAX_ACTIVE_PLANS] = 15 or more plans are active is
    answered busy and leaves the server untouched; through the whole
    route, a request arriving at the ceiling is refused (busy, or throttled
    when a per-client throttle answers first) and adds no plan; every
    request leaves at most 15 active plans when at most 15 were active
    before; hence no sequence of requests, interleaved in any way with
    scheduler ticks and noise events, leaves more than 15 active plans. *)
Theorem active_plans_never_exceed_ceiling :
  MAX_ACTIVE_PLANS = 15%nat
  /\ (forall now sampled raw st,
        (MAX_ACTIVE_PLANS <= length (_attack_plans st))%nat ->
        request now sampled raw st
          = (Busy (length (_attack_plans st)) MAX_ACTIVE_PLANS, st)
        /\ status (request now sampled raw st).1 = "busy"%string)
  /\ (forall client_ip now sampled raw st,
        (MAX_ACTIVE_PLANS <= length (_attack_plans st))%nat ->
        (status (trigger_attack client_ip now sampled raw st).1
           = "busy"%string
         \/ status (trigger_attack client_ip now sampled raw st).1
           = "throttled"%string)
        /\ _attack_plans (trigger_attack client_ip now sampled raw st).2
           = _attack_plans st)
  /\ (forall client_ip now sampled raw st,
        (length (_attack_plans st) <= MAX_ACTIVE_PLANS)%nat ->
        (length (_attack_plans
                   (trigger_attack client_ip now sampled raw st).2)
         <= MAX_ACTIVE_PLANS)%nat)
  /\ (forall steps,
        (length (_attack_plans (run steps (server_initial, initial)).1)
         <= MAX_ACTIVE_PLANS)%nat).
Proof.
  split; [reflexivity|]. split; [|split; [|split]].
  - intros now sampled raw st H.
    rewrite (request_at_ceiling _ _ _ _ H). split; reflexivity.
  - intros client_ip now sampled raw st H.
    destruct (trigger_attack_cases client_ip now sampled raw st)
      as [[Hs Hp]|(st' & Hst' & ->)].
    + split; [right; exact Hs | exact Hp].
    + rewrite request_at_ceiling by (now rewrite Hst').
      split; [left; reflexivity | exact Hst'].
  - intros client_ip now sampled raw st H.
    now apply trigger_attack_keeps_ceiling.
  - intros steps. apply run_keeps_ceiling. cbn. lia.
Qed.

(** *** Storage failures *)

Lemma failing_store_skips_bad_events bad now_iso evs : forall s,
  store_all (failing_add bad now_iso) evs s
  = store_all (real_add now_iso) (List.filter (fun ev => negb (bad ev)) evs) s.
Proof.
  unfold store_all.
  induction evs as [|ev evs IH]; intros s; [reflexivity|].
  cbn [foldl List.filter]. rewrite IH. unfold failing_add.
  destruct (bad ev); reflexivity.
Qed.

(** *** What a tick emits, and when a plan is retired *)

Lemma take_while_split {A} (f : A -> bool) (l : list A) :
  exists rest,
    l = take_while f l ++ rest
    /\ Forall (fun x => f x = true) (take_while f l)
    /\ (forall x, head rest = Some x -> f x = false).
Proof.
  induction l as [|x l (rest & Hl & Hall & Hhd)]; cbn [take_while].
  - exists []. repeat split; [constructor | discriminate].
  - destruct (f x) eqn:Hx.
    + exists rest. split; [cbn; now f_equal|]. split; [|exact Hhd].
      constructor; assumption.
    + exists (x :: l). split; [reflexivity|]. split; [constructor|].
      intros y Hy. cbn in Hy. now inversion Hy; subst.
Qed.

Lemma take_while_all {A} (f : A -> bool) (l : list A) :
  Forall (fun x => f x = true) l -> take_while f l = l.
Proof.
  induction 1 as [|x l Hx _ IH]; cbn [take_while]; [reflexivity|].
  now rewrite Hx, IH.
Qed.

Lemma filter_none {A} (f : A -> bool) (l : list A) :
  (forall y, y ∈ l -> f y = false) -> List.filter f l = [].
Proof.
  induction l as [|x l IH]; intros Hl; [reflexivity|].
  cbn [List.filter]. rewrite (Hl x) by left. apply IH.
  intros y Hy. apply Hl. now right.
Qed.

Lemma elem_of_drop_elem {A} (n : nat) (l : list A) (x : A) :
  x ∈ drop n l -> x ∈ l.
Proof.
  intros Hx. apply list_elem_of_lookup in Hx as [i Hi].
  rewrite lookup_drop in Hi. eapply list_elem_of_lookup_2, Hi.
Qed.

(** When being due is inherited by earlier entries, stopping at the first
    entry that is not due loses nothing. *)
Lemma take_while_filter {A} (f : A -> bool) (l : list A) :
  (forall i j xi xj, (i <= j)%nat -> l !! i = Some xi -> l !! j = Some xj ->
     f xj = true -> f xi = true) ->
  take_while f l = List.filter f l.
Proof.
  induction l as [|x l IH]; intros Hclosed; [reflexivity|].
  cbn [take_while List.filter]. destruct (f x) eqn:Hx.
  - f_equal. apply IH. intros i j xi xj Hij Hi Hj.
    apply (Hclosed (S i) (S j)); [lia | exact Hi | exact Hj].
  - symmetry. apply filter_none. intros y Hy.
    apply not_true_iff_false. intros Hfy.
    apply list_elem_of_lookup in Hy as [j Hj].
    rewrite (Hclosed 0%nat (S j) x y ltac:(lia) eq_refl Hj Hfy) in Hx.
    discriminate.
Qed.

Lemma due_iff now start en :
  due now start en = true <-> (start + delay en <= now)%Q.
Proof. apply Qle_bool_iff. Qed.

Lemma due_false_iff now start en :
  due now start en = false <-> (now < start + delay en)%Q.
Proof.
  rewrite <- not_true_iff_false, due_iff. split.
  - apply Qnot_le_lt.
  - intros Hlt Hle. exact (Qlt_not_le _ _ Hlt Hle).
Qed.

Lemma due_prefix_sorted now p :
  delays_sorted (plan p) ->
  due_prefix now p
  = List.filter (due now (start_time p)) (drop (index p) (plan p)).
Proof.
  intros Hs. apply take_while_filter.
  intros i j xi xj Hij Hi Hj Hd.
  rewrite lookup_drop in Hi, Hj.
  apply due_iff. apply due_iff in Hd.
  pose proof (Hs (index p + i)%nat (index p + j)%nat xi xj ltac:(lia) Hi Hj). lra.
Qed.

Lemma due_prefix_all now p D :
  (forall en, en ∈ plan p -> (delay en <= D)%Q) ->
  (start_time p + D <= now)%Q ->
  due_prefix now p = drop (index p) (plan p).
Proof.
  intros HD Hnow. apply take_while_all, Forall_forall. intros en Hen.
  apply due_iff. pose proof (HD en (elem_of_drop_elem _ _ _ Hen)). lra.
Qed.

Lemma advance_index now p : index (advance now p)
  = (index p + length (due_prefix now p))%nat.
Proof. reflexivity. Qed.

Lemma advance_plan now p : plan (advance now p) = plan p.
Proof. reflexivity. Qed.

(** C6, as the code has it.  A tick at time [now] walks each active plan
    from its cursor and hands to the store the entries of the due prefix:
    the entries met before the first one whose due time
    [start_time + delay] is after [now]; every entry of the prefix is due
    and the entry that stops the walk is not.  When the delays of the plan
    are non-decreasing the prefix consists of exactly the entries, from
    the cursor on, whose due time is at most [now].  A tick at or after
    [start_time + D], where [D] bounds every delay of the plan (the largest
    delay, not the duration), moves the cursor to [len(plan)] and the plan
    is absent from the active set the tick leaves.  The tick leaves only
    plans that are not complete, each one an input plan with its cursor
    advanced, so a retired plan is never met by a later tick.  Every plan
    accepted from the generator has non-decreasing delays, none above
    [duration + 0.0005] (they are rounded to three decimals), so a tick at
    or after [start_time + duration + 0.0005] completes it. *)
Theorem tick_emits_due_prefix_and_retires_completed_plans :
  forall (now : Q) (stamp : string) (plans : list RuntimePlan) (s : Store),
    tick (real_add stamp) now stamp plans s
      = (List.filter (fun p => negb (is_done p)) (map (advance now) plans),
         store_all (real_add stamp) (flat_map (emitted now stamp) plans) s)
    /\ (forall p, exists rest,
          drop (index p) (plan p) = due_prefix now p ++ rest
          /\ Forall (fun en => (start_time p + delay en <= now)%Q)
                    (due_prefix now p)
          /\ (forall en, head rest = Some en ->
                 (now < start_time p + delay en)%Q))
    /\ (forall p, delays_sorted (plan p) ->
          due_prefix now p
          = List.filter (due now (start_time p)) (drop (index p) (plan p)))
    /\ (forall p D,
          p ∈ plans ->
          (index p <= length (plan p))%nat ->
          (forall en, en ∈ plan p -> (delay en <= D)%Q) ->
          (start_time p + D <= now)%Q ->
          emitted now stamp p = stamped stamp (drop (index p) (plan p))
          /\ index (advance now p) = length (plan p)
          /\ advance now p ∉ (tick (real_add stamp) now stamp plans s).1)
    /\ (forall q, q ∈ (tick (real_add stamp) now stamp plans s).1 ->
          (index q < length (plan q))%nat
          /\ exists p, p ∈ plans /\ q = advance now p)
    /\ (forall (d : AttackEngine.Draws) (start sampled : Q) p,
          (0 <= AttackEngine.dr_duration d)%Q ->
          _create_runtime_plan start sampled
            (raw_of_plan (AttackEngine.generate_attack_scenario d)) = Some p ->
          delays_sorted (plan p)
          /\ (forall en, en ∈ plan p ->
                (delay en <= duration p + (1 # 2000))%Q)
          /\ (forall k, (k <= length (plan p))%nat ->
                (start_time p + (duration p + (1 # 2000)) <= now)%Q ->
                index (advance now (set_index k p)) = length (plan p))).
Proof.
  intros now stamp plans s. rewrite tick_spec. cbn [fst].
  split; [reflexivity|]. split; [|split; [|split; [|split]]].
  - intros p. unfold due_prefix.
    destruct (take_while_split (due now (start_time p))
                (drop (index p) (plan p))) as (rest & Hsplit & Hall & Hhd).
    exists rest. split; [exact Hsplit|]. split.
    + eapply Forall_impl; [exact Hall|]. intros en Hen. now apply due_iff.
    + intros en Hen. now apply due_false_iff, Hhd.
  - intros p Hs. now apply due_prefix_sorted.
  - intros p D Hp Hidx HD Hnow.
    pose proof (due_prefix_all now p D HD Hnow) as Hall.
    assert (Hi : index (advance now p) = length (plan p)).
    { rewrite advance_index, Hall, length_drop. lia. }
    split; [unfold emitted; now rewrite Hall|]. split; [exact Hi|].
    intros Hin. apply list_elem_of_In, List.filter_In in Hin as [_ Hnd].
    unfold is_done in Hnd. rewrite Hi, advance_plan, Nat.leb_refl in Hnd.
    discriminate.
  - intros q Hq. apply list_elem_of_In, List.filter_In in Hq as [Hq Hnd].
    split.
    + unfold is_done in Hnd. apply negb_true_iff, Nat.leb_gt in Hnd. exact Hnd.
    + apply List.in_map_iff in Hq as (p & <- & Hp).
      exists p. split; [now apply list_elem_of_In | reflexivity].
  - intros d start sampled p Hd Hp.
    destruct (GeneratorProps.generated_runtime_plan d start sampled p Hd Hp)
      as (_ & _ & _ & Hsorted & Hbound).
    split; [exact Hsorted|]. split; [intros en Hen; now apply Hbound|].
    intros k Hk Hnow.
    rewrite advance_index,
      (due_prefix_all now (set_index k p) (duration p + (1 # 2000))).
    + cbn [set_index index plan]. rewrite length_drop. lia.
    + intros en Hen. now apply Hbound.
    + exact Hnow.
Qed.

Lemma tick_emits_due_prefix_witness :
  exists p,
    sample_runtime_plan = Some p
    /\ due_prefix 1010.5 p
       = List.filter (due 1010.5 (start_time p)) (drop (index p) (plan p))
    /\ index (advance 1020.5 p) = length (plan p)
    /\ (advance 1020.5 p
        ∉ (tick (real_add "2024-05-01T12:00:20") 1020.5
                "2024-05-01T12:00:20" [p] initial).1)
    /\ index (advance 1020.5 (set_index 2 p)) = length (plan p).
Proof.
  eexists. split; [vm_compute; reflexivity|].
  match goal with |- context [advance _ ?q] => set (p := q) end.
  assert (Hgen : index (advance 1020.5 (set_index 2 p)) = length (plan p)).
  { destruct (tick_emits_due_prefix_and_retires_completed_plans
                1020.5 "2024-05-01T12:00:20" [p] initial)
      as (_ & _ & _ & _ & _ & Hg).
    destruct (Hg (sample_draws 20.0006) 1000%Q 0%Q p) as (_ & _ & Hk).
    - unfold Qle. cbn. lia.
    - vm_compute. reflexivity.
    - apply Hk; [cbn; lia | unfold Qle; cbn; lia]. }
  cut ((due_prefix 1010.5 p
        = List.filter (due 1010.5 (start_time p)) (drop (index p) (plan p)))
       /\ (index (advance 1020.5 p) = length (plan p))
       /\ (advance 1020.5 p
           ∉ (tick (real_add "2024-05-01T12:00:20") 1020.5
                   "2024-05-01T12:00:20" [p] initial).1));
    [intros (H1 & H2 & H3); repeat split; assumption|].
  clear Hgen.
  destruct (tick_emits_due_prefix_and_retires_completed_plans
              1010.5 "2024-05-01T12:00:10" [p] initial)
    as (_ & _ & Hsorted & _).
  destruct (tick_emits_due_prefix_and_retires_completed_plans
              1020.5 "2024-05-01T12:00:20" [p] initial)
    as (_ & _ & _ & Hdone & _).
  split.
  - apply Hsorted. subst p. intros i j ei ej Hij Hi Hj.
    destruct i as [|[|[|i]]]; destruct j as [|[|[|j]]];
      cbn in Hi, Hj; try discriminate; try lia;
      inversion Hi; inversion Hj; subst; cbn [delay];
      unfold Qle; cbn; lia.
  - refine (proj2 (Hdone p 20.001%Q ltac:(left) _ _ _)).
    + subst p. cbn. lia.
    + subst p. intros en Hen.
      repeat (apply elem_of_cons in Hen as [->|Hen];
              [cbn [delay]; unfold Qle; cbn; lia|]).
      inversion Hen.
    + subst p. unfold Qle. cbn. lia.
Defined.

(** C6, as stated, fails on completion: the chain of sampled duration
    20.0006 accepted at time 1000 has its last entry due at 1020.001 (the
    generator rounds delays to three decimals); after ticks at 1000, 1010.5
    and 1020.0006 = start_time + duration the plan is still active with its
    cursor at 2 of 3. *)
Lemma rounded_last_delay_outlives_the_duration :
  status (trigger_attack "198.51.100.7" 1000 0 (sample_raw 20.0006)
            server_initial).1 = "scheduled"%string
  /\ exists p,
       _attack_plans (run ticks_covering_the_duration
                          (server_initial, initial)).1 = [p]
       /\ (start_time p == 1000)%Q /\ (duration p == 20.0006)%Q
       /\ (start_time p + duration p <= 1020.0006)%Q
       /\ map delay (plan p) = [0.000; 10.000; 20.001]%Q
       /\ index p = 2%nat /\ length (plan p) = 3%nat
       /\ is_done p = false.
Proof.
  split; [vm_compute; reflexivity|].
  eexists. split; [vm_compute; reflexivity|].
  cbn [start_time duration plan index].
  repeat split; try (vm_compute; reflexivity).
  vm_compute. discriminate.
Qed.

Lemma active_plans_never_exceed_ceiling_witness :
  let w := run fifteen_requests (server_initial, initial) in
  length (_attack_plans w.1) = 15%nat
  /\ status (request 1040 30 (sample_raw 30) w.1).1 = "busy"%string
  /\ _attack_plans (trigger_attack "198.51.100.7" 1040 30 (sample_raw 30) w.1).2
     = _attack_plans w.1
  /\ (length (_attack_plans
                (trigger_attack "198.51.100.7" 1040 30 (sample_raw 30) w.1).2)
      <= MAX_ACTIVE_PLANS)%nat.
Proof.
  intros w.
  assert (Hlen : length (_attack_plans w.1) = 15%nat)
    by (vm_compute; reflexivity).
  assert (Hceil : (MAX_ACTIVE_PLANS <= length (_attack_plans w.1))%nat)
    by (rewrite Hlen; unfold MAX_ACTIVE_PLANS; lia).
  assert (Hle : (length (_attack_plans w.1) <= MAX_ACTIVE_PLANS)%nat)
    by (rewrite Hlen; unfold MAX_ACTIVE_PLANS; lia).
  destruct active_plans_never_exceed_ceiling
    as (_ & Hreq & Htrig & Hkeep & _).
  split; [exact Hlen|]. split; [|split].
  - exact (proj2 (Hreq 1040%Q 30%Q (sample_raw 30) w.1 Hceil)).
  - exact (proj2 (Htrig "198.51.100.7"%string 1040%Q 30%Q (sample_raw 30) w.1
                    Hceil)).
  - exact (Hkeep "198.51.100.7"%string 1040%Q 30%Q (sample_raw 30) w.1 Hle).
Defined.

(** *** Storage failures, continued *)

Lemma logging_store_keeps_every_call bad evs : forall log,
  store_all (logging_add bad) evs log = log ++ evs.
Proof.
  unfold store_all.
  induction evs as [|ev evs IH]; intros log; cbn [foldl];
    [now rewrite app_nil_r|].
  rewrite IH. unfold logging_add.
  destruct (bad ev); cbn [swallow]; now rewrite <- app_assoc.
Qed.

(** The plans a tick leaves, field by field: the plans whose cursor, moved
    past the due prefix, has not reached the end, with that cursor. *)
Lemma tick_plans_fields {St} (store_add : Event -> St -> Outcome St)
    now stamp plans s :
  map plan_fields (tick store_add now stamp plans s).1
  = map (fun p => (chain_id p, duration p, plan p, start_time p,
                   (index p + length (due_prefix now p))%nat))
        (List.filter
           (fun p => (index p + length (due_prefix now p)
                      <? length (plan p))%nat)
           plans).
Proof.
  rewrite tick_spec. cbn [fst].
  induction plans as [|p plans IH]; [reflexivity|].
  cbn [map List.filter].
  assert (Hd : negb (is_done (advance now p))
               = (index p + length (due_prefix now p) <? length (plan p))%nat).
  { unfold is_done. rewrite advance_plan, advance_index.
    symmetry. apply Nat.ltb_antisym. }
  rewrite Hd.
  destruct (index p + length (due_prefix now p) <? length (plan p))%nat;
    [|exact IH].
  cbn [map]. rewrite IH. f_equal.
Qed.

(** C7 (a failing store does not stall the tick).  Whatever the store
    operation does on each call (return or raise, with any effect on the
    store), one tick walks, in every active plan, over the entries from
    the cursor up to the first one that is not yet due; it leaves, in
    order, exactly the plans in which that walk has not reached the end,
    each with its cursor increased by the number of entries walked over
    and every other field unchanged; and it hands to the store, in order,
    the stamped event of every entry walked over, in every plan, whether
    or not an earlier call raised: a store that logs each call and then
    raises on any chosen events ends with all of them in its log.  With
    a store that raises on some events and otherwise is [add_event], the
    tick stores exactly the other due events, and the plans it leaves are
    those it leaves with a store that never fails. *)
Theorem storage_failure_does_not_stall_the_tick :
  forall (St : Type) (store_add : Event -> St -> Outcome St)
         (now : Q) (stamp : string) (plans : list RuntimePlan) (s : St),
    (forall p, exists rest,
        drop (index p) (plan p) = due_prefix now p ++ rest
        /\ Forall (fun en => (start_time p + delay en <= now)%Q)
                  (due_prefix now p)
        /\ (forall en, head rest = Some en ->
               (now < start_time p + delay en)%Q))
    /\ map plan_fields (tick store_add now stamp plans s).1
       = map (fun p => (chain_id p, duration p, plan p, start_time p,
                        (index p + length (due_prefix now p))%nat))
             (List.filter
                (fun p => (index p + length (due_prefix now p)
                           <? length (plan p))%nat)
                plans)
    /\ (forall bad log,
          (tick (logging_add bad) now stamp plans log).2
          = log ++ flat_map (fun p => stamped stamp (due_prefix now p)) plans)
    /\ (tick store_add now stamp plans s).1
      = List.filter (fun p => negb (is_done p)) (map (advance now) plans)
    /\ (forall (St' : Type) (store_add' : Event -> St' -> Outcome St')
               (s' : St'),
          (tick store_add' now stamp plans s').1
          = (tick store_add now stamp plans s).1)
    /\ (tick store_add now stamp plans s).2
      = store_all store_add (flat_map (emitted now stamp) plans) s
    /\ (forall bad now_iso (s0 : Store),
          (tick (failing_add bad now_iso) now stamp plans s0).1
            = (tick (real_add now_iso) now stamp plans s0).1
          /\ (tick (failing_add bad now_iso) now stamp plans s0).2
            = store_all (real_add now_iso)
                (List.filter (fun ev => negb (bad ev))
                             (flat_map (emitted now stamp) plans)) s0).
Proof.
  intros St store_add now stamp plans s.
  split; [|split; [apply tick_plans_fields|split]].
  - intros p. unfold due_prefix.
    destruct (take_while_split (due now (start_time p))
                (drop (index p) (plan p))) as (rest & Hl & Hall & Hhd).
    exists rest. split; [exact Hl|]. split.
    + eapply Forall_impl; [exact Hall|]. intros en. apply due_iff.
    + intros en Hen. apply due_false_iff. now apply Hhd.
  - intros bad log. rewrite tick_spec. cbn [snd].
    apply logging_store_keeps_every_call.
  - rewrite tick_spec. cbn [fst snd].
    split; [reflexivity|]. split; [|split; [reflexivity|]].
    + intros St' store_add' s'. now rewrite tick_spec.
    + intros bad now_iso s0. rewrite !tick_spec. cbn [fst snd].
      split; [reflexivity|]. apply failing_store_skips_bad_events.
Qed.

Lemma storage_failure_does_not_stall_the_tick_witness :
  let stamp := "2024-05-01T12:00:10"%string in
  let always := fun _ : Event => true in
  exists p,
    sample_runtime_plan = Some p
    /\ index p = 0%nat
    /\ map index (tick (failing_add always stamp) 1010.5 stamp [p] initial).1
       = [2%nat]
    /\ (tick (failing_add always stamp) 1010.5 stamp [p] initial).2 = initial
    /\ map e_category (tick (logging_add always) 1010.5 stamp [p] []).2
       = ["recon"; "intrusion"]%string.
Proof.
  intros stamp always. eexists. split; [vm_compute; reflexivity|].
  match goal with |- index ?q = _ /\ _ => set (p := q) end.
  destruct (storage_failure_does_not_stall_the_tick Store
              (failing_add always stamp) 1010.5 stamp [p] initial)
    as (_ & Hfields & Hlog & _ & _ & _ & Hfail).
  split; [reflexivity|]. split; [|split].
  - assert (Hidx : forall l : list RuntimePlan,
              map index l = map snd (map plan_fields l)).
    { intros l. rewrite List.map_map. reflexivity. }
    rewrite Hidx, Hfields. vm_compute. reflexivity.
  - destruct (Hfail always stamp initial) as [_ Hs]. rewrite Hs.
    vm_compute. reflexivity.
  - rewrite (Hlog always []). vm_compute. reflexivity.
Defined.

End SchedulerProps.

(* ---------------------------------------------------------------------- *)
(** ** Classifier and recommender together *)
(* ---------------------------------------------------------------------- *)

Module AdviceProps.
Import Classifier Recommender State Tables Vocabulary.

Ltac q_le := unfold Qle; vm_compute; discriminate.

Section WithParser.
Context {P : IsoParser}.

Lemma classify_event_risk now event :
  risk (classify_event now event) = risk_of_stage (d_stage event).
Proof.
  unfold classify_event, risk_of_stage.
  repeat case_decide; try destruct (Qlt_le_dec _ 60); reflexivity.
Qed.

(** The confidence of an event classification lies in [0.2, 1]; the risk
    is one of the four tiers and is decided by the stage alone (low for
    noise, medium for recon, high for intrusion, critical for exploit,
    medium for anything else); at least one factor is reported; and a noise
    event is low risk with confidence 0.2 whatever its severity and age. *)
Theorem classify_event_range :
  forall (now : Z) (event : EventDict),
    ((2 # 10) <= confidence (classify_event now event))%Q
    /\ (confidence (classify_event now event) <= 1)%Q
    /\ risk (classify_event now event) = risk_of_stage (d_stage event)
    /\ risk (classify_event now event) ∈ risk_tiers
    /\ factors (classify_event now event) <> []
    /\ (d_stage event = Some "noise"%string ->
          classify_event now event
          = mkClassification "low" 0.2 ["noise category → low risk"%string]).
Proof.
  intros now event.
  pose proof (classify_event_risk now event) as Hrisk.
  split; [|split; [|split; [|split; [|split]]]].
  - unfold classify_event.
    repeat case_decide; try destruct (Qlt_le_dec _ 60); cbn [confidence];
      q_le.
  - unfold classify_event.
    repeat case_decide; try destruct (Qlt_le_dec _ 60); cbn [confidence];
      q_le.
  - exact Hrisk.
  - rewrite Hrisk. unfold risk_of_stage, risk_tiers.
    repeat case_decide; repeat constructor.
  - unfold classify_event.
    repeat case_decide; try destruct (Qlt_le_dec _ 60); cbn [factors];
      discriminate.
  - intros Hst. unfold classify_event. rewrite Hst. reflexivity.
Qed.

(** What the serialized form of an event recommends is decided by the
    event's stage alone: investigate for recon, block for intrusion,
    isolate for exploit, watch for noise and for every other stage.  The
    risk fallback of the recommender never fires behind the classifier,
    whose risk for an unrecognised stage is medium; neither the clock nor
    the severity matters.  The serialized dict is the event's own. *)
Theorem serialized_recommendation_follows_stage :
  forall (now : Z) (e : Event),
    ser_recommendation (serialize_event now e) = action_of_stage (e_stage e)
    /\ ser_event (serialize_event now e) = event_dict e
    /\ ser_recommendation (serialize_event now e)
       ∈ ["watch"; "investigate"; "block"; "isolate"]%string.
Proof.
  intros now e.
  assert (H : ser_recommendation (serialize_event now e)
              = action_of_stage (e_stage e)).
  { unfold serialize_event, recommend_for_event. cbn [ser_recommendation].
    rewrite classify_event_risk. unfold risk_of_stage, action_of_stage.
    change (d_stage (event_dict e)) with (e_stage e).
    repeat case_decide; try reflexivity; congruence. }
  split; [exact H|]. split; [reflexivity|].
  rewrite H. unfold action_of_stage.
  repeat case_decide; repeat constructor.
Qed.

End WithParser.

Lemma classify_event_range_witness :
  @classify_event sample_fromisoformat 43200000000
    (dict_of (Some "noise") (Some "critical") None None)%string
  = mkClassification "low" 0.2 ["noise category → low risk"%string].
Proof.
  apply (classify_event_range (P := sample_fromisoformat)). reflexivity.
Defined.

(** For the four known stages the event-level recommendation ignores the
    classification altogether; for any other stage it follows the risk
    (block for high, isolate for critical, watch otherwise).  In every
    case the priority is the one tied to the action: 1 for watch, 2 for
    investigate, 4 for block, 5 for isolate. *)
Theorem recommend_for_event_table :
  forall (event : EventDict) (c : Classification),
    (d_stage event ∈ [Some "noise"; Some "recon"; Some "intrusion";
                      Some "exploit"]%string ->
       forall c', recommend_for_event event c' = recommend_for_event event c)
    /\ (d_stage event ∉ [Some "noise"; Some "recon"; Some "intrusion";
                         Some "exploit"]%string ->
       action (recommend_for_event event c)
       = if decide (risk c = "high"%string) then "block"%string
         else if decide (risk c = "critical"%string) then "isolate"%string
         else "watch"%string)
    /\ (action (recommend_for_event event c), priority (recommend_for_event event c))
       ∈ [("watch", 1); ("investigate", 2); ("block", 4); ("isolate", 5)]%string.
Proof.
  intros event c. split; [|split].
  - intros Hin c'. unfold recommend_for_event.
    repeat (apply elem_of_cons in Hin as [->|Hin]; [reflexivity|]).
    inversion Hin.
  - intros Hnin. unfold recommend_for_event.
    repeat (apply not_elem_of_cons in Hnin as [? Hnin]).
    repeat case_decide; try reflexivity; congruence.
  - unfold recommend_for_event.
    repeat case_decide; cbn [action priority]; repeat constructor.
Qed.

Lemma recommend_for_event_table_witness :
  recommend_for_event (dict_of (Some "exploit") None None None)%string
    (mkClassification "low" 0 [])
  = recommend_for_event (dict_of (Some "exploit") None None None)%string
      (mkClassification "critical" 1 [])
  /\ action (recommend_for_event (dict_of (Some "probe") None None None)%string
               (mkClassification "high" 1 [])) = "block"%string.
Proof.
  split.
  - apply (proj1 (recommend_for_event_table
                    (dict_of (Some "exploit") None None None)%string
                    (mkClassification "critical" 1 []))).
    repeat constructor.
  - apply (proj1 (proj2 (recommend_for_event_table
                    (dict_of (Some "probe") None None None)%string
                    (mkClassification "high" 1 [])))).
    intros Hin.
    repeat (apply elem_of_cons in Hin as [Hin|Hin]; [discriminate Hin|]).
    inversion Hin.
Defined.

(** *** Chains *)

Lemma elem_of_distinct {K} `{EqDecision K} (l : list K) : forall seen x,
  x ∈ distinct seen l <-> x ∈ l /\ x ∉ seen.
Proof.
  induction l as [|y l IH]; intros seen x; cbn [distinct].
  - split; [intros Hx; inversion Hx | intros [Hx _]; inversion Hx].
  - destruct (decide (y ∈ seen)) as [Hy|Hy].
    + rewrite IH, elem_of_cons. split; [tauto|].
      intros [[->|Hx] Hn]; [contradiction | tauto].
    + rewrite !elem_of_cons, IH, not_elem_of_cons. split.
      * intros [->|(Hx & Hne & Hn)]; tauto.
      * intros [[->|Hx] Hn]; [tauto|].
        destruct (decide (x = y)) as [->|Hne]; tauto.
Qed.

Lemma NoDup_distinct {K} `{EqDecision K} (l : list K) : forall seen,
  NoDup (distinct seen l).
Proof.
  induction l as [|y l IH]; intros seen; cbn [distinct]; [constructor|].
  destruct (decide (y ∈ seen)); [apply IH|].
  constructor; [|apply IH].
  rewrite elem_of_distinct, not_elem_of_cons. tauto.
Qed.

Lemma most_common_1_None {K} (c : list (K * nat)) :
  most_common_1 c = None -> c = [].
Proof.
  destruct c as [|[k n] c]; [reflexivity|]. cbn [most_common_1].
  destruct (most_common_1 c) as [[k' n']|]; [destruct (n <? n')%nat|];
    discriminate.
Qed.

Lemma most_common_1_spec {K} (c : list (K * nat)) k n :
  most_common_1 c = Some (k, n) ->
  (k, n) ∈ c /\ forall k' n', (k', n') ∈ c -> (n' <= n)%nat.
Proof.
  revert k n. induction c as [|[k0 n0] c IH]; intros k n; cbn [most_common_1];
    [discriminate|].
  destruct (most_common_1 c) as [[k1 n1]|] eqn:Hc.
  - destruct (IH k1 n1 eq_refl) as [Hin Hmax].
    destruct (Nat.ltb_spec n0 n1); intros Heq; inversion Heq; subst; split.
    + now right.
    + intros k' n' Hk. apply elem_of_cons in Hk as [Hk|Hk];
        [inversion Hk; lia | eauto].
    + left.
    + intros k' n' Hk. apply elem_of_cons in Hk as [Hk|Hk];
        [inversion Hk; lia |].
      specialize (Hmax _ _ Hk). lia.
  - apply most_common_1_None in Hc. subst c.
    intros Heq; inversion Heq; subst. split; [left|].
    intros k' n' Hk. apply elem_of_cons in Hk as [Hk|Hk];
      [inversion Hk; lia | inversion Hk].
Qed.

(** The most common key of a non-empty sequence: one of its elements, and
    none occurs more often. *)
Lemma most_common_of_counter {K} `{EqDecision K} (l : list K) :
  l <> [] ->
  exists k, most_common_1 (Counter l) = Some (k, Vocabulary.occurrences k l)
    /\ k ∈ l
    /\ forall k', (Vocabulary.occurrences k' l <= Vocabulary.occurrences k l)%nat.
Proof.
  intros Hl.
  destruct (PostureProps.foldl_counter_spec l [] (NoDup_nil_2)) as [Hnd Hget].
  fold (Counter l) in Hnd, Hget. cbn in Hget.
  assert (Hocc : forall k, (0 < Vocabulary.occurrences k l)%nat -> k ∈ l).
  { intros k. clear. induction l as [|x l IH]; cbn; [lia|].
    destruct (decide (x = k)) as [->|_]; [left|right; apply IH; lia]. }
  destruct l as [|x l'] eqn:Hx; [contradiction|]. rewrite <- Hx in *.
  assert (Hxpos : (0 < Vocabulary.occurrences x l)%nat).
  { rewrite Hx. cbn. destruct (decide (x = x)); [lia | contradiction]. }
  assert (Hxin : (x, Vocabulary.occurrences x l) ∈ Counter l).
  { rewrite <- Hget. apply PostureProps.counter_get_pos. rewrite Hget. lia. }
  destruct (most_common_1 (Counter l)) as [[k n]|] eqn:Hm.
  - destruct (most_common_1_spec _ _ _ Hm) as [Hin Hmax].
    assert (Hn : n = Vocabulary.occurrences k l).
    { rewrite <- Hget. symmetry. now apply PostureProps.counter_get_elem. }
    subst n. exists k. split; [reflexivity|].
    assert (Hk : forall k',
              (Vocabulary.occurrences k' l <= Vocabulary.occurrences k l)%nat).
    { intros k'. destruct (Nat.eq_dec (Vocabulary.occurrences k' l) 0%nat) as [->|Hp];
        [lia|].
      apply (Hmax k'). rewrite <- Hget. apply PostureProps.counter_get_pos.
      rewrite Hget. lia. }
    split; [|exact Hk]. apply Hocc. specialize (Hk x). lia.
  - apply most_common_1_None in Hm. rewrite Hm in Hxin. inversion Hxin.
Qed.

Lemma recon_only_stages (stages : list (option string)) :
  stages <> [] ->
  forallb (fun st => bool_decide (st = Some "recon"%string))
          (distinct [] stages) = true ->
  risk_of_stages stages = "medium"%string
  /\ distinct [] stages = [Some "recon"%string].
Proof.
  intros Hne Hall.
  assert (Hrecon : forall st, st ∈ stages -> st = Some "recon"%string).
  { intros st Hst. rewrite List.forallb_forall in Hall.
    assert (Hin : In st (distinct [] stages)).
    { apply list_elem_of_In, elem_of_distinct.
      split; [exact Hst | intros Hn; inversion Hn]. }
    specialize (Hall st Hin). now apply bool_decide_eq_true_1 in Hall. }
  split.
  - unfold risk_of_stages.
    repeat case_decide; try reflexivity;
      try match goal with
          | Hin : Some ?x ∈ stages |- _ =>
              apply Hrecon in Hin; discriminate Hin
          end.
    destruct stages as [|st stages]; [contradiction|].
    exfalso. match goal with Hn : ~ _ ∈ _ |- _ => apply Hn end.
    rewrite <- (Hrecon st) by left. left.
  - pose proof (NoDup_distinct stages []) as Hnd.
    assert (Hd : forall st, st ∈ distinct [] stages -> st = Some "recon"%string).
    { intros st Hst. apply elem_of_distinct in Hst as [Hst _]. auto. }
    destruct stages as [|st stages]; [contradiction|].
    destruct (distinct [] (st :: stages)) as [|a [|b rest]] eqn:Hds.
    + cbn in Hds. destruct (decide (st ∈ [])) as [Hin|_];
        [inversion Hin | discriminate Hds].
    + now rewrite (Hd a) by left.
    + exfalso. apply NoDup_cons in Hnd as [Hab _].
      apply Hab. rewrite (Hd a), (Hd b) by (repeat constructor). left.
Qed.

(** For a non-empty chain, [classify_chain] reports: the risk read off the
    stages present (critical with an exploit, else high with an intrusion,
    else medium with a recon, else low), a confidence in [0.4, 1], the
    stages without duplicates, and as dominant address one that occurs in
    the chain at least as often as any other. *)
Theorem classify_chain_summary :
  forall events : list EventDict,
    events <> [] ->
    let c := classify_chain events in
    let stages := map d_stage events in
    let ips := map d_source_ip events in
    cs_risk c = Some (risk_of_stages stages)
    /\ ((4 # 10) <= cs_confidence c)%Q /\ (cs_confidence c <= 1)%Q
    /\ NoDup (cs_stages c)
    /\ (forall st, st ∈ cs_stages c <-> st ∈ stages)
    /\ cs_ip c ∈ ips
    /\ (forall ip, (Vocabulary.occurrences ip ips
                    <= Vocabulary.occurrences (cs_ip c) ips)%nat)
    /\ cs_factors c <> [].
Proof.
  intros events Hne c stages ips.
  assert (Hips : ips <> []).
  { subst ips. destruct events; [contradiction | discriminate]. }
  assert (Hst : stages <> []).
  { subst stages. destruct events; [contradiction | discriminate]. }
  destruct (most_common_of_counter ips Hips) as (k & Hm & Hk & Hmax).
  assert (Hform : exists conf factors,
            c = mkSummary (Some (risk_of_stages stages)) conf
                          (distinct [] stages) k factors None
            /\ ((4 # 10) <= conf)%Q /\ (conf <= 1)%Q /\ factors <> []).
  { subst c. unfold classify_chain.
    destruct events as [|e0 es]; [contradiction|]. cbv iota.
    fold stages. fold ips. rewrite Hm.
    destruct (forallb _ (distinct [] stages)) eqn:Hall.
    - destruct (recon_only_stages stages Hst Hall) as [-> _].
      repeat case_decide;
        destruct (1 <? _)%nat; eexists _, _; (split; [reflexivity|]);
        (split; [q_le|]); (split; [q_le | discriminate]).
    - unfold risk_of_stages.
      repeat case_decide;
        destruct (1 <? _)%nat; eexists _, _; (split; [reflexivity|]);
        (split; [q_le|]); (split; [q_le | discriminate]). }
  destruct Hform as (conf & fs & -> & Hlo & Hhi & Hfs).
  cbn [cs_risk cs_confidence cs_stages cs_ip cs_factors].
  split; [reflexivity|]. split; [exact Hlo|]. split; [exact Hhi|].
  split; [apply NoDup_distinct|]. split.
  - intros st. rewrite elem_of_distinct. split; [tauto|].
    intros H. split; [exact H | intros Hn; inversion Hn].
  - split; [exact Hk|]. split; [exact Hmax | exact Hfs].
Qed.

Lemma classify_chain_summary_witness :
  cs_risk (classify_chain
             [dict_of (Some "recon") (Some "suspicious") (Some "9.9.9.9") None;
              dict_of (Some "exploit") (Some "critical") (Some "9.9.9.9") None]%string)
  = Some "critical"%string.
Proof.
  refine (proj1 (classify_chain_summary _ _)). discriminate.
Defined.

(** The chain-level recommendation made from a chain's own classification
    is decided by the stages the chain contains: isolate with an exploit,
    else block with an intrusion, else watch (priority 2 for a recon-only
    chain, priority 1 otherwise, the empty chain included).  The risk
    fallback of [recommend_for_chain] never fires behind
    [classify_chain]. *)
Theorem chain_recommendation_follows_stages :
  forall events : list EventDict,
    let stages := map d_stage events in
    recommend_for_chain (classify_chain events)
    = if decide (Some "exploit"%string ∈ stages) then
        mkRec "isolate" "exploit stage present" 5
      else if decide (Some "intrusion"%string ∈ stages) then
        mkRec "block" "intrusion indicators across chain" 4
      else if decide (Some "recon"%string ∈ stages) then
        if forallb (fun st => bool_decide (st = Some "recon"%string)) stages
        then mkRec "watch" "recon-only chain" 2
        else mkRec "watch" "default low-risk chain" 1
      else mkRec "watch" "default low-risk chain" 1.
Proof.
  intros events stages.
  destruct (decide (events = [])) as [->|Hne].
  { subst stages. cbn. unfold recommend_for_chain. cbn.
    repeat case_decide; try reflexivity; try discriminate;
      match goal with Hin : _ ∈ [] |- _ => inversion Hin end. }
  assert (Hst : stages <> []).
  { subst stages. destruct events; [contradiction | discriminate]. }
  destruct (most_common_of_counter (map d_source_ip events))
    as (k & Hm & _); [destruct events; [contradiction | discriminate]|].
  assert (Hform : exists conf factors,
            classify_chain events
            = mkSummary (Some (risk_of_stages stages)) conf
                        (distinct [] stages) k factors None).
  { unfold classify_chain.
    destruct events as [|e0 es]; [contradiction|]. cbv iota.
    fold stages. rewrite Hm.
    destruct (forallb _ (distinct [] stages)) eqn:Hall.
    - destruct (recon_only_stages stages Hst Hall) as [-> _].
      repeat case_decide; destruct (1 <? _)%nat; eexists _, _; reflexivity.
    - unfold risk_of_stages.
      repeat case_decide; destruct (1 <? _)%nat; eexists _, _; reflexivity. }
  destruct Hform as (conf & fs & ->).
  unfold recommend_for_chain. cbn [cs_stages cs_risk].
  assert (Hmem : forall st, st ∈ distinct [] stages <-> st ∈ stages).
  { intros st. rewrite elem_of_distinct. split; [tauto|].
    intros H. split; [exact H | intros Hn; inversion Hn]. }
  assert (Hall : forallb (fun st => bool_decide (st = Some "recon"%string)) stages
                 = forallb (fun st => bool_decide (st = Some "recon"%string))
                           (distinct [] stages)).
  { apply eq_true_iff_eq. rewrite !List.forallb_forall.
    split; intros Hf x Hx; apply Hf, list_elem_of_In;
      apply list_elem_of_In in Hx; now apply Hmem. }
  rewrite Hall.
  destruct (decide (distinct [] stages = [Some "recon"%string])) as [Hd|Hd].
  - rewrite Hd. cbn [forallb]. rewrite bool_decide_eq_true_2 by reflexivity.
    cbn [andb].
    assert (Hr : forall st, st ∈ stages -> st = Some "recon"%string).
    { intros st Hs. apply Hmem in Hs. rewrite Hd in Hs.
      now apply list_elem_of_singleton in Hs. }
    repeat case_decide; try reflexivity;
      try match goal with
          | Hin : Some ?x ∈ stages |- _ =>
              apply Hr in Hin; discriminate Hin
          end.
    exfalso. match goal with Hn : ~ _ ∈ stages |- _ => apply Hn end.
    apply Hmem. rewrite Hd. left.
  - destruct (forallb _ (distinct [] stages)) eqn:Hf.
    + destruct (recon_only_stages stages Hst Hf) as [_ Hd']. contradiction.
    + unfold risk_of_stages.
      repeat case_decide; try reflexivity; try congruence;
        repeat match goal with
               | Hin : _ ∈ distinct [] stages |- _ => apply Hmem in Hin
               | Hn : ~ _ ∈ distinct [] stages |- _ => rewrite Hmem in Hn
               end; try contradiction; congruence.
Qed.

(** *** Posture and the global recommendation *)

(** [determine_posture] always answers one of the four postures, so the
    global recommendation made from it never is the unknown-posture
    fallback: it closes the external interfaces exactly when some chain
    summary is critical, and does nothing exactly when the posture is
    MONITOR.  A posture string outside the four (the comparison is
    case-sensitive) gets action none with reason unknown posture. *)
Theorem global_recommendation_of_posture :
  forall (P : IsoParser) (now : Z) (recent : list EventDict)
         (summaries : list ChainSummary),
    let posture := Posture.determine_posture now recent summaries in
    posture ∈ postures
    /\ g_reason (global_recommendations posture) <> "unknown posture"%string
    /\ (g_action (global_recommendations posture)
          = "close_external_interfaces"%string
        <-> exists s, s ∈ summaries /\ cs_risk s = Some "critical"%string)
    /\ (g_action (global_recommendations posture) = "none"%string
        <-> posture = "MONITOR"%string)
    /\ (forall other, other ∉ postures ->
          global_recommendations other = mkGlobal "none" "unknown posture").
Proof.
  intros P now recent summaries posture.
  pose proof (PostureProps.critical_test_iff summaries) as Hcrit.
  assert (Hcases :
    (posture = "LOCKDOWN"%string
     /\ exists s, s ∈ summaries /\ cs_risk s = Some "critical"%string)
    \/ ((posture = "RESTRICT" \/ posture = "MONITOR" \/ posture = "ELEVATED")%string
        /\ ~ exists s, s ∈ summaries /\ cs_risk s = Some "critical"%string)).
  { subst posture. unfold Posture.determine_posture.
    destruct (existsb _ summaries) eqn:Hc.
    - left. split; [reflexivity | now apply Hcrit].
    - right. split.
      + destruct (Posture.any_repeated _); [auto|].
        destruct (forallb _ recent); auto.
      + intros Hex. apply Hcrit in Hex. congruence. }
  split; [|split; [|split; [|split]]].
  - unfold postures.
    destruct Hcases as [[ -> _ ] | [[ -> | [ -> | -> ]] _ ]]; repeat constructor.
  - destruct Hcases as [[ -> _ ] | [[ -> | [ -> | -> ]] _ ]]; discriminate.
  - destruct Hcases as [[ -> Hex ] | [[ -> | [ -> | -> ]] Hn ]]; cbn;
      (split; [intros Heq; try discriminate Heq; exact Hex
              | intros Hex'; try reflexivity; contradiction]).
  - destruct Hcases as [[ -> _ ] | [[ -> | [ -> | -> ]] _ ]]; cbn;
      split; intros Heq; try reflexivity; discriminate Heq.
  - intros other Hn. unfold postures in Hn.
    repeat (apply not_elem_of_cons in Hn as [? Hn]).
    unfold global_recommendations.
    repeat match goal with
           | Hne : other <> ?x |- context [String.eqb other ?x] =>
               rewrite (proj2 (String.eqb_neq other x) Hne)
           end.
    reflexivity.
Qed.

Lemma global_recommendation_of_posture_witness :
  global_recommendations "monitor" = mkGlobal "none" "unknown posture".
Proof.
  apply (global_recommendation_of_posture sample_fromisoformat 0 [] []).
  unfold postures. intros Hin.
  repeat (apply elem_of_cons in Hin as [Hin|Hin]; [discriminate Hin|]).
  inversion Hin.
Defined.

End AdviceProps.

(* ---------------------------------------------------------------------- *)
(** ** More on the event store *)
(* ---------------------------------------------------------------------- *)

Module StoreProps.
Import State Vocabulary Tables.

Lemma truthy_nonempty (ts : string) : ts <> ""%string -> truthy (Some ts) = true.
Proof.
  intros H. cbn. apply negb_true_iff, String.eqb_neq. exact H.
Qed.

Lemma add_event_well_stored now_iso e s :
  now_iso <> ""%string -> 0 <= _event_counter s ->
  well_stored (add_event now_iso e s).1.
Proof.
  intros Hnow Hc. split.
  - rewrite StateProps.add_event_id. unfold lacks_id.
    destruct (e_id e) as [n|]; [destruct (Z.eqb_spec n 0)|]; eexists;
      (split; [reflexivity|]); lia.
  - unfold add_event, next_event_id, _ensure_timestamp.
    destruct (lacks_id e); cbn [fst set_id e_timestamp];
      destruct (truthy (e_timestamp e)) eqn:Ht; cbn [set_timestamp e_timestamp];
      try exact Ht; now apply truthy_nonempty.
Qed.

Lemma Forall_deque_append {A} (Q : A -> Prop) (n : nat) (d : list A) (x : A) :
  Forall Q d -> Q x -> Forall Q (deque_append n d x).
Proof.
  intros Hd Hx. unfold deque_append.
  destruct (length d <? n)%nat;
    [|apply Forall_drop]; apply Forall_app; split; auto.
Qed.

Lemma add_event_store_ok now_iso e s :
  now_iso <> ""%string -> store_ok s -> store_ok (add_event now_iso e s).2.
Proof.
  intros Hnow (Hlen & Hc & Hall). split; [|split].
  - rewrite StateProps.add_event_buffer, StateProps.length_deque_append
      by exact Hlen. lia.
  - rewrite StateProps.add_event_counter. destruct (lacks_id e); lia.
  - rewrite StateProps.add_event_buffer.
    apply Forall_deque_append; [exact Hall|].
    now apply add_event_well_stored.
Qed.

Lemma add_events_store_ok calls : forall s,
  Forall (fun c => c.1 <> ""%string) calls -> store_ok s ->
  store_ok (add_events calls s).2
  /\ Forall well_stored (add_events calls s).1
  /\ _event_counter (add_events calls s).2
     = _event_counter s + count_lacking calls.
Proof.
  induction calls as [|[now e] calls IH]; intros s Hc Hs.
  - cbn. repeat split; [apply Hs..|constructor|lia].
  - apply Forall_cons in Hc as [Hnow Hc]. cbn [fst] in Hnow.
    rewrite StateProps.add_events_cons. cbn [fst snd].
    destruct (IH _ Hc (add_event_store_ok now e s Hnow Hs)) as (H1 & H2 & H3).
    split; [exact H1|]. split.
    + constructor; [|exact H2].
      apply add_event_well_stored; [exact Hnow | apply Hs].
    + rewrite H3, StateProps.add_event_counter. cbn [count_lacking]. lia.
Qed.

(** The store keeps its shape: started empty and fed any events, each call
    reading a non-empty clock string, it never holds more than 500 events,
    every event it holds or returns has an integer id other than 0 and a
    non-empty timestamp, and its counter equals the number of events that
    arrived without an id (one call of [next_event_id] for each). *)
Theorem store_shape_is_kept :
  forall calls : list (string * Event),
    Forall (fun c => c.1 <> ""%string) calls ->
    (length (_events (add_events calls initial).2) <= 500)%nat
    /\ Forall well_stored (_events (add_events calls initial).2)
    /\ Forall well_stored (add_events calls initial).1
    /\ _event_counter (add_events calls initial).2 = count_lacking calls.
Proof.
  intros calls Hc.
  assert (H0 : store_ok initial).
  { repeat split; cbn; [lia | lia | constructor]. }
  destruct (add_events_store_ok calls initial Hc H0) as ((Hl & _ & Ha) & Hr & Hn).
  split; [exact Hl|]. split; [exact Ha|]. split; [exact Hr|]. rewrite Hn. cbn. lia.
Qed.

Lemma store_shape_is_kept_witness :
  let calls := [("2024-05-01T12:00:01"%string, fallback_noise);
                ("2024-05-01T12:00:02"%string, set_id (-4) sample_intrusion)] in
  Forall well_stored (_events (add_events calls initial).2)
  /\ _event_counter (add_events calls initial).2 = 1.
Proof.
  intros calls.
  destruct (store_shape_is_kept calls) as (_ & Hs & _ & Hn).
  - repeat constructor; discriminate.
  - split; [exact Hs | exact Hn].
Defined.

(** *** Lookup by id when the store assigns every id *)

Lemma count_lacking_all calls :
  Forall (fun c : string * Event => lacks_id c.2 = true) calls ->
  count_lacking calls = Z.of_nat (length calls).
Proof.
  induction 1 as [|[now e] calls He _ IH]; [reflexivity|].
  cbn [count_lacking length]. cbn [snd] in He. rewrite He, IH. lia.
Qed.

Lemma idless_stored_id calls j r :
  Forall (fun c : string * Event => lacks_id c.2 = true) calls ->
  (add_events calls initial).1 !! j = Some r ->
  e_id r = Some (Z.of_nat j + 1).
Proof.
  intros Hall Hr.
  assert (Hj : (j < length calls)%nat).
  { rewrite <- (StateProps.add_events_length calls initial).
    now apply lookup_lt_Some in Hr. }
  destruct (lookup_lt_is_Some_2 calls j Hj) as [[now e] Hc].
  assert (He : lacks_id e = true).
  { rewrite Forall_forall in Hall.
    apply (Hall (now, e)). eapply list_elem_of_lookup_2, Hc. }
  rewrite (StateProps.add_events_ids _ _ _ _ _ _ Hc He Hr).
  rewrite count_lacking_all by (now apply Forall_take).
  rewrite length_take. cbn [initial _event_counter]. f_equal. lia.
Qed.

(** When every event arrives without an id (as the generators build them),
    ids are unique and lookup is exact: after [n] insertions,
    [get_event_by_id i] returns the [i]-th stored event for
    [max(0, n - 500) < i <= n], and nothing for every other [i]: an id
    that was never assigned, or one whose event has been evicted. *)
Theorem lookup_by_assigned_id :
  forall (calls : list (string * Event)) (i : Z),
    Forall (fun c => lacks_id c.2 = true) calls ->
    let n := Z.of_nat (length calls) in
    get_event_by_id i (add_events calls initial).2
    = if (Z.max 0 (n - 500) <? i) && (i <=? n)
      then (add_events calls initial).1 !! Z.to_nat (i - 1)
      else None.
Proof.
  intros calls i Hall n.
  set (stored := (add_events calls initial).1).
  set (k := (length calls - _MAX_EVENTS)%nat).
  assert (Hlen : length stored = length calls)
    by apply StateProps.add_events_length.
  assert (Hbuf : _events (add_events calls initial).2 = drop k stored).
  { rewrite (StateProps.add_events_buffer calls initial) by (cbn; lia).
    cbn [initial _events app]. fold stored. now rewrite Hlen. }
  assert (Hid : forall j r, stored !! j = Some r -> e_id r = Some (Z.of_nat j + 1))
    by (intros j r; now apply idless_stored_id).
  unfold get_event_by_id. rewrite Hbuf.
  pose proof (StateProps.first_with_id_spec i (rev (drop k stored))) as Hspec.
  unfold _MAX_EVENTS in k.
  destruct (first_with_id i (rev (drop k stored))) as [e|].
  - destruct Hspec as (before & after & Hrev & He & _).
    assert (Hin : e ∈ drop k stored).
    { apply list_elem_of_In, List.in_rev. rewrite Hrev.
      apply List.in_or_app. right. left. reflexivity. }
    apply list_elem_of_lookup in Hin as [j Hj].
    rewrite lookup_drop in Hj. pose proof (Hid _ _ Hj) as Hidj.
    rewrite He in Hidj. inversion Hidj as [Hi].
    pose proof (lookup_lt_Some _ _ _ Hj) as Hlt. rewrite Hlen in Hlt.
    replace (Z.to_nat (Z.of_nat (k + j) + 1 - 1)) with (k + j)%nat by lia.
    rewrite Hj.
    replace ((Z.max 0 (n - 500) <? Z.of_nat (k + j) + 1)
             && (Z.of_nat (k + j) + 1 <=? n)) with true; [reflexivity|].
    symmetry. apply andb_true_iff. split; [apply Z.ltb_lt | apply Z.leb_le];
      subst n k; lia.
  - destruct ((Z.max 0 (n - 500) <? i) && (i <=? n)) eqn:Hrange;
      [|reflexivity].
    exfalso. apply andb_true_iff in Hrange as [Hlo Hhi].
    apply Z.ltb_lt in Hlo. apply Z.leb_le in Hhi.
    assert (Hj : (Z.to_nat (i - 1) < length stored)%nat)
      by (rewrite Hlen; subst n; lia).
    destruct (lookup_lt_is_Some_2 _ _ Hj) as [r Hr].
    pose proof (Hid _ _ Hr) as Hidr.
    rewrite Forall_forall in Hspec. apply (Hspec r).
    + apply list_elem_of_In, List.in_rev. rewrite rev_involutive.
      apply list_elem_of_In.
      apply (list_elem_of_lookup_2 _ (Z.to_nat (i - 1) - k)).
      rewrite lookup_drop.
      replace (k + (Z.to_nat (i - 1) - k))%nat with (Z.to_nat (i - 1))
        by (subst n k; lia).
      exact Hr.
    + rewrite Hidr. f_equal. lia.
Qed.

Lemma lookup_by_assigned_id_witness :
  let calls := repeat ("2024-05-01T12:00:01"%string, fallback_noise) 501 in
  get_event_by_id 1 (add_events calls initial).2 = None
  /\ get_event_by_id 2 (add_events calls initial).2
     = (add_events calls initial).1 !! 1%nat.
Proof.
  intros calls.
  assert (Hall : Forall (fun c : string * Event => lacks_id c.2 = true) calls).
  { apply Forall_forall. intros c Hc. apply list_elem_of_In in Hc.
    apply repeat_spec in Hc. now subst c. }
  split.
  - exact (lookup_by_assigned_id calls 1 Hall).
  - exact (lookup_by_assigned_id calls 2 Hall).
Defined.

(** *** Newest-first listings *)

Lemma compare_refl (a : string) : String.compare a a = Eq.
Proof. now apply OrderedTypeEx.String_as_OT.cmp_eq. Qed.

Lemma compare_lt_trans (a b c : string) :
  String.compare a b = Lt -> String.compare b c = Lt ->
  String.compare a c = Lt.
Proof.
  intros H1 H2. apply OrderedTypeEx.String_as_OT.cmp_lt.
  apply OrderedTypeEx.String_as_OT.cmp_lt in H1, H2.
  eapply OrderedTypeEx.String_as_OT.lt_trans; eassumption.
Qed.

Lemma key_gt_asym a b : key_gt a b = true -> key_gt b a = false.
Proof.
  unfold key_gt. rewrite (String.compare_antisym (default _ (e_timestamp a))).
  destruct (String.compare _ _); cbn; try discriminate; [|reflexivity].
  intros H. apply Z.ltb_lt in H. apply Z.ltb_ge. lia.
Qed.

Lemma not_older_trans a b c : not_older a b -> not_older b c -> not_older a c.
Proof.
  unfold not_older, key_gt.
  set (ta := default ""%string (e_timestamp a)).
  set (tb := default ""%string (e_timestamp b)).
  set (tc := default ""%string (e_timestamp c)).
  destruct (String.compare tb ta) eqn:Hba; try discriminate;
    destruct (String.compare tc tb) eqn:Hcb; try discriminate; intros H1 H2.
  - apply String.compare_eq_iff in Hba, Hcb. rewrite Hcb, Hba, compare_refl.
    apply Z.ltb_ge in H1, H2. apply Z.ltb_ge. lia.
  - apply String.compare_eq_iff in Hba. now rewrite <- Hba, Hcb.
  - apply String.compare_eq_iff in Hcb. now rewrite Hcb, Hba.
  - now rewrite (compare_lt_trans _ _ _ Hcb Hba).
Qed.

Lemma insert_desc_perm x l : insert_desc x l ≡ₚ x :: l.
Proof.
  induction l as [|y l IH]; cbn [insert_desc]; [reflexivity|].
  destruct (key_gt y x); [|reflexivity].
  rewrite IH. apply Permutation_swap.
Qed.

Lemma sorted_newest_first_perm l : sorted_newest_first l ≡ₚ l.
Proof.
  unfold sorted_newest_first. induction l as [|x l IH]; cbn [foldr];
    [reflexivity|].
  now rewrite insert_desc_perm, IH.
Qed.

Lemma insert_desc_sorted x l :
  Sorted not_older l -> Sorted not_older (insert_desc x l).
Proof.
  induction 1 as [|y l Hs IH Hhd]; cbn [insert_desc].
  - repeat constructor.
  - destruct (key_gt y x) eqn:Hyx.
    + constructor; [exact IH|].
      destruct l as [|z l]; cbn [insert_desc].
      * constructor. now apply key_gt_asym.
      * destruct (key_gt z x); constructor;
          [now inversion Hhd | now apply key_gt_asym].
    + constructor; [now constructor|]. constructor. exact Hyx.
Qed.

Lemma sorted_newest_first_sorted l :
  StronglySorted not_older (sorted_newest_first l).
Proof.
  apply Sorted_StronglySorted.
  - intros a b c. apply not_older_trans.
  - unfold sorted_newest_first. induction l as [|x l IH]; cbn [foldr];
      [constructor | now apply insert_desc_sorted].
Qed.

Lemma ensure_timestamp_id now_iso (l : list Event) :
  Forall (fun e => truthy (e_timestamp e) = true) l ->
  map (_ensure_timestamp now_iso) l = l.
Proof.
  induction 1 as [|e l He _ IH]; [reflexivity|].
  cbn [map]. unfold _ensure_timestamp at 1. now rewrite He, IH.
Qed.

Lemma store_ok_timestamps s :
  store_ok s -> Forall (fun e => truthy (e_timestamp e) = true) (_events s).
Proof.
  intros (_ & _ & Hall). eapply Forall_impl; [exact Hall|].
  intros e [_ Ht]. exact Ht.
Qed.

Lemma not_older_key_ge a b :
  well_stored a -> well_stored b -> not_older a b -> key_ge a b.
Proof.
  intros [(ia & Hia & _) Hta] [(ib & Hib & _) Htb].
  unfold not_older, key_gt, key_ge.
  destruct (e_timestamp a) as [ta|]; [|discriminate Hta].
  destruct (e_timestamp b) as [tb|]; [|discriminate Htb].
  rewrite Hia, Hib. cbn [default from_option id].
  intros Hcmp. exists ta, tb, ia, ib. repeat split.
  destruct (String.compare tb ta) eqn:Hc; [| |discriminate Hcmp].
  - right. apply String.compare_eq_iff in Hc. apply Z.ltb_ge in Hcmp.
    split; [now symmetry | exact Hcmp].
  - left. now apply OrderedTypeEx.String_as_OT.cmp_lt.
Qed.

Lemma StronglySorted_impl {A} (R R' : A -> A -> Prop) (Q : A -> Prop) l :
  (forall a b, Q a -> Q b -> R a b -> R' a b) ->
  Forall Q l -> StronglySorted R l -> StronglySorted R' l.
Proof.
  intros Himp Hq Hs. induction Hs as [|a l Hs IH Hall]; [constructor|].
  apply Forall_cons in Hq as [Ha Hl]. constructor; [now apply IH|].
  rewrite Forall_forall in *. intros b Hb. apply Himp; auto.
Qed.

Lemma same_key_not_gt e x y :
  same_key e x = true -> key_gt y x = true -> same_key e y = false.
Proof.
  unfold same_key, key_gt. intros Hx Hgt.
  apply bool_decide_eq_true_1 in Hx as [Htx Hix].
  apply bool_decide_eq_false_2. intros [Hty Hiy].
  rewrite Htx, Hty, Hix, Hiy, compare_refl in Hgt.
  apply Z.ltb_lt in Hgt. lia.
Qed.

Lemma filter_insert_desc (f : Event -> bool) x l :
  (forall y, f x = true -> key_gt y x = true -> f y = false) ->
  List.filter f (insert_desc x l)
  = if f x then x :: List.filter f l else List.filter f l.
Proof.
  intros Hf. induction l as [|y l IH]; [reflexivity|].
  cbn [insert_desc]. destruct (key_gt y x) eqn:Hgt; [|reflexivity].
  cbn [List.filter]. rewrite IH.
  destruct (f x) eqn:Hx; [|reflexivity].
  now rewrite (Hf y eq_refl Hgt).
Qed.

(** The sort is stable: events with the same key keep their order. *)
Lemma sorted_newest_first_stable e l :
  List.filter (same_key e) (sorted_newest_first l)
  = List.filter (same_key e) l.
Proof.
  unfold sorted_newest_first. induction l as [|x l IH]; [reflexivity|].
  cbn [foldr List.filter]. rewrite filter_insert_desc, IH; [reflexivity|].
  intros y. apply same_key_not_gt.
Qed.

(** On a store in its kept shape, [get_all_events] returns every buffered
    event exactly once and leaves the store as it was.  The listing is
    ordered by [(timestamp, id)] from the greatest down: of two events of
    the listing, the one that comes first has the greater timestamp
    (as strings), or the same timestamp and an id at least as large; and
    events with the same timestamp and id keep the order in which the
    buffer holds them.  [get_recent_events(limit)] returns the first
    [min(limit, n)] events of that listing for [limit >= 0]; a negative
    limit drops the last [|limit|] events of the listing instead. *)
Theorem listings_are_sorted_permutations :
  forall (now_iso : string) (s : Store),
    store_ok s ->
    (get_all_events now_iso s).2 = s
    /\ (get_all_events now_iso s).1 ≡ₚ _events s
    /\ StronglySorted key_ge (get_all_events now_iso s).1
    /\ (forall e, List.filter (same_key e) (get_all_events now_iso s).1
                  = List.filter (same_key e) (_events s))
    /\ (forall limit,
        (get_recent_events now_iso limit s).2 = s
        /\ (0 <= limit ->
            (get_recent_events now_iso limit s).1
              = take (Z.to_nat limit) (get_all_events now_iso s).1
            /\ length (get_recent_events now_iso limit s).1
              = Nat.min (Z.to_nat limit) (length (_events s)))
        /\ (limit < 0 ->
            (get_recent_events now_iso limit s).1
              = take (length (_events s) - Z.to_nat (- limit))
                     (get_all_events now_iso s).1)).
Proof.
  intros now_iso s Hok.
  pose proof (ensure_timestamp_id now_iso _ (store_ok_timestamps s Hok)) as Hid.
  unfold get_all_events, get_recent_events, _sorted_events_newest_first.
  rewrite Hid. cbn [fst snd].
  assert (Hlen : length (sorted_newest_first (_events s)) = length (_events s))
    by apply (Permutation_length (sorted_newest_first_perm _)).
  split; [now destruct s|].
  split; [apply sorted_newest_first_perm|].
  split; [|split; [intros e; apply sorted_newest_first_stable|]].
  { apply (StronglySorted_impl not_older key_ge well_stored).
    - intros a b. apply not_older_key_ge.
    - destruct Hok as (_ & _ & Hall). rewrite Forall_forall in *.
      intros e He. apply Hall.
      now apply DashboardProps.elem_of_sorted_newest_first.
    - apply sorted_newest_first_sorted. }
  intros limit. split; [now destruct s|]. unfold slice_to. split.
  - intros Hl. rewrite (proj2 (Z.leb_le 0 limit) Hl).
    split; [reflexivity|]. now rewrite length_take, Hlen.
  - intros Hl. rewrite (proj2 (Z.leb_gt 0 limit) Hl). now rewrite Hlen.
Qed.

Lemma store_with_intrusion_ok : store_ok store_with_intrusion.
Proof.
  assert (E : store_with_intrusion = mkStore [set_id 1 sample_intrusion] 1)
    by reflexivity.
  rewrite E. split; [unfold _MAX_EVENTS; cbn; lia|]. split; [cbn; lia|].
  apply Forall_cons. split; [|constructor].
  split; [exists 1; split; [reflexivity | lia] | reflexivity].
Qed.

Lemma listings_are_sorted_permutations_witness :
  let s := (add_events unordered_calls initial).2 in
  let listing := (get_all_events "2024-05-01T12:00:09" s).1 in
  map e_dest_port (_events s) = [1001; 1002; 1003; 1004]
  /\ map (fun e => (e_timestamp e, e_id e, e_dest_port e)) listing
     = [(Some "2024-05-01T12:00:05", Some 7, 1003);
        (Some "2024-05-01T12:00:05", Some 7, 1004);
        (Some "2024-05-01T12:00:05", Some 1, 1001);
        (Some "2024-05-01T12:00:01", Some 2, 1002)]%string
  /\ StronglySorted key_ge listing
  /\ map e_dest_port
       (List.filter (same_key (sample_event "2024-05-01T12:00:05" 7 0))
                    listing) = [1003; 1004]
  /\ (get_all_events "2024-05-01T12:00:09" s).2 = s
  /\ map e_dest_port (get_recent_events "2024-05-01T12:00:09" 3 s).1
     = [1003; 1004; 1001]
  /\ map e_dest_port (get_recent_events "2024-05-01T12:00:09" (-1) s).1
     = [1003; 1004; 1001].
Proof.
  intros s listing.
  assert (H0 : store_ok initial).
  { repeat split; cbn; [lia | lia | constructor]. }
  assert (Hcalls : Forall (fun c : string * Event => c.1 <> ""%string)
                          unordered_calls).
  { repeat constructor; discriminate. }
  destruct (add_events_store_ok unordered_calls initial Hcalls H0)
    as (Hok & _).
  destruct (listings_are_sorted_permutations "2024-05-01T12:00:09" s Hok)
    as (Hsame & _ & Hsorted & Hstable & Hrecent).
  assert (Hlisting :
            map (fun e => (e_timestamp e, e_id e, e_dest_port e)) listing
            = [(Some "2024-05-01T12:00:05", Some 7, 1003);
               (Some "2024-05-01T12:00:05", Some 7, 1004);
               (Some "2024-05-01T12:00:05", Some 1, 1001);
               (Some "2024-05-01T12:00:01", Some 2, 1002)]%string)
    by (vm_compute; reflexivity).
  split; [vm_compute; reflexivity|]. split; [exact Hlisting|].
  split; [exact Hsorted|]. split.
  { fold listing in Hstable. rewrite Hstable. vm_compute. reflexivity. }
  split; [exact Hsame|].
  destruct (Hrecent 3) as (_ & Hpos & _).
  destruct (Hrecent (-1)) as (_ & _ & Hneg).
  split.
  - rewrite (proj1 (Hpos ltac:(lia))). vm_compute. reflexivity.
  - rewrite (Hneg ltac:(lia)). vm_compute. reflexivity.
Defined.

(** *** Counting by severity *)

Lemma count_sev_perm k (l1 l2 : list Event) :
  l1 ≡ₚ l2 -> count_sev k l1 = count_sev k l2.
Proof.
  induction 1; cbn [count_sev]; lia.
Qed.

Lemma count_sev_filter_le k (f : Event -> bool) (l : list Event) :
  (count_sev k (List.filter f l) <= count_sev k l)%nat.
Proof.
  induction l as [|e l IH]; cbn [List.filter count_sev]; [lia|].
  destruct (f e); cbn [count_sev]; lia.
Qed.


Lemma counts_lookup (l : list Event) k :
  foldl count_severity zero_counts l !! k
  = if decide (k ∈ known_severities) then Some (count_sev k l) else None.
Proof.
  rewrite StateProps.fold_count_severity, StateProps.zero_counts_lookup.
  destruct (decide (k ∈ known_severities)); reflexivity.
Qed.



(** *** The trailing window *)

Section WithParser.
Context {P : IsoParser}.

Lemma in_window_mono cutoff cutoff' e :
  cutoff' <= cutoff -> in_window cutoff e = true -> in_window cutoff' e = true.
Proof.
  unfold in_window. intros Hc.
  destruct (e_timestamp e) as [ts|]; [|discriminate].
  destruct (truthy (Some ts)); [|discriminate].
  destruct (fromisoformat ts) as [t|]; [|discriminate].
  intros H. apply Z.leb_le in H. apply Z.leb_le. lia.
Qed.

Lemma count_sev_filter_mono k (f g : Event -> bool) (l : list Event) :
  (forall e, f e = true -> g e = true) ->
  (count_sev k (List.filter f l) <= count_sev k (List.filter g l))%nat.
Proof.
  intros Hfg. induction l as [|e l IH]; cbn [List.filter]; [lia|].
  destruct (f e) eqn:Hf.
  - rewrite (Hfg e Hf). cbn [count_sev]. lia.
  - destruct (g e); cbn [count_sev]; lia.
Qed.

Lemma window_count now w s k :
  count_sev k (get_events_in_window now w s)
  = count_sev k (List.filter (in_window (now - w * 1000000)) (_events s)).
Proof.
  unfold get_events_in_window. apply count_sev_perm, sorted_newest_first_perm.
Qed.

Lemma window_length now w s :
  (length (get_events_in_window now w s) <= length (_events s))%nat.
Proof.
  unfold get_events_in_window.
  rewrite (Permutation_length (sorted_newest_first_perm _)).
  apply List.filter_length_le.
Qed.

Lemma sum_known_counts (l : list Event) :
  (sum_known (foldl count_severity zero_counts l) <= length l)%nat.
Proof.
  unfold sum_known, known_severities. cbn [foldr].
  rewrite !counts_lookup. unfold known_severities.
  repeat match goal with
         | |- context [decide (?k ∈ ?l)] =>
             destruct (decide (k ∈ l)) as [_|Hn];
             [|exfalso; apply Hn; repeat constructor]
         end.
  cbv [default from_option id].
  pose proof (StateProps.length_by_severity l). lia.
Qed.

(** [get_deltas] counts, per known severity, the events of the trailing
    window and has no other key.  A delta never exceeds the dashboard
    count of the same severity, grows with the window, and the four deltas
    together never exceed the number of events in the window, itself at
    most the total. *)
Theorem deltas_within_counts :
  forall (now w : Z) (s : Store) (k : string),
    store_ok s ->
    get_deltas now w s !! k
      = (if decide (k ∈ known_severities)
         then Some (count_sev k (get_events_in_window now w s)) else None)
    /\ (forall d, get_deltas now w s !! k = Some d ->
          exists c, by_severity (get_dashboard_counts s) !! k = Some c
                    /\ (d <= c)%nat)
    /\ (forall w' d d', w <= w' ->
          get_deltas now w s !! k = Some d ->
          get_deltas now w' s !! k = Some d' -> (d <= d')%nat)
    /\ (sum_known (get_deltas now w s)
        <= length (get_events_in_window now w s))%nat
    /\ (length (get_events_in_window now w s)
        <= total (get_dashboard_counts s))%nat.
Proof.
  intros now w s k _.
  assert (Hd : forall w0, get_deltas now w0 s !! k
                 = if decide (k ∈ known_severities)
                   then Some (count_sev k (get_events_in_window now w0 s))
                   else None)
    by (intros w0; apply counts_lookup).
  split; [apply Hd|]. split; [|split; [|split]].
  - intros d. rewrite Hd. cbn [get_dashboard_counts by_severity].
    rewrite counts_lookup.
    destruct (decide (k ∈ known_severities)); [|discriminate].
    intros Heq; inversion Heq; subst d. eexists. split; [reflexivity|].
    rewrite window_count. apply count_sev_filter_le.
  - intros w' d d' Hw. rewrite !Hd.
    destruct (decide (k ∈ known_severities)); [|discriminate].
    intros H1 H2; inversion H1; inversion H2; subst.
    rewrite !window_count. apply count_sev_filter_mono.
    intros ev. apply in_window_mono. lia.
  - apply sum_known_counts.
  - apply window_length.
Qed.

End WithParser.

Lemma deltas_within_counts_witness :
  @get_deltas sample_fromisoformat 43205000000 15 store_with_intrusion
    !! "malicious"%string = Some 1%nat.
Proof.
  exact (proj1 (deltas_within_counts (P := sample_fromisoformat)
                  43205000000 15 store_with_intrusion "malicious"
                  store_with_intrusion_ok)).
Defined.

End StoreProps.

(* ====================================================================== *)
(** ** The posture of the trailing window *)
(* ====================================================================== *)

Module WindowProps.
Import Classifier Posture State Vocabulary Tables.

Lemma classify_chain_critical (evts : list EventDict) :
  cs_risk (classify_chain evts) = Some "critical"%string
  <-> Some "exploit"%string ∈ map d_stage evts.
Proof.
  destruct evts as [|e0 es].
  - cbn. split; [discriminate | intros Hin; inversion Hin].
  - unfold classify_chain. set (stages := map d_stage (e0 :: es)).
    assert (Hst : stages <> []) by discriminate.
    destruct (forallb _ (distinct [] stages)) eqn:Hall.
    + destruct (AdviceProps.recon_only_stages stages Hst Hall) as [Hr _].
      assert (Hno : Some "exploit"%string ∉ stages).
      { intros Hin. unfold risk_of_stages in Hr.
        destruct (decide (Some "exploit"%string ∈ stages));
          [discriminate Hr | contradiction]. }
      split; [|contradiction].
      intros Hc. exfalso. revert Hc.
      repeat case_decide; destruct (most_common_1 _) as [[k n]|];
        try destruct (1 <? n)%nat; cbn; discriminate.
    + repeat case_decide; destruct (most_common_1 _) as [[k n]|];
        try destruct (1 <? n)%nat; cbn;
        (split; [first [discriminate | intros _; assumption]
                | first [reflexivity | intros; contradiction]]).
Qed.

Lemma in_chains_append x cid ev chains :
  in_chains x (chain_append cid ev chains) <-> x = ev \/ in_chains x chains.
Proof.
  unfold in_chains. induction chains as [|[c evts] chains IH]; cbn [chain_append].
  - split.
    + intros (c & Hc & Hx). apply list_elem_of_singleton in Hc. subst c.
      cbn in Hx. apply list_elem_of_singleton in Hx. now left.
    + intros [->|(c & Hc & _)]; [|inversion Hc].
      exists (cid, [ev]). split; [left | cbn; left].
  - destruct (decide (c = cid)) as [->|Hne].
    + split.
      * intros (c & Hc & Hx). apply elem_of_cons in Hc as [->|Hc].
        -- cbn in Hx. apply elem_of_app in Hx as [Hx|Hx].
           ++ right. exists (cid, evts). split; [left | exact Hx].
           ++ apply list_elem_of_singleton in Hx. now left.
        -- right. exists c. split; [now right | exact Hx].
      * intros [->|(c & Hc & Hx)].
        -- exists (cid, evts ++ [ev]). split; [left|].
           cbn. apply elem_of_app. right. left.
        -- apply elem_of_cons in Hc as [->|Hc].
           ++ exists (cid, evts ++ [ev]). split; [left|].
              cbn in *. apply elem_of_app. now left.
           ++ exists c. split; [now right | exact Hx].
    + split.
      * intros (c0 & Hc & Hx). apply elem_of_cons in Hc as [->|Hc].
        -- right. exists (c, evts). split; [left | exact Hx].
        -- destruct (proj1 IH (ex_intro _ c0 (conj Hc Hx))) as [Hl|(c1 & Hc1 & Hx1)];
             [now left|]. right. exists c1. split; [now right | exact Hx1].
      * intros [->|(c0 & Hc & Hx)].
        -- destruct (proj2 IH (or_introl eq_refl)) as (c1 & Hc1 & Hx1).
           exists c1. split; [now right | exact Hx1].
        -- apply elem_of_cons in Hc as [->|Hc].
           ++ exists (c, evts). split; [left | exact Hx].
           ++ destruct (proj2 IH (or_intror (ex_intro _ c0 (conj Hc Hx))))
                as (c1 & Hc1 & Hx1).
              exists c1. split; [now right | exact Hx1].
Qed.

Lemma in_chains_foldl x (l : list EventDict) : forall acc,
  in_chains x
    (foldl (fun chains ev =>
              if truthy (d_chain_id ev)
              then chain_append (default ""%string (d_chain_id ev)) ev chains
              else chains) acc l)
  <-> in_chains x acc \/ (x ∈ l /\ truthy (d_chain_id x) = true).
Proof.
  induction l as [|ev l IH]; intros acc; cbn [foldl].
  - split; [now left | intros [H|[H _]]; [exact H | inversion H]].
  - rewrite IH. destruct (truthy (d_chain_id ev)) eqn:Ht.
    + rewrite in_chains_append, elem_of_cons. split.
      * intros [[->|H]|[H1 H2]]; [right | now left | right]; split; auto.
      * intros [H|[[->|H1] H2]]; [left; now right | left; now left | right; auto].
    + rewrite elem_of_cons. split.
      * intros [H|[H1 H2]]; [now left | right; auto].
      * intros [H|[[->|H1] H2]]; [now left | congruence | right; auto].
Qed.

(** The members of the groups are the events that carry a chain id. *)
Lemma in_chains_group_by_chain x (l : list EventDict) :
  in_chains x (group_by_chain l) <-> x ∈ l /\ truthy (d_chain_id x) = true.
Proof.
  unfold group_by_chain. rewrite in_chains_foldl. split; [|now right].
  intros [(c & Hc & _)|H]; [inversion Hc | exact H].
Qed.

Section WithParser.
Context {P : IsoParser}.

Lemma critical_chain_iff (recent : list Event) :
  existsb (fun summary => bool_decide (cs_risk summary = Some "critical"%string))
          (map summarize (group_by_chain (map event_dict recent))) = true
  <-> chained_exploit recent.
Proof.
  rewrite PostureProps.critical_test_iff. unfold chained_exploit. split.
  - intros (sm & Hsm & Hr).
    apply list_elem_of_In, List.in_map_iff in Hsm as (c & <- & Hc).
    apply list_elem_of_In in Hc.
    cbn [summarize cs_risk] in Hr. apply classify_chain_critical in Hr.
    apply list_elem_of_In, List.in_map_iff in Hr as (x & Hx & Hin).
    apply list_elem_of_In in Hin.
    assert (Hic : in_chains x (group_by_chain (map event_dict recent)))
      by (exists c; auto).
    apply in_chains_group_by_chain in Hic as [Hxl Ht].
    apply list_elem_of_In, List.in_map_iff in Hxl as (e & <- & He).
    exists e. split; [now apply list_elem_of_In | split; assumption].
  - intros (e & He & Ht & Hs).
    assert (Hic : in_chains (event_dict e)
                    (group_by_chain (map event_dict recent))).
    { apply in_chains_group_by_chain. split; [|exact Ht].
      apply list_elem_of_In, List.in_map, list_elem_of_In, He. }
    destruct Hic as (c & Hc & Hx).
    exists (summarize c). split.
    + apply list_elem_of_In, List.in_map, list_elem_of_In, Hc.
    + cbn [summarize cs_risk]. apply classify_chain_critical.
      apply list_elem_of_In, List.in_map_iff. exists (event_dict e).
      split; [exact Hs | now apply list_elem_of_In].
Qed.

(** An event of a window of at most 30 time units passes the age test of
    the posture engine reading the same clock. *)
Lemma window_event_age now w e :
  w <= 30 -> in_window (now - w * 1000000) e = true ->
  Qle_bool (Posture._seconds_ago now (d_timestamp (event_dict e))) 30 = true.
Proof.
  unfold in_window, Posture._seconds_ago, Posture._parse_ts, event_dict.
  cbn [d_timestamp]. intros Hw.
  destruct (e_timestamp e) as [ts|]; [|discriminate].
  destruct (truthy (Some ts)); [|discriminate].
  destruct (fromisoformat ts) as [t|]; [|discriminate].
  intros Hc. apply Z.leb_le in Hc.
  apply Qle_bool_iff. unfold total_seconds, Qle. simpl. lia.
Qed.

Lemma count_recent_malicious_window now ip (recent : list Event) :
  Forall (fun e => Qle_bool (Posture._seconds_ago now
                               (d_timestamp (event_dict e))) 30 = true) recent ->
  count_recent_malicious now ip (map event_dict recent)
  = match ip with
    | Some i => length (List.filter (malicious_from i) recent)
    | None => 0%nat
    end.
Proof.
  unfold count_recent_malicious.
  induction 1 as [|e recent He _ IH]; [now destruct ip|].
  cbn [map List.filter]. unfold recent_malicious_from at 1. rewrite He.
  cbn [event_dict d_severity d_source_ip]. rewrite andb_true_r.
  destruct ip as [i|].
  - unfold malicious_from at 1.
    destruct (decide (e_severity e = "malicious"%string)) as [Hs|Hs].
    + rewrite (bool_decide_eq_true_2 _ Hs).
      rewrite (bool_decide_eq_true_2 (Some _ = Some _)) by now rewrite Hs.
      destruct (decide (e_source_ip e = i)) as [Hi|Hi].
      * rewrite (bool_decide_eq_true_2 _ Hi).
        rewrite (bool_decide_eq_true_2 (Some _ = Some _)) by now rewrite Hi.
        cbn. now rewrite IH.
      * rewrite (bool_decide_eq_false_2 _ Hi).
        rewrite (bool_decide_eq_false_2 (Some _ = Some _)) by congruence.
        cbn. exact IH.
    + rewrite (bool_decide_eq_false_2 _ Hs).
      rewrite (bool_decide_eq_false_2 (Some _ = Some _)) by congruence.
      cbn. exact IH.
  - rewrite (bool_decide_eq_false_2 (Some _ = None)) by discriminate.
    rewrite andb_false_r. exact IH.
Qed.

Lemma repeated_window_iff now (recent : list Event) :
  Forall (fun e => Qle_bool (Posture._seconds_ago now
                               (d_timestamp (event_dict e))) 30 = true) recent ->
  any_repeated (malicious_ips now (map event_dict recent)) = true
  <-> repeated_malicious recent.
Proof.
  intros Hrec. rewrite PostureProps.any_repeated_occurrences.
  unfold repeated_malicious. split.
  - intros [ip Hip]. rewrite PostureProps.occurrences_malicious_ips in Hip.
    rewrite (count_recent_malicious_window _ _ _ Hrec) in Hip.
    destruct ip as [i|]; [now exists i | lia].
  - intros [i Hi]. exists (Some i).
    rewrite PostureProps.occurrences_malicious_ips.
    now rewrite (count_recent_malicious_window _ _ _ Hrec).
Qed.

Lemma benign_window_iff (recent : list Event) :
  forallb (fun evt => bool_decide (d_severity evt = Some "benign"%string))
          (map event_dict recent) = true
  <-> all_benign recent.
Proof.
  rewrite PostureProps.benign_test_iff. unfold all_benign. split.
  - intros Hall e He.
    assert (Hd : event_dict e ∈ map event_dict recent)
      by (apply list_elem_of_In, List.in_map, list_elem_of_In, He).
    specialize (Hall _ Hd). cbn in Hall. congruence.
  - intros Hall evt Hevt.
    apply list_elem_of_In, List.in_map_iff in Hevt as (e & <- & He).
    cbn. f_equal. apply Hall. now apply list_elem_of_In.
Qed.

(** With a window of at most 30 time units, the posture of a store is
    decided by the events of the window alone: LOCKDOWN when one of them
    belongs to a chain and is at the exploit stage; failing that, RESTRICT
    when two or more malicious ones share a source address; failing that,
    MONITOR when all are benign, and ELEVATED otherwise.  The age test of
    the posture engine never removes an event of such a window. *)
Theorem posture_of_window :
  forall (now w : Z) (s : Store),
    store_ok s -> w <= 30 ->
    let recent := get_events_in_window now w s in
    (chained_exploit recent -> get_posture now w s = "LOCKDOWN"%string)
    /\ (~ chained_exploit recent -> repeated_malicious recent ->
        get_posture now w s = "RESTRICT"%string)
    /\ (~ chained_exploit recent -> ~ repeated_malicious recent ->
        all_benign recent -> get_posture now w s = "MONITOR"%string)
    /\ (~ chained_exploit recent -> ~ repeated_malicious recent ->
        ~ all_benign recent -> get_posture now w s = "ELEVATED"%string).
Proof.
  intros now w s _ Hw recent.
  assert (Hrec : Forall (fun e => Qle_bool (Posture._seconds_ago now
                     (d_timestamp (event_dict e))) 30 = true) recent).
  { apply Forall_forall. intros e He.
    apply DashboardProps.window_elem in He as [_ He].
    now apply (window_event_age now w). }
  pose proof (critical_chain_iff recent) as Hcrit.
  pose proof (repeated_window_iff now recent Hrec) as Hrep.
  pose proof (benign_window_iff recent) as Hben.
  unfold get_posture, determine_posture. fold recent.
  destruct (existsb _ (map summarize _)).
  - repeat split; try reflexivity; intros Hn; exfalso; apply Hn, Hcrit;
      reflexivity.
  - destruct (any_repeated _).
    + repeat split; try reflexivity.
      * intros Hc. apply Hcrit in Hc. discriminate Hc.
      * intros _ Hn. exfalso. apply Hn, Hrep. reflexivity.
      * intros _ Hn. exfalso. apply Hn, Hrep. reflexivity.
    + destruct (forallb _ (map event_dict recent)).
      * repeat split; try reflexivity.
        -- intros Hc. apply Hcrit in Hc. discriminate Hc.
        -- intros _ Hr. apply Hrep in Hr. discriminate Hr.
        -- intros _ _ Hn. exfalso. apply Hn, Hben. reflexivity.
      * repeat split; try reflexivity.
        -- intros Hc. apply Hcrit in Hc. discriminate Hc.
        -- intros _ Hr. apply Hrep in Hr. discriminate Hr.
        -- intros _ _ Hb. apply Hben in Hb. discriminate Hb.
Qed.

End WithParser.

Lemma posture_of_window_witness :
  @get_posture sample_fromisoformat 43205000000 15 store_with_intrusion
  = "ELEVATED"%string.
Proof.
  destruct (posture_of_window (P := sample_fromisoformat) 43205000000 15
              store_with_intrusion StoreProps.store_with_intrusion_ok
              ltac:(lia)) as (_ & _ & _ & H).
  assert (Hrecent : @get_events_in_window sample_fromisoformat 43205000000 15
                      store_with_intrusion = [set_id 1 sample_intrusion])
    by (vm_compute; reflexivity).
  apply H; rewrite Hrecent.
  - intros (e & He & _ & Hs). apply list_elem_of_singleton in He. subst e.
    discriminate Hs.
  - intros [ip Hip]. cbn [List.filter] in Hip.
    destruct (malicious_from ip _); cbn in Hip; lia.
  - intros Hb. specialize (Hb _ ltac:(left)). discriminate Hb.
Defined.

Section Listing.
Context {P : IsoParser}.



End Listing.


End WindowProps.

(* ====================================================================== *)
(** ** The scenarios the attack engine generates *)
(* ====================================================================== *)

Module ScenarioProps.
Import Classifier AttackEngine Vocabulary Tables.

Lemma map_snd_zip {A B} (l1 : list A) : forall l2 : list B,
  (length l2 <= length l1)%nat -> map snd (zip l1 l2) = l2.
Proof.
  induction l1 as [|a l1 IH]; intros [|b l2] Hl; cbn in *;
    try reflexivity; try lia.
  f_equal. apply IH. lia.
Qed.

Lemma map_fst_zip {A B} (l1 : list A) : forall l2 : list B,
  (length l1 <= length l2)%nat -> map fst (zip l1 l2) = l1.
Proof.
  induction l1 as [|a l1 IH]; intros [|b l2] Hl; cbn in *;
    try reflexivity; try lia.
  f_equal. apply IH. lia.
Qed.

Lemma length_delays duration (count : nat) :
  length (if (count =? 1)%nat then [0%Q]
          else map (fun i => (inject_Z (Z.of_nat i)
                              * (duration / inject_Z (Z.of_nat count - 1)))%Q)
                   (seq 0 count)) = count.
Proof.
  destruct (Nat.eqb_spec count 1) as [->|_]; [reflexivity|].
  now rewrite length_map, length_seq.
Qed.

(** The plan pairs the events it was given, in order, with the delays. *)
Lemma build_plan_events duration cid ip port surf events :
  scenario_events (_build_attack_plan duration cid ip port surf events)
  = events.
Proof.
  unfold scenario_events, _build_attack_plan.
  destruct events as [|e0 es] eqn:Hev; [reflexivity|]. rewrite <- Hev.
  cbn [ap_plan]. rewrite List.map_map.
  rewrite (List.map_ext _ snd) by (intros [dl ev]; reflexivity).
  apply map_snd_zip. now rewrite length_delays.
Qed.

Lemma stage_sequence_cases (len : Z) (extra : bool) :
  3 <= len <= 5 ->
  exists a b : nat,
    (1 <= a <= 2)%nat /\ (1 <= b <= 2)%nat
    /\ _build_stage_sequence len extra
       = replicate a "recon"%string ++ ["intrusion"%string]
         ++ replicate b "exploit"%string
    /\ length (_build_stage_sequence len extra) = Z.to_nat len.
Proof.
  intros Hlen.
  assert (Hc : len = 3 \/ len = 4 \/ len = 5) by lia.
  destruct Hc as [ -> | [ -> | -> ]];
    [exists 1%nat, 1%nat| |exists 2%nat, 2%nat];
    [|destruct extra; [exists 2%nat, 1%nat | exists 1%nat, 2%nat]|];
    cbn; repeat split; lia.
Qed.

(** The events of a scenario are built, stage by stage, from the drawn
    templates. *)
Lemma scenario_events_eq (d : Draws) :
  scenario_events (generate_attack_scenario d)
  = map (fun '(stage, tpl) =>
           _build_event_from_template (dr_created_iso d)
             (_severity_for_stage stage) stage (dr_chain_id d) (t_raw tpl)
             (t_parsed tpl) (dr_source_ip d) (dr_dest_port d))
        (zip (_build_stage_sequence (dr_length d) (dr_extra_recon d))
             (dr_templates d)).
Proof. unfold generate_attack_scenario. apply build_plan_events. Qed.

(** Every scenario is one coherent chain: three to five events, as many as
    the length drawn, all from the same source address to the same port
    under the same chain id, in phase attack, without an id yet; one or
    two recon steps, then one intrusion, then one or two exploit steps,
    with severities suspicious, malicious and critical respectively; each
    event carries the text and details of the template drawn for its
    stage; and the chain as a whole is classified critical. *)
Theorem scenario_is_one_ordered_chain :
  forall d : Draws,
    draws_ok d ->
    let evs := scenario_events (generate_attack_scenario d) in
    length evs = Z.to_nat (dr_length d)
    /\ Forall (fun ev =>
                 e_id ev = Some 0
                 /\ e_timestamp ev = Some (dr_created_iso d)
                 /\ e_source_ip ev = dr_source_ip d
                 /\ e_dest_port ev = dr_dest_port d
                 /\ e_chain_id ev = Some (dr_chain_id d)
                 /\ e_phase ev = "attack"%string
                 /\ e_stage ev = Some (e_category ev)
                 /\ e_severity ev = _severity_for_stage (e_category ev)) evs
    /\ (exists a b : nat,
          (1 <= a <= 2)%nat /\ (1 <= b <= 2)%nat
          /\ map e_category evs
             = replicate a "recon"%string ++ ["intrusion"%string]
               ++ replicate b "exploit"%string
          /\ map e_severity evs
             = replicate a "suspicious"%string ++ ["malicious"%string]
               ++ replicate b "critical"%string)
    /\ map (fun ev => (e_raw ev, e_parsed ev)) evs
       = map (fun tpl => (t_raw tpl, t_parsed tpl)) (dr_templates d)
    /\ cs_risk (classify_chain (map event_dict evs)) = Some "critical"%string.
Proof.
  intros d [Hlen Htpl] evs. subst evs. rewrite scenario_events_eq.
  destruct (stage_sequence_cases (dr_length d) (dr_extra_recon d) Hlen)
    as (a & b & Ha & Hb & Hseq & Hlseq).
  set (stages := _build_stage_sequence (dr_length d) (dr_extra_recon d)) in *.
  set (build := fun '(stage, tpl) => _build_event_from_template _ _ _ _ _ _ _ _).
  assert (Hcat : map e_category (map build (zip stages (dr_templates d)))
                 = stages).
  { rewrite List.map_map.
    rewrite (List.map_ext _ fst) by (intros [st tpl]; reflexivity).
    apply map_fst_zip. lia. }
  assert (Hsev : map e_severity (map build (zip stages (dr_templates d)))
                 = map _severity_for_stage stages).
  { rewrite <- Hcat at 2. rewrite !List.map_map.
    apply List.map_ext. intros [st tpl]. reflexivity. }
  split; [|split; [|split; [|split]]].
  - rewrite length_map, length_zip. lia.
  - apply Forall_forall. intros ev Hev.
    apply list_elem_of_In, List.in_map_iff in Hev as ([st tpl] & <- & _).
    cbn. repeat split.
  - exists a, b. split; [exact Ha|]. split; [exact Hb|].
    rewrite Hcat, Hsev, Hseq. split; [reflexivity|].
    destruct Ha as [Ha1 Ha2], Hb as [Hb1 Hb2].
    destruct a as [|[|[|a]]]; try lia; destruct b as [|[|[|b]]]; try lia;
      reflexivity.
  - rewrite List.map_map.
    rewrite (List.map_ext _ (fun x => (t_raw x.2, t_parsed x.2)))
      by (intros [st tpl]; reflexivity).
    rewrite <- (List.map_map snd (fun tpl => (t_raw tpl, t_parsed tpl))).
    f_equal. apply map_snd_zip. lia.
  - apply WindowProps.classify_chain_critical.
    rewrite !List.map_map.
    rewrite (List.map_ext _ (fun x => Some (fst x)))
      by (intros [st tpl]; reflexivity).
    rewrite <- (List.map_map fst Some), map_fst_zip by lia.
    rewrite Hseq. apply list_elem_of_In, List.in_map_iff.
    exists "exploit"%string. split; [reflexivity|].
    apply List.in_or_app. right. right.
    destruct b as [|b]; [lia | left; reflexivity].
Qed.

Lemma scenario_is_one_ordered_chain_witness :
  let evs := scenario_events (generate_attack_scenario (sample_draws 30)) in
  length evs = 3%nat
  /\ cs_risk (classify_chain (map event_dict evs)) = Some "critical"%string.
Proof.
  assert (Hok : draws_ok (sample_draws 30))
    by (split; [cbn; lia | reflexivity]).
  destruct (scenario_is_one_ordered_chain (sample_draws 30) Hok)
    as (Hl & _ & _ & _ & Hc).
  split; [exact Hl | exact Hc].
Defined.

(** *** Timing *)

Lemma nearest_even_lower y : (y - (1 # 2) <= inject_Z (nearest_even y))%Q.
Proof.
  unfold nearest_even. pose proof (Qlt_floor y) as Hf.
  rewrite inject_Z_plus in Hf. change (inject_Z 1) with 1%Q in Hf.
  destruct (y - inject_Z (Qfloor y) ?= 1 # 2)%Q eqn:E;
    GeneratorProps.qcompare_in E.
  - destruct (Z.even _); [lra|].
    rewrite inject_Z_plus. change (inject_Z 1) with 1%Q. lra.
  - lra.
  - rewrite inject_Z_plus. change (inject_Z 1) with 1%Q. lra.
Qed.

(** Decimal rounding rounds down by at most half a unit of the last
    place. *)
Lemma round_half_even_lower scale x :
  (x - (1 # (2 * scale)) <= round_half_even scale x)%Q.
Proof.
  unfold round_half_even.
  pose proof (nearest_even_lower (x * inject_Z (Z.pos scale))) as Hl.
  set (m := nearest_even _) in *.
  rewrite (Qmake_Qdiv m scale).
  apply Qle_shift_div_l; [unfold Qlt; cbn; lia|].
  eapply Qle_trans; [|exact Hl].
  unfold Qminus. rewrite Qmult_plus_distr_l.
  apply Qplus_le_r. unfold Qle, Qmult, Qopp, inject_Z. cbn. lia.
Qed.

Lemma round_half_even_zero scale x :
  (x == 0)%Q -> (round_half_even scale x == 0)%Q.
Proof.
  intros Hx. unfold round_half_even.
  assert (Hy : (x * inject_Z (Z.pos scale) == 0)%Q)
    by (rewrite Hx; apply Qmult_0_l).
  assert (Hn : nearest_even (x * inject_Z (Z.pos scale)) = 0).
  { assert (Hle : (x * inject_Z (Z.pos scale) <= 0)%Q)
      by (rewrite Hy; apply Qle_refl).
    assert (Hge : (0 <= x * inject_Z (Z.pos scale))%Q)
      by (rewrite Hy; apply Qle_refl).
    pose proof (GeneratorProps.nearest_even_mono _ _ Hle) as H1.
    pose proof (GeneratorProps.nearest_even_mono _ _ Hge) as H2.
    change (nearest_even 0) with 0 in H1, H2. lia. }
  rewrite Hn. reflexivity.
Qed.

Lemma scenario_delay_lookup (d : Draws) i dl :
  draws_ok d ->
  scenario_delays (generate_attack_scenario d) !! i = Some dl ->
  dl = round_half_even 1000
         (ideal_delay (dr_duration d) (Z.to_nat (dr_length d)) i)
  /\ (i < Z.to_nat (dr_length d))%nat.
Proof.
  intros [Hlen Htpl]. unfold scenario_delays.
  rewrite GeneratorProps.lookup_map.
  destruct (ap_plan (generate_attack_scenario d) !! i) as [[dl' ev]|] eqn:Hi;
    [|discriminate].
  cbn. intros Hdl. inversion Hdl; subst dl'. clear Hdl.
  unfold generate_attack_scenario in Hi.
  apply GeneratorProps.build_plan_lookup in Hi as (-> & Hev & _).
  apply lookup_lt_Some in Hev.
  destruct (stage_sequence_cases (dr_length d) (dr_extra_recon d) Hlen)
    as (_ & _ & _ & _ & _ & Hlseq).
  rewrite length_map, length_zip, Hlseq, Htpl, Nat.min_id in *.
  split; [reflexivity | exact Hev].
Qed.

(** The delays of a scenario follow its sampled duration, with room for
    the floating-point arithmetic of the code, which the exact arithmetic
    of the model leaves out: the [i]-th of the [n] delays is
    [i * duration / (n - 1)] up to a thousandth (half a thousandth comes
    from the rounding to three decimals; the same bound holds for the
    rounding of any value within [10^-9] of the exact product, such as the
    binary64 product the code rounds), the first delay is zero, the last is
    the duration up to a thousandth, and two successive delays are at
    least 4.998 apart (the duration is drawn from 20 on, over at most four
    steps), so the delays increase strictly. *)
Theorem scenario_delays_follow_the_duration :
  forall d : Draws,
    draws_ok d -> (20 <= dr_duration d)%Q ->
    let delays := scenario_delays (generate_attack_scenario d) in
    let n := Z.to_nat (dr_length d) in
    length delays = n
    /\ (forall i dl, delays !! i = Some dl ->
          (ideal_delay (dr_duration d) n i - (1 # 1000) <= dl)%Q
          /\ (dl <= ideal_delay (dr_duration d) n i + (1 # 1000))%Q)
    /\ (forall i x,
          (ideal_delay (dr_duration d) n i - (1 # 1000000000) <= x)%Q ->
          (x <= ideal_delay (dr_duration d) n i + (1 # 1000000000))%Q ->
          (ideal_delay (dr_duration d) n i - (1 # 1000)
             <= round_half_even 1000 x)%Q
          /\ (round_half_even 1000 x
                <= ideal_delay (dr_duration d) n i + (1 # 1000))%Q)
    /\ (forall dl, delays !! 0%nat = Some dl -> (dl == 0)%Q)
    /\ (forall dl, delays !! (n - 1)%nat = Some dl ->
          (dr_duration d - (1 # 1000) <= dl)%Q
          /\ (dl <= dr_duration d + (1 # 1000))%Q)
    /\ (forall i di dj, delays !! i = Some di -> delays !! S i = Some dj ->
          (di + (4998 # 1000) <= dj)%Q /\ (di < dj)%Q).
Proof.
  intros d Hok Hdur delays n.
  assert (Hn : (3 <= n <= 5)%nat) by (destruct Hok as [Hl _]; subst n; lia).
  assert (Hbound : forall i dl, delays !! i = Some dl ->
            (ideal_delay (dr_duration d) n i - (1 # 2000) <= dl)%Q
            /\ (dl <= ideal_delay (dr_duration d) n i + (1 # 2000))%Q).
  { intros i dl Hi. apply (scenario_delay_lookup d i dl Hok) in Hi as [-> _].
    split; [apply (round_half_even_lower 1000)
           | apply (GeneratorProps.round_half_even_upper 1000)]. }
  set (k := inject_Z (Z.of_nat n - 1)).
  assert (Hk : (2 <= k)%Q /\ (k <= 4)%Q).
  { subst k. change 2%Q with (inject_Z 2). change 4%Q with (inject_Z 4).
    rewrite <- !Zle_Qle. lia. }
  set (step := (dr_duration d / k)%Q).
  assert (Hkstep : (k * step == dr_duration d)%Q).
  { subst step. apply Qmult_div_r. intros Hz. rewrite Hz in Hk. lra. }
  assert (Hideal : forall i, (ideal_delay (dr_duration d) n i
                              == inject_Z (Z.of_nat i) * step)%Q).
  { intros i. unfold ideal_delay.
    destruct (Nat.eqb_spec n 1) as [Hn1|_]; [lia | reflexivity]. }
  split; [|split; [|split; [|split; [|split]]]].
  - subst delays n. unfold scenario_delays. rewrite length_map.
    rewrite <- (length_map snd).
    fold (scenario_events (generate_attack_scenario d)).
    rewrite scenario_events_eq, length_map, length_zip.
    destruct Hok as [Hlen Htpl].
    destruct (stage_sequence_cases (dr_length d) (dr_extra_recon d) Hlen)
      as (_ & _ & _ & _ & _ & Hlseq).
    rewrite Hlseq, Htpl. lia.
  - intros i dl Hi. destruct (Hbound i dl Hi) as [Hlo Hhi]. split; lra.
  - intros i x Hlo Hhi.
    pose proof (round_half_even_lower 1000 x) as Hrl.
    pose proof (GeneratorProps.round_half_even_upper 1000 x) as Hru.
    change (1 # 2 * 1000)%Q with (1 # 2000)%Q in Hrl, Hru. split; lra.
  - intros dl Hi. apply (scenario_delay_lookup d _ dl Hok) in Hi as [-> _].
    apply round_half_even_zero. fold n. rewrite Hideal.
    change (inject_Z (Z.of_nat 0)) with 0%Q. apply Qmult_0_l.
  - intros dl Hi. destruct (Hbound _ _ Hi) as [Hlo Hhi].
    assert (Hlast : (ideal_delay (dr_duration d) n (n - 1) == dr_duration d)%Q).
    { rewrite Hideal. replace (Z.of_nat (n - 1)) with (Z.of_nat n - 1) by lia.
      exact Hkstep. }
    rewrite Hlast in Hlo, Hhi. split; lra.
  - intros i di dj Hi Hj.
    destruct (Hbound _ _ Hi) as [_ Hhi]. destruct (Hbound _ _ Hj) as [Hlo _].
    rewrite Hideal in Hhi, Hlo.
    replace (Z.of_nat (S i)) with (Z.of_nat i + 1) in Hlo by lia.
    rewrite inject_Z_plus in Hlo. change (inject_Z 1) with 1%Q in Hlo.
    rewrite Qmult_plus_distr_l, Qmult_1_l in Hlo.
    assert (Hstep : (5 <= step)%Q).
    { subst step. apply Qle_shift_div_l; [lra|]. lra. }
    set (a := (inject_Z (Z.of_nat i) * step)%Q) in *. split; lra.
Qed.

Lemma scenario_delays_follow_the_duration_witness :
  exists d1 d2,
    scenario_delays (generate_attack_scenario (sample_draws 30))
      = [d1; d2; 30.000%Q]
    /\ (d1 == 0)%Q /\ (d2 == 15)%Q
    /\ (30 - (1 # 1000) <= 30.000)%Q /\ (30.000 <= 30 + (1 # 1000))%Q
    /\ (d2 < 30.000)%Q.
Proof.
  assert (Hok : draws_ok (sample_draws 30))
    by (split; [cbn; lia | reflexivity]).
  assert (Hdur : (20 <= dr_duration (sample_draws 30))%Q)
    by (unfold Qle; cbn; lia).
  destruct (scenario_delays_follow_the_duration (sample_draws 30) Hok Hdur)
    as (_ & _ & _ & Hfirst & Hlast & Hgap).
  assert (Hd : scenario_delays (generate_attack_scenario (sample_draws 30))
               = [0.000; 15.000; 30.000]%Q) by (vm_compute; reflexivity).
  rewrite Hd in Hfirst, Hlast, Hgap.
  exists 0.000%Q, 15.000%Q. split; [exact Hd|].
  split; [apply Hfirst; reflexivity|].
  split; [vm_compute; reflexivity|].
  destruct (Hlast 30.000%Q eq_refl) as [Hlo Hhi].
  split; [exact Hlo|]. split; [exact Hhi|].
  exact (proj2 (Hgap 1%nat 15.000%Q 30.000%Q eq_refl eq_refl)).
Defined.

End ScenarioProps.

(* ====================================================================== *)
(** ** From an accepted request to the store *)
(* ====================================================================== *)

Module DeliveryProps.
Import State AttackEngine Main Vocabulary Tables.

Lemma add_event_fresh stamp e s :
  lacks_id e = true ->
  add_event stamp (set_timestamp stamp e) s
  = (set_id (_event_counter s + 1) (set_timestamp stamp e),
     mkStore (deque_append _MAX_EVENTS (_events s)
                (set_id (_event_counter s + 1) (set_timestamp stamp e)))
             (_event_counter s + 1)).
Proof.
  intros Hl. unfold add_event.
  change (lacks_id (set_timestamp stamp e)) with (lacks_id e). rewrite Hl.
  cbn [next_event_id _events _event_counter]. unfold _ensure_timestamp.
  destruct (truthy _); reflexivity.
Qed.

Lemma stored_as_cons c stamp e evs :
  stored_as c stamp (e :: evs)
  = set_id (c + 1) (set_timestamp stamp e) :: stored_as (c + 1) stamp evs.
Proof.
  unfold stored_as. cbn [imap]. f_equal; [now rewrite Z.add_0_r|].
  apply imap_ext. intros j x _. cbn. f_equal. lia.
Qed.

(** Storing stamped events that arrive without an id: each gets the next
    counter value, and the buffer is the tail of what it held followed by
    the new events. *)
Lemma store_all_fresh stamp evs : forall s,
  Forall (fun e => lacks_id e = true) evs ->
  (length (_events s) <= _MAX_EVENTS)%nat ->
  let s' := store_all (real_add stamp) (map (set_timestamp stamp) evs) s in
  _event_counter s' = _event_counter s + Z.of_nat (length evs)
  /\ _events s'
     = drop (length (_events s) + length evs - _MAX_EVENTS)
            (_events s ++ stored_as (_event_counter s) stamp evs)
  /\ (length (_events s') <= _MAX_EVENTS)%nat.
Proof.
  induction evs as [|e evs IH]; intros s Hall Hlen; cbn zeta.
  - cbn. rewrite app_nil_r, Nat.add_0_r.
    replace (length (_events s) - _MAX_EVENTS)%nat with 0%nat by lia.
    repeat split; [lia | exact Hlen].
  - apply Forall_cons in Hall as [He Hall].
    set (x := set_id (_event_counter s + 1) (set_timestamp stamp e)).
    set (s1 := mkStore (deque_append _MAX_EVENTS (_events s) x)
                       (_event_counter s + 1)).
    assert (Hs1 : swallow (real_add stamp (set_timestamp stamp e) s) = s1)
      by (unfold real_add; rewrite (add_event_fresh stamp e s He);
          reflexivity).
    change (store_all (real_add stamp) (map (set_timestamp stamp) (e :: evs)) s)
      with (store_all (real_add stamp) (map (set_timestamp stamp) evs)
              (swallow (real_add stamp (set_timestamp stamp e) s))).
    rewrite Hs1.
    assert (Hl1 : length (_events s1) = Nat.min (S (length (_events s)))
                                               _MAX_EVENTS)
      by (apply StateProps.length_deque_append; exact Hlen).
    assert (Hlen1 : (length (_events s1) <= _MAX_EVENTS)%nat) by lia.
    destruct (IH s1 Hall Hlen1) as (Hc & Hb & Hl).
    split; [|split; [|exact Hl]].
    + rewrite Hc. cbn [s1 _event_counter length]. lia.
    + rewrite Hb, stored_as_cons. fold x. cbn [s1 _events _event_counter] in *.
      rewrite (StateProps.deque_append_drop _ _ _ Hlen) in *.
      rewrite length_drop, length_app in Hl1. cbn [length] in *.
      rewrite length_app. cbn [length].
      rewrite <- drop_app_le by (rewrite length_app; cbn; lia).
      rewrite drop_drop, <- app_assoc. cbn [app].
      rewrite length_drop, !length_app. cbn [length]. f_equal. lia.
Qed.

Lemma imap_map_const {A B C} (g : A -> B) (h : A -> C) (l : list A) :
  forall f : nat -> B -> C,
    (forall i a, f i (g a) = h a) -> imap f (map g l) = map h l.
Proof.
  induction l as [|a l IH]; intros f Hf; [reflexivity|].
  cbn. rewrite Hf. f_equal. apply IH. intros i b. apply Hf.
Qed.

(** The normalizer hands the generator's entries on unchanged. *)
Lemma normalized_generated_plan sampled (ap : AttackPlan) :
  _normalize_attack_plan sampled (raw_of_plan ap)
  = mkNormalized (Some (ap_chain_id ap)) (ap_duration ap)
      (map (fun x => mkEntry x.1 (Some x.2)) (ap_plan ap)).
Proof.
  unfold raw_of_plan. cbn [_normalize_attack_plan]. f_equal.
  apply imap_map_const. intros i [dl ev]. reflexivity.
Qed.

Lemma stamped_generated stamp (l : list (Q * Event)) :
  stamped stamp (map (fun x => mkEntry x.1 (Some x.2)) l)
  = map (set_timestamp stamp) (map snd l).
Proof.
  unfold stamped. induction l as [|[dl ev] l IH]; [reflexivity|].
  cbn. f_equal. exact IH.
Qed.

Lemma scenario_lacks_ids (d : Draws) :
  Forall (fun e => lacks_id e = true)
         (scenario_events (generate_attack_scenario d)).
Proof.
  rewrite ScenarioProps.scenario_events_eq. apply Forall_forall.
  intros ev Hev.
  apply list_elem_of_In, List.in_map_iff in Hev as ([st tpl] & <- & _).
  reflexivity.
Qed.

Lemma store_all_length stamp evs : forall s,
  (length (_events s) <= _MAX_EVENTS)%nat ->
  (length (_events (store_all (real_add stamp) evs s)) <= _MAX_EVENTS)%nat.
Proof.
  induction evs as [|e evs IH]; intros s Hlen; [exact Hlen|].
  cbn [store_all foldl]. apply IH. unfold real_add. cbn [swallow].
  rewrite StateProps.add_event_buffer, StateProps.length_deque_append; lia.
Qed.

(** An accepted scenario reaches the store.  Below the ceiling, a request
    carrying a generated scenario is scheduled and adds one plan.  A tick
    at or after [start + duration + 0.0005] works through the older plans
    as it would without the new one, then stores every event of the
    scenario, in stage order, stamped with the tick's clock reading and
    numbered with the next counter values, and retires the plan in the
    same tick: the plans left are those the tick would have left without
    it. *)
Theorem accepted_scenario_is_stored_by_a_late_tick :
  forall (d : Draws) (now sampled T : Q) (stamp : string)
         (st : Server) (s : Store),
    draws_ok d -> (0 <= dr_duration d)%Q ->
    (length (_attack_plans st) < MAX_ACTIVE_PLANS)%nat ->
    (length (_events s) <= _MAX_EVENTS)%nat ->
    (now + dr_duration d + (1 # 2000) <= T)%Q ->
    let ap := generate_attack_scenario d in
    let r := request now sampled (raw_of_plan ap) st in
    let before := tick (real_add stamp) T stamp (_attack_plans st) s in
    let after := tick (real_add stamp) T stamp (_attack_plans r.2) s in
    let n := length (scenario_events ap) in
    r.1 = Scheduled (Some (dr_chain_id d))
            (round_half_even 10 (dr_duration d))
            (S (length (_attack_plans st))) MAX_ACTIVE_PLANS
    /\ length (_attack_plans r.2) = S (length (_attack_plans st))
    /\ after.1 = before.1
    /\ _event_counter after.2 = _event_counter before.2 + Z.of_nat n
    /\ _events after.2
       = drop (length (_events before.2) + n - _MAX_EVENTS)
              (_events before.2
               ++ stored_as (_event_counter before.2) stamp
                    (scenario_events ap)).
Proof.
  intros d now sampled T stamp st s Hok Hdur Hceil Hlen HT ap r before after n.
  assert (Hn : n = Z.to_nat (dr_length d)).
  { subst n ap. rewrite ScenarioProps.scenario_events_eq.
    destruct Hok as [Hl Ht].
    destruct (ScenarioProps.stage_sequence_cases (dr_length d)
                (dr_extra_recon d) Hl) as (_ & _ & _ & _ & _ & Hs).
    rewrite length_map, length_zip, Hs, Ht. lia. }
  assert (Hapd : ap_duration ap = dr_duration d
                 /\ ap_chain_id ap = dr_chain_id d).
  { assert (Hne : scenario_events ap <> []).
    { intros He. subst n. rewrite He in Hn. cbn in Hn.
      destruct Hok as [Hl _]. lia. }
    revert Hne. subst ap. rewrite ScenarioProps.scenario_events_eq.
    unfold generate_attack_scenario, _build_attack_plan.
    destruct (map _ (zip _ _)); [congruence | split; reflexivity]. }
  destruct Hapd as [Hapd Hapc].
  set (entries := map (fun x => mkEntry x.1 (Some x.2)) (ap_plan ap)).
  set (p := mkRuntime (Some (dr_chain_id d)) (dr_duration d) entries now 0).
  assert (Hcreate : _create_runtime_plan now sampled (raw_of_plan ap) = Some p).
  { unfold _create_runtime_plan. rewrite normalized_generated_plan.
    cbn [np_plan np_chain_id np_duration]. fold entries.
    rewrite Hapd, Hapc.
    destruct entries eqn:He; [|reflexivity].
    exfalso. assert (Hz : length entries = n)
      by (subst entries n; unfold scenario_events; now rewrite !length_map).
    rewrite He in Hz. cbn in Hz. destruct Hok as [Hl _]. lia. }
  assert (Hr : r = (Scheduled (Some (dr_chain_id d))
                      (round_half_even 10 (dr_duration d))
                      (S (length (_attack_plans st))) MAX_ACTIVE_PLANS,
                    mkServer (_attack_plans st ++ [p]) (_LAST_TRIGGER st)
                             (_TRIGGER_HISTORY st))).
  { subst r. unfold request.
    destruct (Nat.leb_spec MAX_ACTIVE_PLANS (length (_attack_plans st)));
      [lia|].
    rewrite Hcreate. cbn [chain_id duration].
    rewrite length_app. cbn [length]. rewrite Nat.add_1_r. reflexivity. }
  destruct (GeneratorProps.generated_runtime_plan d now sampled p Hdur Hcreate)
    as (_ & _ & _ & _ & Hbound).
  assert (Hdue : due_prefix T p = entries).
  { rewrite (SchedulerProps.due_prefix_all T p (dr_duration d + (1 # 2000))).
    - reflexivity.
    - intros en Hen. destruct (Hbound en Hen) as [Hle _]. exact Hle.
    - change (start_time p) with now. lra. }
  assert (Hemit : emitted T stamp p
                  = map (set_timestamp stamp) (scenario_events ap)).
  { unfold emitted. rewrite Hdue. apply stamped_generated. }
  assert (Hdone : is_done (advance T p) = true).
  { unfold is_done.
    rewrite SchedulerProps.advance_plan, SchedulerProps.advance_index, Hdue.
    change (plan p) with entries. change (index p) with 0%nat.
    apply Nat.leb_le. lia. }
  subst after before. rewrite Hr. cbn [fst snd _attack_plans].
  rewrite !SchedulerProps.tick_spec. cbn [fst snd].
  rewrite List.map_app, List.filter_app, List.flat_map_app.
  cbn [map List.filter flat_map]. rewrite Hdone, !app_nil_r. cbn [negb].
  rewrite !SchedulerProps.store_all_app, Hemit.
  set (s1 := store_all (real_add stamp) (flat_map (emitted T stamp)
                                           (_attack_plans st)) s).
  assert (Hlen1 : (length (_events s1) <= _MAX_EVENTS)%nat)
    by (apply store_all_length; exact Hlen).
  destruct (store_all_fresh stamp (scenario_events ap) s1
              (scenario_lacks_ids d) Hlen1) as (Hc & Hb & _).
  split; [reflexivity|]. split; [rewrite length_app; cbn; lia|].
  split; [reflexivity|]. split; [exact Hc | exact Hb].
Qed.

Lemma accepted_scenario_is_stored_by_a_late_tick_witness :
  let stamp := "2024-05-01T12:00:31"%string in
  let r := request 1000 0
             (raw_of_plan (generate_attack_scenario (sample_draws 30)))
             server_initial in
  let after := tick (real_add stamp) 1031 stamp (_attack_plans r.2) initial in
  status r.1 = "scheduled"%string
  /\ after.1 = []
  /\ _event_counter after.2 = 3.
Proof.
  intros stamp r after.
  assert (Hok : draws_ok (sample_draws 30))
    by (split; [cbn; lia | reflexivity]).
  assert (Hdur : (0 <= dr_duration (sample_draws 30))%Q)
    by (unfold Qle; cbn; lia).
  assert (Hceil : (length (_attack_plans server_initial) < MAX_ACTIVE_PLANS)%nat)
    by (unfold MAX_ACTIVE_PLANS; cbn; lia).
  assert (Hlen : (length (_events initial) <= _MAX_EVENTS)%nat)
    by (unfold _MAX_EVENTS; cbn; lia).
  assert (HT : (1000 + dr_duration (sample_draws 30) + (1 # 2000) <= 1031)%Q)
    by (unfold Qle; cbn; lia).
  destruct (accepted_scenario_is_stored_by_a_late_tick (sample_draws 30)
              1000 0 1031 stamp server_initial initial Hok Hdur Hceil Hlen HT)
    as (Hr & _ & Hplans & Hc & _).
  split; [exact (f_equal status Hr)|].
  split; [exact Hplans | exact Hc].
Defined.

End DeliveryProps.

(* ====================================================================== *)
(** ** Successive ticks *)
(* ====================================================================== *)

Module TickProps.
Import Main Vocabulary Tables.

Lemma take_while_twice {A} (f g : A -> bool) (l : list A) :
  (forall x, f x = true -> g x = true) ->
  take_while g l
  = take_while f l ++ take_while g (drop (length (take_while f l)) l).
Proof.
  intros Hfg. induction l as [|x l IH]; [reflexivity|].
  cbn [take_while]. destruct (f x) eqn:Hf.
  - rewrite (Hfg x Hf). cbn [length drop app]. f_equal. exact IH.
  - reflexivity.
Qed.

Lemma due_mono t1 t2 start en :
  (t1 <= t2)%Q -> due t1 start en = true -> due t2 start en = true.
Proof.
  intros Ht H. apply SchedulerProps.due_iff in H.
  apply SchedulerProps.due_iff. lra.
Qed.

(** What two successive ticks walk over is what the later one alone would
    have walked over. *)
Lemma due_prefix_twice t1 t2 p :
  (t1 <= t2)%Q ->
  due_prefix t1 p ++ due_prefix t2 (advance t1 p) = due_prefix t2 p.
Proof.
  intros Ht. unfold due_prefix at 2 3. unfold advance at 1 2.
  cbn [set_index start_time index plan].
  rewrite <- drop_drop. symmetry.
  apply (take_while_twice (due t1 (start_time p)) (due t2 (start_time p))).
  intros en. apply due_mono. exact Ht.
Qed.

Lemma advance_twice t1 t2 p :
  (t1 <= t2)%Q -> advance t2 (advance t1 p) = advance t2 p.
Proof.
  intros Ht. unfold advance at 1 3.
  rewrite <- (due_prefix_twice t1 t2 p Ht), length_app.
  unfold advance, set_index. cbn [chain_id duration plan start_time index].
  f_equal. lia.
Qed.

Lemma done_stays_done t p :
  is_done p = true -> due_prefix t p = [] /\ is_done (advance t p) = true.
Proof.
  unfold is_done. intros Hd. apply Nat.leb_le in Hd.
  assert (He : due_prefix t p = []).
  { unfold due_prefix. rewrite drop_ge by exact Hd. reflexivity. }
  split; [exact He|]. unfold advance. rewrite He.
  cbn [set_index plan index length]. apply Nat.leb_le. lia.
Qed.

Lemma surviving_plans_twice t1 t2 (plans : list RuntimePlan) :
  (t1 <= t2)%Q ->
  List.filter (fun p => negb (is_done p))
    (map (advance t2)
       (List.filter (fun p => negb (is_done p)) (map (advance t1) plans)))
  = List.filter (fun p => negb (is_done p)) (map (advance t2) plans).
Proof.
  intros Ht. induction plans as [|p plans IH]; [reflexivity|].
  cbn [map List.filter].
  destruct (is_done (advance t1 p)) eqn:Hd; cbn [negb].
  - destruct (done_stays_done t2 _ Hd) as [_ Hd2].
    rewrite (advance_twice t1 t2 p Ht) in Hd2. rewrite Hd2. cbn [negb].
    exact IH.
  - cbn [map List.filter]. rewrite (advance_twice t1 t2 p Ht), IH.
    reflexivity.
Qed.

Lemma take_while_take {A} (f : A -> bool) (l : list A) :
  take_while f l = take (length (take_while f l)) l
  /\ Forall (fun x => f x = true) (take_while f l)
  /\ (forall x, l !! length (take_while f l) = Some x -> f x = false).
Proof.
  induction l as [|x l (Htake & Hall & Hnext)]; cbn [take_while].
  - repeat split; [constructor | discriminate].
  - destruct (f x) eqn:Hx; cbn [length take].
    + split; [now f_equal|]. split; [now constructor | exact Hnext].
    + split; [reflexivity|]. split; [constructor|].
      intros y Hy. cbn in Hy. inversion Hy; subst y. exact Hx.
Qed.

Lemma due_prefix_take t p :
  let k := length (due_prefix t p) in
  due_prefix t p = take k (drop (index p) (plan p))
  /\ Forall (fun en => (start_time p + delay en <= t)%Q)
            (take k (drop (index p) (plan p)))
  /\ (forall en, drop (index p) (plan p) !! k = Some en ->
                 (t < start_time p + delay en)%Q).
Proof.
  intros k. subst k. unfold due_prefix.
  destruct (take_while_take (due t (start_time p)) (drop (index p) (plan p)))
    as (Htake & Hall & Hnext).
  split; [exact Htake|]. split.
  - rewrite <- Htake. eapply Forall_impl; [exact Hall|].
    intros en. apply SchedulerProps.due_iff.
  - intros en Hen. apply SchedulerProps.due_false_iff. now apply Hnext.
Qed.

(** How often the scheduler ticks makes no difference to what has been
    handed to the store by a given time.  Take a store that logs every
    event it is handed (and raises on any chosen events), one active plan,
    and two ticks at [t1 <= t2].  The first tick hands over the stamped
    events of the first [k1] pending entries, all due at [t1], the next
    pending entry not being due at [t1]; the second tick hands over the
    events of the next [k2] entries and nothing else; and together the
    [k1 + k2] entries are exactly what a single tick at [t2] hands over:
    the longest run of pending entries due at [t2], each once and in plan
    order.  The plan is left with its cursor at [index + k1 + k2], or
    retired when that is the end of the plan, in both runs alike.  For any
    number of plans and any store, the plans left after the two ticks are
    those the later tick alone leaves. *)
Theorem tick_frequency_is_immaterial :
  forall (t1 t2 : Q) (stamp1 stamp2 : string) (p : RuntimePlan)
         (bad : Event -> bool) (log0 : list Event),
    (t1 <= t2)%Q ->
    let pending := drop (index p) (plan p) in
    let first := tick (logging_add bad) t1 stamp1 [p] log0 in
    let second := tick (logging_add bad) t2 stamp2 first.1 first.2 in
    let single := tick (logging_add bad) t2 stamp2 [p] log0 in
    (exists k1 k2 : nat,
        first.2 = log0 ++ stamped stamp1 (take k1 pending)
        /\ second.2 = log0 ++ stamped stamp1 (take k1 pending)
                           ++ stamped stamp2 (take k2 (drop k1 pending))
        /\ single.2 = log0 ++ stamped stamp2 (take (k1 + k2) pending)
        /\ Forall (fun en => (start_time p + delay en <= t1)%Q)
                  (take k1 pending)
        /\ (forall en, pending !! k1 = Some en ->
                       (t1 < start_time p + delay en)%Q)
        /\ Forall (fun en => (start_time p + delay en <= t2)%Q)
                  (take (k1 + k2) pending)
        /\ (forall en, pending !! (k1 + k2)%nat = Some en ->
                       (t2 < start_time p + delay en)%Q)
        /\ second.1 = single.1
        /\ map plan_fields single.1
           = if (index p + (k1 + k2) <? length (plan p))%nat
             then [(chain_id p, duration p, plan p, start_time p,
                    (index p + (k1 + k2))%nat)]
             else [])
    /\ (forall (St : Type) (store_add1 store_add2 : Event -> St -> Outcome St)
               (plans : list RuntimePlan) (s s' : St),
          (tick store_add2 t2 stamp2
             (tick store_add1 t1 stamp1 plans s).1 s').1
          = (tick store_add2 t2 stamp2 plans s').1).
Proof.
  intros t1 t2 stamp1 stamp2 p bad log0 Ht pending first second single.
  split.
  - exists (length (due_prefix t1 p)),
           (length (due_prefix t2 (advance t1 p))).
    destruct (due_prefix_take t1 p) as (Hk1 & Hdue1 & Hnext1).
    destruct (due_prefix_take t2 p) as (Hk & Hdue & Hnext).
    destruct (due_prefix_take t2 (advance t1 p)) as (Hk2 & _ & _).
    cbv zeta in Hk1, Hdue1, Hnext1, Hk, Hdue, Hnext, Hk2.
    rewrite SchedulerProps.advance_plan, SchedulerProps.advance_index,
      <- drop_drop in Hk2.
    fold pending in Hk1, Hdue1, Hnext1, Hk, Hdue, Hnext, Hk2.
    assert (Hsum : length (due_prefix t2 p)
                   = (length (due_prefix t1 p)
                      + length (due_prefix t2 (advance t1 p)))%nat).
    { rewrite <- (due_prefix_twice t1 t2 p Ht). apply length_app. }
    rewrite Hsum in Hk, Hdue, Hnext.
    assert (Hfirst : first
              = (List.filter (fun q => negb (is_done q)) [advance t1 p],
                 log0 ++ stamped stamp1 (due_prefix t1 p))).
    { subst first. rewrite SchedulerProps.tick_spec.
      cbn [map flat_map]. rewrite app_nil_r.
      now rewrite SchedulerProps.logging_store_keeps_every_call. }
    assert (Hsingle : single
              = (List.filter (fun q => negb (is_done q)) [advance t2 p],
                 log0 ++ stamped stamp2 (due_prefix t2 p))).
    { subst single. rewrite SchedulerProps.tick_spec.
      cbn [map flat_map]. rewrite app_nil_r.
      now rewrite SchedulerProps.logging_store_keeps_every_call. }
    assert (Hsecond : second.2
              = first.2 ++ stamped stamp2 (due_prefix t2 (advance t1 p))).
    { subst second. rewrite SchedulerProps.tick_spec. cbn [snd].
      rewrite SchedulerProps.logging_store_keeps_every_call. f_equal.
      rewrite Hfirst. cbn [fst List.filter].
      destruct (is_done (advance t1 p)) eqn:Hd; cbn [negb flat_map].
      - destruct (done_stays_done t2 _ Hd) as [He _]. now rewrite He.
      - unfold emitted. now rewrite app_nil_r. }
    split; [rewrite Hfirst; cbn [snd]; now rewrite <- Hk1|].
    split.
    { rewrite Hsecond, Hfirst. cbn [snd].
      now rewrite <- Hk1, <- Hk2, <- app_assoc. }
    split; [rewrite Hsingle; cbn [snd]; now rewrite <- Hk|].
    split; [exact Hdue1|]. split; [exact Hnext1|].
    split; [exact Hdue|]. split; [exact Hnext|]. split.
    + subst second first single. rewrite !SchedulerProps.tick_spec.
      cbn [fst]. apply surviving_plans_twice. exact Ht.
    + subst single. rewrite SchedulerProps.tick_plans_fields.
      cbn [List.filter]. rewrite Hsum.
      destruct (_ <? _)%nat; cbn [map]; rewrite ?Hsum; reflexivity.
  - intros St store_add1 store_add2 plans s s'.
    rewrite !SchedulerProps.tick_spec. cbn [fst].
    apply surviving_plans_twice. exact Ht.
Qed.

Lemma tick_frequency_is_immaterial_witness :
  let never := fun _ : Event => false in
  exists p,
    sample_runtime_plan = Some p
    /\ map e_category
         (tick (logging_add never) 1010.5 "2024-05-01T12:00:10"
            (tick (logging_add never) 1000 "2024-05-01T12:00:00" [p] []).1
            (tick (logging_add never) 1000 "2024-05-01T12:00:00" [p] []).2).2
       = ["recon"; "intrusion"]%string
    /\ map e_category
         (tick (logging_add never) 1010.5 "2024-05-01T12:00:10" [p] []).2
       = ["recon"; "intrusion"]%string
    /\ map index
         (tick (logging_add never) 1010.5 "2024-05-01T12:00:10"
            (tick (logging_add never) 1000 "2024-05-01T12:00:00" [p] []).1
            (tick (logging_add never) 1000 "2024-05-01T12:00:00" [p] []).2).1
       = [2%nat].
Proof.
  intros never. eexists. split; [vm_compute; reflexivity|].
  match goal with |- map _ (tick _ _ _ (tick _ _ _ [?q] _).1 _).2 = _ /\ _ =>
    set (p := q) end.
  assert (Ht : (1000 <= 1010.5)%Q) by (unfold Qle; cbn; lia).
  destruct (tick_frequency_is_immaterial 1000 1010.5
              "2024-05-01T12:00:00" "2024-05-01T12:00:10" p never [] Ht)
    as ((k1 & k2 & _ & _ & _ & _ & _ & _ & _ & Hplans & _) & _).
  split; [vm_compute; reflexivity|]. split; [vm_compute; reflexivity|].
  rewrite Hplans. vm_compute. reflexivity.
Defined.

End TickProps.

(* ====================================================================== *)
(** ** Background noise *)
(* ====================================================================== *)

Module NoiseProps.
Import Classifier Posture Recommender State EventGenerator Vocabulary Tables.

Lemma generate_noise_event_is_noise (d : NoiseDraws) :
  is_noise (generate_noise_event d) /\ e_id (generate_noise_event d) = Some 0.
Proof.
  unfold generate_noise_event, choice.
  destruct (_NOISE_TEMPLATES !! nd_template d) as [[raw ty]|];
    [destruct (_COMMON_PORTS !! nd_port d) as [port|] eqn:Hp|];
    (split; [|reflexivity]); repeat split;
    try (cbn [e_dest_port]; unfold _COMMON_PORTS; set_solver).
  cbn [e_dest_port]. eapply list_elem_of_lookup_2. exact Hp.
Qed.

Lemma add_event_is_noise now e s :
  is_noise e -> is_noise (add_event now e s).1.
Proof.
  intros He. unfold add_event.
  destruct (lacks_id e); cbn [next_event_id fst];
    unfold _ensure_timestamp; destruct (truthy _); exact He.
Qed.

Lemma add_events_is_noise calls : forall s,
  Forall is_noise (map snd calls) -> Forall is_noise (_events s) ->
  Forall is_noise (_events (add_events calls s).2).
Proof.
  induction calls as [|[now e] calls IH]; intros s Hc Hs; [exact Hs|].
  cbn [map snd] in Hc. apply Forall_cons in Hc as [He Hc].
  rewrite StateProps.add_events_cons. cbn [snd]. apply IH; [exact Hc|].
  rewrite StateProps.add_event_buffer.
  apply StoreProps.Forall_deque_append; [exact Hs|].
  now apply add_event_is_noise.
Qed.

Lemma count_sev_all k (l : list Event) :
  Forall (fun e => e_severity e = k) l -> count_sev k l = length l.
Proof.
  induction 1 as [|e l He _ IH]; [reflexivity|].
  cbn [count_sev length]. rewrite IH. destruct (decide (e_severity e = k));
    [reflexivity | contradiction].
Qed.

Lemma chains_unchained (l : list EventDict) : forall acc,
  Forall (fun ev => d_chain_id ev = None) l ->
  foldl (fun chains ev =>
           if truthy (d_chain_id ev)
           then chain_append (default ""%string (d_chain_id ev)) ev chains
           else chains) acc l = acc.
Proof.
  induction l as [|ev l IH]; intros acc Hl; cbn [foldl]; [reflexivity|].
  apply Forall_cons in Hl as [Hev Hl]. rewrite Hev. cbn [truthy].
  now apply IH.
Qed.

Lemma group_by_chain_unchained (l : list EventDict) :
  Forall (fun ev => d_chain_id ev = None) l -> group_by_chain l = [].
Proof. apply chains_unchained. Qed.

Section WithParser.
Context {P : IsoParser}.

Lemma malicious_ips_benign now (l : list EventDict) :
  Forall (fun ev => d_severity ev = Some "benign"%string) l ->
  malicious_ips now l = [].
Proof.
  induction 1 as [|ev l He _ IH]; [reflexivity|].
  cbn [malicious_ips]. rewrite He.
  destruct (decide (Some "benign"%string = Some "malicious"%string));
    [discriminate | exact IH].
Qed.

Lemma determine_posture_benign now (l : list EventDict) :
  Forall (fun ev => d_severity ev = Some "benign"%string) l ->
  determine_posture now l [] = "MONITOR"%string.
Proof.
  intros Hl. unfold determine_posture. cbn [existsb].
  rewrite (malicious_ips_benign now l Hl). cbn [any_repeated].
  replace (forallb _ l) with true; [reflexivity|].
  symmetry. apply List.forallb_forall. intros ev Hev.
  apply bool_decide_eq_true_2.
  rewrite Forall_forall in Hl. apply Hl. now apply list_elem_of_In.
Qed.

(** Noise alone never moves the posture.  Every event [generate_noise_event]
    returns, the fallback included, is benign, at stage noise, outside any
    chain, to a common port and without an id.  A store fed by [noise_loop]
    only holds such events: its dashboard counts them all as benign (at
    most 500), its posture is MONITOR at any time and for any window, and
    every one of them is served with the recommendation watch. *)
Theorem noise_alone_keeps_the_posture_at_monitor :
  forall (ds : list (string * NoiseDraws)) (now clock w : Z),
    let s := (add_events (noise_calls ds) initial).2 in
    Forall is_noise (map snd (noise_calls ds))
    /\ Forall (fun e => e_id e = Some 0) (map snd (noise_calls ds))
    /\ Forall is_noise (_events s)
    /\ total (get_dashboard_counts s) = Nat.min (length ds) _MAX_EVENTS
    /\ by_severity (get_dashboard_counts s) !! "benign"%string
       = Some (Nat.min (length ds) _MAX_EVENTS)
    /\ get_posture now w s = "MONITOR"%string
    /\ (forall e, e ∈ _events s ->
          ser_recommendation (serialize_event clock e) = "watch"%string).
Proof.
  intros ds now clock w s.
  assert (Hcalls : Forall is_noise (map snd (noise_calls ds))).
  { unfold noise_calls. rewrite List.map_map. apply Forall_forall.
    intros e He. apply list_elem_of_In, List.in_map_iff in He as (x & <- & _).
    apply generate_noise_event_is_noise. }
  assert (Hs : Forall is_noise (_events s)).
  { apply add_events_is_noise; [exact Hcalls | constructor]. }
  assert (Hlen : length (_events s) = Nat.min (length ds) _MAX_EVENTS).
  { subst s. rewrite StateProps.add_events_buffer by (cbn; lia).
    cbn [initial _events app]. rewrite length_drop.
    rewrite StateProps.add_events_length. unfold noise_calls.
    rewrite length_map. lia. }
  split; [exact Hcalls|]. split.
  { unfold noise_calls. rewrite List.map_map. apply Forall_forall.
    intros e He. apply list_elem_of_In, List.in_map_iff in He as (x & <- & _).
    apply generate_noise_event_is_noise. }
  split; [exact Hs|]. split; [exact Hlen|]. split; [|split].
  - cbn [get_dashboard_counts by_severity]. rewrite StoreProps.counts_lookup.
    destruct (decide ("benign"%string ∈ known_severities)) as [_|Hn];
      [|exfalso; apply Hn; left].
    rewrite count_sev_all, Hlen; [reflexivity|].
    eapply Forall_impl; [exact Hs|]. intros e He. apply He.
  - unfold get_posture.
    set (recent := get_events_in_window now w s).
    assert (Hrecent : Forall is_noise recent).
    { apply Forall_forall. intros e He.
      apply DashboardProps.window_elem in He as [He _].
      rewrite Forall_forall in Hs. now apply Hs. }
    rewrite group_by_chain_unchained.
    + cbn [map]. apply determine_posture_benign.
      apply Forall_forall. intros ev Hev.
      apply list_elem_of_In, List.in_map_iff in Hev as (e & <- & He).
      rewrite Forall_forall in Hrecent.
      apply list_elem_of_In, Hrecent in He. cbn. f_equal. apply He.
    + apply Forall_forall. intros ev Hev.
      apply list_elem_of_In, List.in_map_iff in Hev as (e & <- & He).
      rewrite Forall_forall in Hrecent.
      apply list_elem_of_In, Hrecent in He. cbn. apply He.
  - intros e He. rewrite Forall_forall in Hs.
    destruct (Hs e He) as (_ & Hst & _).
    unfold serialize_event, recommend_for_event. cbn [ser_recommendation].
    change (d_stage (event_dict e)) with (e_stage e). rewrite Hst.
    reflexivity.
Qed.

End WithParser.

End NoiseProps.

(* ====================================================================== *)
(** ** The two event routes *)
(* ====================================================================== *)

Module RouteProps.
Import Classifier Recommender State Dashboard Vocabulary Tables.

Lemma elem_of_rev_iff {A} (x : A) (l : list A) : x ∈ rev l <-> x ∈ l.
Proof. rewrite !list_elem_of_In. symmetry. apply List.in_rev. Qed.

Section WithParser.
Context {P : IsoParser}.

(** What is served for an event does not depend on the clock. *)
Lemma serialize_event_closed now (e : Event) :
  serialize_event now e
  = mkSerialized (event_dict e) (action_of_stage (e_stage e)).
Proof.
  unfold serialize_event, recommend_for_event. f_equal.
  rewrite AdviceProps.classify_event_risk. unfold risk_of_stage, action_of_stage.
  change (d_stage (event_dict e)) with (e_stage e).
  repeat case_decide; try reflexivity; congruence.
Qed.

Lemma events_listing now now_iso s :
  store_ok s ->
  events now now_iso s
  = (map (serialize_event now) (sorted_newest_first (_events s)), s).
Proof.
  intros Hok. unfold events, get_all_events, _sorted_events_newest_first.
  rewrite (StoreProps.ensure_timestamp_id now_iso _
             (StoreProps.store_ok_timestamps s Hok)).
  destruct s; reflexivity.
Qed.

Lemma elem_of_listing now (l : list Event) r :
  r ∈ map (serialize_event now) (sorted_newest_first l)
  <-> exists e, e ∈ l /\ r = serialize_event now e.
Proof.
  split.
  - intros Hr. apply list_elem_of_In, List.in_map_iff in Hr as (e & <- & He).
    exists e. split; [|reflexivity].
    now apply DashboardProps.elem_of_sorted_newest_first, list_elem_of_In.
  - intros (e & He & ->). apply list_elem_of_In, List.in_map, list_elem_of_In.
    now apply DashboardProps.elem_of_sorted_newest_first.
Qed.

(** The two event routes agree.  On a store in its kept shape,
    [GET /api/events] serves one entry per buffered event and leaves the
    store as it was; [GET /api/events/{id}] answers not found exactly when
    no entry of that listing bears the id, and otherwise serves an entry of
    the listing that bears it, whatever the clocks of the two calls. *)
Theorem event_routes_agree :
  forall (now1 now2 : Z) (now_iso : string) (s : Store) (event_id : Z),
    store_ok s ->
    let listing := (events now1 now_iso s).1 in
    (events now1 now_iso s).2 = s
    /\ length listing = length (_events s)
    /\ (event_detail now2 event_id s = None
        <-> forall r, r ∈ listing -> d_id (ser_event r) <> Some event_id)
    /\ (forall r, event_detail now2 event_id s = Some r ->
          r ∈ listing /\ d_id (ser_event r) = Some event_id).
Proof.
  intros now1 now2 now_iso s event_id Hok listing. subst listing.
  rewrite (events_listing now1 now_iso s Hok). cbn [fst snd].
  pose proof (StateProps.first_with_id_spec event_id (rev (_events s)))
    as Hspec.
  unfold event_detail, get_event_by_id.
  split; [reflexivity|]. split; [|split].
  - rewrite length_map.
    apply Permutation_length, StoreProps.sorted_newest_first_perm.
  - destruct (first_with_id event_id (rev (_events s))) as [e|].
    + destruct Hspec as (before & after & Hrev & Hid & _).
      split; [discriminate|]. intros Hall. exfalso.
      apply (Hall (serialize_event now1 e)).
      * apply elem_of_listing. exists e. split; [|reflexivity].
        apply elem_of_rev_iff. rewrite Hrev. apply elem_of_app. right. left.
      * rewrite serialize_event_closed. exact Hid.
    + split; [|reflexivity]. intros _ r Hr.
      apply elem_of_listing in Hr as (e & He & ->).
      rewrite serialize_event_closed. cbn [ser_event event_dict d_id].
      rewrite Forall_forall in Hspec. apply Hspec.
      now apply elem_of_rev_iff.
  - intros r Hr.
    destruct (first_with_id event_id (rev (_events s))) as [e|];
      [|discriminate].
    inversion Hr; subst r. clear Hr.
    destruct Hspec as (before & after & Hrev & Hid & _).
    split.
    + apply elem_of_listing. exists e. split.
      * apply elem_of_rev_iff. rewrite Hrev. apply elem_of_app. right. left.
      * now rewrite !serialize_event_closed.
    + rewrite serialize_event_closed. exact Hid.
Qed.

End WithParser.

Lemma event_routes_agree_witness :
  exists r,
    @event_detail sample_fromisoformat 43205000000 1 store_with_intrusion
      = Some r
    /\ r ∈ (@events sample_fromisoformat 43210000000 "2024-05-01T12:00:10"
              store_with_intrusion).1.
Proof.
  eexists. split; [vm_compute; reflexivity|].
  refine (proj1 (proj2 (proj2 (proj2
            (event_routes_agree (P := sample_fromisoformat)
               43210000000 43205000000 "2024-05-01T12:00:10"
               store_with_intrusion 1 StoreProps.store_with_intrusion_ok)))
            _ _)).
  vm_compute. reflexivity.
Defined.

End RouteProps.

(* ====================================================================== *)
(** ** What a request that reaches the scheduler does *)
(* ====================================================================== *)

Module RequestProps.
Import State Main Vocabulary Tables.

Lemma map_imap_const {A B C} (h : B -> C) (k : A -> C) (l : list A) :
  forall f : nat -> A -> B,
    (forall i a, h (f i a) = k a) -> map h (imap f l) = map k l.
Proof.
  induction l as [|a l IH]; intros f Hf; [reflexivity|].
  cbn. rewrite Hf. f_equal. apply IH. intros i b. apply Hf.
Qed.

(** The normalizer neither drops nor adds nor reorders events. *)
Lemma normalized_events sampled raw :
  map event (np_plan (_normalize_attack_plan sampled raw)) = raw_events raw.
Proof.
  destruct raw as [cid dur entries|events|]; cbn [_normalize_attack_plan].
  - cbn [np_plan raw_events]. apply map_imap_const.
    intros i [dl ev|ev]; reflexivity.
  - destruct events as [|first rest] eqn:Hev; [reflexivity|].
    rewrite <- Hev. cbn [np_plan raw_events]. apply map_imap_const.
    reflexivity.
  - reflexivity.
Qed.

(** A request that got past the throttles is answered busy exactly at the
    ceiling of 15 active plans; below it, skipped exactly when the raw plan
    carries no entry (an empty dict plan, an empty list, or an unexpected
    value), and scheduled otherwise.  Busy and skipped requests leave the
    server untouched; a scheduled one appends exactly one plan, last in the
    queue, with its cursor at 0, started at the clock reading of the
    request, carrying every event of the raw plan in order. *)
Theorem request_outcome :
  forall (now sampled : Q) (raw : Raw) (st : Server),
    let normalized := _normalize_attack_plan sampled raw in
    let r := request now sampled raw st in
    map event (np_plan normalized) = raw_events raw
    /\ (status r.1 = "busy"%string
        <-> (MAX_ACTIVE_PLANS <= length (_attack_plans st))%nat)
    /\ (status r.1 = "skipped"%string
        <-> (length (_attack_plans st) < MAX_ACTIVE_PLANS)%nat
            /\ raw_events raw = [])
    /\ (status r.1 = "scheduled"%string
        <-> (length (_attack_plans st) < MAX_ACTIVE_PLANS)%nat
            /\ raw_events raw <> [])
    /\ (status r.1 <> "scheduled"%string -> r.2 = st)
    /\ (status r.1 = "scheduled"%string ->
        exists p,
          r.2 = mkServer (_attack_plans st ++ [p]) (_LAST_TRIGGER st)
                         (_TRIGGER_HISTORY st)
          /\ index p = 0%nat /\ start_time p = now
          /\ map event (plan p) = raw_events raw
          /\ chain_id p = np_chain_id normalized
          /\ duration p = np_duration normalized).
Proof.
  intros now sampled raw st normalized r.
  pose proof (normalized_events sampled raw) as Hev. fold normalized in Hev.
  split; [exact Hev|].
  subst r. unfold request, _create_runtime_plan. fold normalized.
  destruct (Nat.leb_spec MAX_ACTIVE_PLANS (length (_attack_plans st)))
    as [Hc|Hc]; cbn [fst snd status].
  - split; [tauto|]. split; [split; [discriminate | lia]|].
    split; [split; [discriminate | lia]|].
    split; [reflexivity | discriminate].
  - destruct (np_plan normalized) as [|en ens] eqn:Hplan;
      cbn [fst snd status].
    + cbn [map] in Hev.
      split; [split; [discriminate | lia]|].
      split; [split; auto|].
      split; [split; [discriminate | intros [_ Hn]; congruence]|].
      split; [reflexivity | discriminate].
    + split; [split; [discriminate | lia]|].
      split; [split; [discriminate | intros [_ He]; rewrite He in Hev;
                                      discriminate Hev]|].
      split; [split; [|reflexivity]|].
      { intros _. split; [exact Hc | rewrite <- Hev; discriminate]. }
      split; [congruence|]. intros _.
      eexists. split; [reflexivity|]. cbn [index start_time plan chain_id
                                             duration].
      repeat split. exact Hev.
Qed.

End RequestProps.

(* ====================================================================== *)
(** ** Random addresses *)
(* ====================================================================== *)

Module AddressProps.
Import EventGenerator.

Lemma random_ip_octets_spec firsts b c d :
  match random_ip_octets firsts b c d with
  | Some (a, b', c', d') =>
      (b', c', d') = (b, c, d)
      /\ (a ∉ _EXCLUDED_PREFIXES)
      /\ exists k, firsts !! k = Some a
                   /\ Forall (fun x => x ∈ _EXCLUDED_PREFIXES) (take k firsts)
  | None => Forall (fun x => x ∈ _EXCLUDED_PREFIXES) firsts
  end.
Proof.
  induction firsts as [|a firsts IH]; cbn [random_ip_octets]; [constructor|].
  destruct (decide (a ∈ _EXCLUDED_PREFIXES)) as [Hin|Hout].
  - rewrite (bool_decide_eq_true_2 _ Hin).
    destruct (random_ip_octets firsts b c d) as [[[[a' b'] c'] d']|].
    + destruct IH as (Heq & Ha & k & Hk & Hall).
      split; [exact Heq|]. split; [exact Ha|].
      exists (S k). split; [exact Hk|]. cbn [take]. now constructor.
    + now constructor.
  - rewrite (bool_decide_eq_false_2 _ Hout).
    split; [reflexivity|]. split; [exact Hout|].
    exists 0%nat. split; [reflexivity | constructor].
Qed.

(** [random_ip] never returns an address whose first octet is on the
    excluded list: it keeps the first drawn octet that is not excluded,
    with the three octets drawn next, and goes on drawing as long as every
    draw is excluded.  With draws in the ranges of the code the address
    has a first octet in 1..254 other than 10, 127, 169, 172, 192 and
    224..239, and a last octet in 1..254. *)
Theorem random_ip_avoids_excluded_prefixes :
  forall (firsts : list Z) (b c d : Z),
    Forall (fun a => 1 <= a <= 254) firsts ->
    0 <= b <= 255 -> 0 <= c <= 255 -> 1 <= d <= 254 ->
    match random_ip_octets firsts b c d with
    | Some (a, b', c', d') =>
        (b', c', d') = (b, c, d)
        /\ (a ∉ _EXCLUDED_PREFIXES)
        /\ 1 <= a <= 254 /\ 0 <= b' <= 255 /\ 0 <= c' <= 255 /\ 1 <= d' <= 254
        /\ exists k, firsts !! k = Some a
                     /\ Forall (fun x => x ∈ _EXCLUDED_PREFIXES)
                               (take k firsts)
    | None => Forall (fun x => x ∈ _EXCLUDED_PREFIXES) firsts
    end.
Proof.
  intros firsts b c d Hf Hb Hc Hd.
  pose proof (random_ip_octets_spec firsts b c d) as Hspec.
  destruct (random_ip_octets firsts b c d) as [[[[a' b'] c'] d']|];
    [|exact Hspec].
  destruct Hspec as (Heq & Ha & k & Hk & Hall).
  inversion Heq; subst b' c' d'.
  split; [reflexivity|]. split; [exact Ha|].
  split; [|split; [exact Hb|split; [exact Hc|split; [exact Hd|]]]].
  - rewrite Forall_forall in Hf. apply Hf.
    eapply list_elem_of_lookup_2. exact Hk.
  - exists k. split; assumption.
Qed.

Lemma random_ip_avoids_excluded_prefixes_witness :
  random_ip_octets [10; 192; 203; 127] 0 113 9 = Some (203, 0, 113, 9)
  /\ 203 ∉ _EXCLUDED_PREFIXES.
Proof.
  pose proof (random_ip_avoids_excluded_prefixes [10; 192; 203; 127] 0 113 9)
    as H.
  assert (E : random_ip_octets [10; 192; 203; 127] 0 113 9
              = Some (203, 0, 113, 9)) by (vm_compute; reflexivity).
  rewrite E in H. split; [reflexivity|].
  apply H; [repeat constructor; lia | lia | lia | lia].
Defined.

End AddressProps.

(* ====================================================================== *)
(** ** The template tables *)
(* ====================================================================== *)

Module TemplateProps.
Import AttackTemplates Tables.

(** Whatever stage and surface it is asked for, [_pick_template] finds a
    pool (no table lookup fails) of two templates, and the template drawn
    is consistent with the request: its category and the stage recorded
    in its details are the stage asked for, its vector is the surface asked
    for, and its text is not empty.  A surface other than ssh and http is
    served as http, a stage other than recon, intrusion and exploit as
    recon. *)
Theorem picked_template_matches_stage_and_surface :
  forall (stage surface : string) (drawn : nat),
    (drawn < 2)%nat ->
    exists tpl,
      _pick_template stage surface drawn = Some tpl
      /\ pt_category tpl = effective_stage stage
      /\ dict_get "stage" (pt_parsed tpl) = Some (VStr (effective_stage stage))
      /\ dict_get "vector" (pt_parsed tpl)
         = Some (VStr (effective_surface surface))
      /\ pt_raw tpl <> ""%string.
Proof.
  intros stage surface drawn Hd.
  assert (Hsurf : effective_surface surface = "ssh"%string
                  \/ effective_surface surface = "http"%string).
  { unfold effective_surface, _SURFACES. case_bool_decide as Hin; [|now right].
    apply elem_of_cons in Hin as [->|Hin]; [now left|].
    apply list_elem_of_singleton in Hin. now right. }
  assert (Hstage : (effective_stage stage = stage
                    /\ (stage = "recon" \/ stage = "intrusion"
                        \/ stage = "exploit"))%string
                   \/ (effective_stage stage = "recon"%string
                       /\ stage <> "recon" /\ stage <> "intrusion"
                       /\ stage <> "exploit")%string).
  { unfold effective_stage. case_bool_decide as Hin.
    - left. split; [reflexivity|].
      repeat (apply elem_of_cons in Hin as [Hin|Hin]; [auto|]).
      inversion Hin.
    - right. split; [reflexivity|].
      repeat split; intros ->; apply Hin; repeat constructor. }
  unfold _pick_template. fold (effective_surface surface).
  assert (Hd2 : drawn = 0%nat \/ drawn = 1%nat) by lia.
  destruct Hstage as [[-> Hst]|(-> & H1 & H2 & H3)].
  - destruct Hst as [ -> | [ -> | -> ]]; destruct Hsurf as [ -> | -> ];
      destruct Hd2 as [ -> | -> ]; cbn; eexists;
      (split; [reflexivity|]); repeat split; discriminate.
  - apply String.eqb_neq in H1, H2, H3. rewrite H1, H2, H3.
    destruct Hsurf as [ -> | -> ]; destruct Hd2 as [ -> | -> ]; cbn; eexists;
      (split; [reflexivity|]); repeat split; discriminate.
Qed.

Lemma picked_template_matches_stage_and_surface_witness :
  exists tpl,
    _pick_template "exploit" "telnet" 1 = Some tpl
    /\ pt_category tpl = "exploit"%string
    /\ dict_get "vector" (pt_parsed tpl) = Some (VStr "http").
Proof.
  destruct (picked_template_matches_stage_and_surface "exploit" "telnet" 1
              ltac:(lia)) as (tpl & Hp & Hc & _ & Hv & _).
  exists tpl. split; [exact Hp|]. split; [exact Hc | exact Hv].
Defined.

End TemplateProps.

(* ====================================================================== *)
(** ** The per-client throttles of the request route *)
(* ====================================================================== *)

Module LimiterProps.
Import State Main Vocabulary Tables.

Lemma request_gets_through now sampled raw st :
  let_through (request now sampled raw st).1 = true
  /\ _LAST_TRIGGER (request now sampled raw st).2 = _LAST_TRIGGER st
  /\ _TRIGGER_HISTORY (request now sampled raw st).2 = _TRIGGER_HISTORY st.
Proof.
  unfold request.
  destruct (MAX_ACTIVE_PLANS <=? _)%nat; [repeat split|].
  destruct (_create_runtime_plan now sampled raw); repeat split.
Qed.

(** The three ways through the throttles, and what each leaves in the two
    per-client tables. *)
Lemma trigger_attack_limiter ip now sampled raw st :
  let last := default 0%Q (_LAST_TRIGGER st !! ip) in
  let kept := List.filter (Qle_bool (now - 60))
                (default [] (_TRIGGER_HISTORY st !! ip)) in
  let r := (trigger_attack ip now sampled raw st).1 in
  let st' := (trigger_attack ip now sampled raw st).2 in
  ((now - last < 15 # 10)%Q /\ past_cooldown r = false /\ let_through r = false
   /\ st' = st)
  \/ ((15 # 10 <= now - last)%Q /\ (30 <= length kept)%nat
      /\ past_cooldown r = true /\ let_through r = false
      /\ _LAST_TRIGGER st' = <[ip := now]> (_LAST_TRIGGER st)
      /\ _TRIGGER_HISTORY st' = <[ip := kept]> (_TRIGGER_HISTORY st))
  \/ ((15 # 10 <= now - last)%Q /\ (length kept < 30)%nat
      /\ past_cooldown r = true /\ let_through r = true
      /\ _LAST_TRIGGER st' = <[ip := now]> (_LAST_TRIGGER st)
      /\ _TRIGGER_HISTORY st' = <[ip := kept ++ [now]]> (_TRIGGER_HISTORY st)).
Proof.
  intros last kept r st'. subst r st'. unfold trigger_attack.
  fold last. cbn [_TRIGGER_HISTORY _LAST_TRIGGER _attack_plans].
  change (List.filter (fun t : Q => Qle_bool (now - 60) t)
            (default [] (_TRIGGER_HISTORY st !! ip))) with kept.
  destruct (Qlt_le_dec (now - last) _TRIGGER_COOLDOWN) as [Hlt|Hge].
  - left. repeat split. exact Hlt.
  - right. unfold _MAX_TRIGGERS_PER_MIN.
    destruct (30 <=? length kept)%nat eqn:Hlen.
    + left. apply Nat.leb_le in Hlen. repeat split; assumption.
    + right. apply Nat.leb_gt in Hlen.
      match goal with
      | |- context [request now sampled raw ?s] =>
          destruct (request_gets_through now sampled raw s) as (Ha & Hl & Hh)
      end.
      split; [exact Hge|]. split; [exact Hlen|].
      split; [|split; [exact Ha|split; [exact Hl | exact Hh]]].
      revert Ha. destruct (request _ _ _ _).1; cbn; congruence.
Qed.

Lemma filter_Qle_weaken (m c : Q) (l : list Q) :
  (m <= c)%Q ->
  List.filter (Qle_bool c) (List.filter (Qle_bool m) l)
  = List.filter (Qle_bool c) l.
Proof.
  intros Hmc. induction l as [|t l IH]; [reflexivity|].
  cbn [List.filter]. destruct (Qle_bool m t) eqn:Hm.
  - cbn [List.filter]. now rewrite IH.
  - rewrite IH. destruct (Qle_bool c t) eqn:Hc; [|reflexivity].
    apply Qle_bool_iff in Hc.
    assert (Hmt : (m <= t)%Q) by (eapply Qle_trans; eassumption).
    apply Qle_bool_iff in Hmt. congruence.
Qed.

Lemma answers_app l1 : forall l2 w,
  answers (l1 ++ l2) w = answers l1 w ++ answers l2 (run l1 w).
Proof.
  induction l1 as [|x l1 IH]; intros l2 w; [reflexivity|].
  cbn [app answers]. rewrite IH, <- app_assoc. reflexivity.
Qed.

Lemma times_of_app sel ip l1 l2 :
  times_of sel ip (l1 ++ l2) = times_of sel ip l1 ++ times_of sel ip l2.
Proof. apply omap_app. Qed.

Lemma times_of_singleton sel ip ip0 t r :
  times_of sel ip [(ip0, t, r)]
  = if decide (ip0 = ip) then if sel r then [t] else [] else [].
Proof.
  unfold times_of. cbn. destruct (decide (ip0 = ip)); [|reflexivity].
  destruct (sel r); reflexivity.
Qed.

Lemma limiter_inv_request ip0 now sampled raw st log ip :
  limiter_inv st log ip ->
  limiter_inv (trigger_attack ip0 now sampled raw st).2
    (log ++ [(ip0, now, (trigger_attack ip0 now sampled raw st).1)]) ip.
Proof.
  intros (Hpc & Hlast & Hadm & Hlen).
  pose proof (trigger_attack_limiter ip0 now sampled raw st) as Hcases.
  cbv zeta in Hcases. unfold limiter_inv.
  rewrite !times_of_app, !times_of_singleton.
  destruct (decide (ip0 = ip)) as [->|Hne].
  - destruct Hcases as [(Hlt & Hp & Ha & Hst)
                       |[(Hge & Hk & Hp & Ha & Hl & Hh)
                        |(Hge & Hk & Hp & Ha & Hl & Hh)]];
      rewrite Hp, Ha; rewrite ?app_nil_r.
    + rewrite Hst. exact (conj Hpc (conj Hlast (conj Hadm Hlen))).
    + rewrite Hl, Hh, !lookup_insert_eq. cbn [default from_option id].
      assert (Hmono : (default 0%Q (_LAST_TRIGGER st !! ip) <= now)%Q).
      { revert Hge. generalize (default 0%Q (_LAST_TRIGGER st !! ip)).
        intros q Hq. lra. }
      assert (H15 : (15 # 10 <= now)%Q).
      { destruct Hlast as [Hn|(t & Ht & Hin)].
        - rewrite Hn in Hge. cbn in Hge. lra.
        - destruct (Hpc t Hin) as [Hlo _]. rewrite Ht in Hge. cbn in Hge. lra. }
      split; [|split; [|split]].
      * intros t Ht. apply elem_of_app in Ht as [Ht|Ht].
        -- destruct (Hpc t Ht) as [Hlo Hhi]. split; [exact Hlo | lra].
        -- apply list_elem_of_singleton in Ht. subst t. split; [exact H15 | lra].
      * right. exists now. split; [reflexivity|].
        apply elem_of_app. right. left.
      * intros c Hc. rewrite filter_Qle_weaken by exact Hc.
        apply Hadm. lra.
      * etransitivity; [apply List.filter_length_le | exact Hlen].
    + rewrite Hl, Hh, !lookup_insert_eq. cbn [default from_option id].
      assert (Hmono : (default 0%Q (_LAST_TRIGGER st !! ip) <= now)%Q).
      { revert Hge. generalize (default 0%Q (_LAST_TRIGGER st !! ip)).
        intros q Hq. lra. }
      assert (H15 : (15 # 10 <= now)%Q).
      { destruct Hlast as [Hn|(t & Ht & Hin)].
        - rewrite Hn in Hge. cbn in Hge. lra.
        - destruct (Hpc t Hin) as [Hlo _]. rewrite Ht in Hge. cbn in Hge. lra. }
      split; [|split; [|split]].
      * intros t Ht. apply elem_of_app in Ht as [Ht|Ht].
        -- destruct (Hpc t Ht) as [Hlo Hhi]. split; [exact Hlo | lra].
        -- apply list_elem_of_singleton in Ht. subst t. split; [exact H15 | lra].
      * right. exists now. split; [reflexivity|].
        apply elem_of_app. right. left.
      * intros c Hc. rewrite !List.filter_app.
        rewrite filter_Qle_weaken by exact Hc.
        f_equal. apply Hadm. lra.
      * rewrite length_app. cbn [length]. lia.
  - rewrite !app_nil_r.
    assert (Hl : _LAST_TRIGGER (trigger_attack ip0 now sampled raw st).2 !! ip
                 = _LAST_TRIGGER st !! ip).
    { destruct Hcases as [(_ & _ & _ & ->)
                         |[(_ & _ & _ & _ & -> & _)|(_ & _ & _ & _ & -> & _)]];
        [reflexivity | | ]; now rewrite lookup_insert_ne. }
    assert (Hh : _TRIGGER_HISTORY (trigger_attack ip0 now sampled raw st).2 !! ip
                 = _TRIGGER_HISTORY st !! ip).
    { destruct Hcases as [(_ & _ & _ & ->)
                         |[(_ & _ & _ & _ & _ & ->)|(_ & _ & _ & _ & _ & ->)]];
        [reflexivity | | ]; now rewrite lookup_insert_ne. }
    rewrite Hl, Hh. exact (conj Hpc (conj Hlast (conj Hadm Hlen))).
Qed.

Lemma limiter_inv_run steps s0 ip :
  limiter_inv (run steps (server_initial, s0)).1
              (answers steps (server_initial, s0)) ip.
Proof.
  induction steps as [|x steps IH] using rev_ind.
  - cbn. unfold limiter_inv. cbn. rewrite !lookup_empty. cbn.
    split; [intros t Ht; inversion Ht|]. split; [now left|].
    split; [reflexivity | lia].
  - rewrite answers_app. unfold run in *. rewrite foldl_app. cbn [foldl].
    fold (run steps (server_initial, s0)) in *.
    destruct x as [ip0 now sampled raw|now stamp|now_iso ev];
      cbn [answers step]; rewrite ?app_nil_r.
    + cbn [fst]. apply limiter_inv_request. exact IH.
    + destruct (tick _ _ _ _ _) as [plans s1]. exact IH.
    + exact IH.
Qed.

(** The throttles in terms of the client's own earlier requests, whatever
    else the server did in between.  After any sequence of requests,
    scheduler ticks and noise events from the initial server, a request
    gets past the cooldown exactly when its clock reads at least 1.5 and
    every earlier request of the same client that got past the cooldown is
    at least 1.5 older; it gets past both throttles exactly when, moreover,
    fewer than 30 earlier requests of that client got past both within the
    60 time units before it.  No client's history ever holds more than 30
    readings. *)
Theorem throttles_follow_client_history :
  forall (steps : list Step) (s0 : Store) (client_ip : string)
         (now sampled : Q) (raw : Raw),
    let w := run steps (server_initial, s0) in
    let log := answers steps (server_initial, s0) in
    let r := (trigger_attack client_ip now sampled raw w.1).1 in
    (past_cooldown r = true
     <-> (15 # 10 <= now)%Q
         /\ forall t, t ∈ times_of past_cooldown client_ip log ->
                      (t + (15 # 10) <= now)%Q)
    /\ (let_through r = true
        <-> past_cooldown r = true
            /\ (length (List.filter (Qle_bool (now - 60))
                          (times_of let_through client_ip log)) < 30)%nat)
    /\ (forall ip,
          (length (default [] (_TRIGGER_HISTORY w.1 !! ip)) <= 30)%nat).
Proof.
  intros steps s0 ip now sampled raw w log r.
  pose proof (limiter_inv_run steps s0 ip) as (Hpc & Hlast & Hadm & Hlen).
  fold w log in Hpc, Hlast, Hadm, Hlen.
  pose proof (trigger_attack_limiter ip now sampled raw w.1) as Hcases.
  cbv zeta in Hcases. fold r in Hcases.
  assert (Hlast_pc : (15 # 10 <= now - default 0%Q (_LAST_TRIGGER w.1 !! ip))%Q
            <-> (15 # 10 <= now)%Q
                /\ forall t, t ∈ times_of past_cooldown ip log ->
                             (t + (15 # 10) <= now)%Q).
  { split.
    - intros Hge. split.
      + destruct Hlast as [Hn|(t & Ht & Hin)].
        * rewrite Hn in Hge. cbn in Hge. lra.
        * destruct (Hpc t Hin) as [Hlo _]. rewrite Ht in Hge. cbn in Hge. lra.
      + intros t Ht. destruct (Hpc t Ht) as [_ Hhi].
        revert Hge Hhi. generalize (default 0%Q (_LAST_TRIGGER w.1 !! ip)).
        intros q H1 H2. lra.
    - intros [H15 Hall]. destruct Hlast as [Hn|(t & Ht & Hin)].
      + rewrite Hn. cbn. lra.
      + rewrite Ht. cbn. specialize (Hall t Hin). lra. }
  assert (Hkept : List.filter (Qle_bool (now - 60))
                    (default [] (_TRIGGER_HISTORY w.1 !! ip))
                  = List.filter (Qle_bool (now - 60))
                      (times_of let_through ip log)
                  \/ (now - default 0%Q (_LAST_TRIGGER w.1 !! ip) < 15 # 10)%Q).
  { destruct (Qlt_le_dec (now - default 0%Q (_LAST_TRIGGER w.1 !! ip)) (15 # 10))
      as [Hlt|Hge]; [now right|].
    left. apply Hadm. revert Hge.
    generalize (default 0%Q (_LAST_TRIGGER w.1 !! ip)). intros q Hq. lra. }
  split; [|split].
  - rewrite <- Hlast_pc.
    destruct Hcases as [(Hlt & Hp & _)|[(Hge & _ & Hp & _)|(Hge & _ & Hp & _)]];
      rewrite Hp; split; auto; try discriminate.
    intros Hge. exfalso. revert Hlt Hge.
    generalize (default 0%Q (_LAST_TRIGGER w.1 !! ip)). intros q H1 H2. lra.
  - destruct Hcases as [(Hlt & Hp & Ha & _)
                       |[(Hge & Hk & Hp & Ha & _)|(Hge & Hk & Hp & Ha & _)]];
      rewrite Hp, Ha.
    + split; [discriminate | intros [H _]; discriminate H].
    + split; [discriminate|]. intros [_ Hl]. exfalso.
      destruct Hkept as [Hkept|Hlt].
      * rewrite Hkept in Hk. lia.
      * revert Hlt Hge. generalize (default 0%Q (_LAST_TRIGGER w.1 !! ip)).
        intros q H1 H2. lra.
    + split; [|reflexivity]. intros _. split; [reflexivity|].
      destruct Hkept as [Hkept|Hlt].
      * now rewrite <- Hkept.
      * exfalso. revert Hlt Hge.
        generalize (default 0%Q (_LAST_TRIGGER w.1 !! ip)).
        intros q H1 H2. lra.
  - intros ip'. apply (limiter_inv_run steps s0 ip').
Qed.

(** The [retry_after] a cooling-down client is told is the remaining
    cooldown rounded to two decimals: a request refused for cooldown
    changes nothing on the server; the advertised wait lies within 0.005 of
    the time left, and between 0 and 1.5 when the clock has not gone back
    since the client's last request; and once the advertised wait plus
    0.005 has passed, the client's next request gets past the cooldown. *)
Theorem retry_after_tells_the_remaining_cooldown :
  forall (client_ip : string) (now sampled : Q) (raw : Raw) (st : Server)
         (retry_after : Q),
    (trigger_attack client_ip now sampled raw st).1
      = Throttled_cooldown retry_after ->
    let last := default 0%Q (_LAST_TRIGGER st !! client_ip) in
    let left := ((15 # 10) - (now - last))%Q in
    (trigger_attack client_ip now sampled raw st).2 = st
    /\ (0 < left)%Q
    /\ (left - (1 # 200) <= retry_after)%Q
    /\ (retry_after <= left + (1 # 200))%Q
    /\ ((last <= now)%Q -> (0 <= retry_after)%Q /\ (retry_after <= 15 # 10)%Q)
    /\ (forall now' sampled' raw',
          (now + retry_after + (1 # 200) <= now')%Q ->
          past_cooldown (trigger_attack client_ip now' sampled' raw' st).1
          = true).
Proof.
  intros ip now sampled raw st ra Hr last left.
  pose proof (trigger_attack_limiter ip now sampled raw st) as Hcases.
  cbv zeta in Hcases. fold last in Hcases.
  destruct Hcases as [(Hlt & _ & _ & Hst)
                     |[(_ & _ & Hp & _)|(_ & _ & Hp & _)]];
    [|rewrite Hr in Hp; discriminate Hp..].
  assert (Hra : ra = round_half_even 100 left).
  { revert Hr. unfold trigger_attack. fold last.
    destruct (Qlt_le_dec (now - last) _TRIGGER_COOLDOWN) as [_|Hge].
    - cbn [fst]. intros Heq. inversion Heq. reflexivity.
    - exfalso. change _TRIGGER_COOLDOWN with (15 # 10)%Q in Hge. lra. }
  assert (Hleft : (0 < left)%Q) by (subst left; lra).
  pose proof (ScenarioProps.round_half_even_lower 100 left) as Hlo.
  pose proof (GeneratorProps.round_half_even_upper 100 left) as Hhi.
  rewrite <- Hra in Hlo, Hhi.
  change (1 # 2 * 100)%Q with (1 # 200)%Q in Hlo, Hhi.
  split; [exact Hst|]. split; [exact Hleft|].
  split; [exact Hlo|]. split; [exact Hhi|]. split.
  - intros Hmono. rewrite Hra. split.
    + apply Qle_trans with (round_half_even 100 0);
        [unfold Qle; vm_compute; discriminate|].
      apply GeneratorProps.round_half_even_mono. lra.
    + apply Qle_trans with (round_half_even 100 (15 # 10));
        [|unfold Qle; vm_compute; discriminate].
      apply GeneratorProps.round_half_even_mono. subst left. lra.
  - intros now' sampled' raw' Hwait.
    pose proof (trigger_attack_limiter ip now' sampled' raw' st) as Hc'.
    cbv zeta in Hc'. fold last in Hc'.
    destruct Hc' as [(Hlt' & _)|[(_ & _ & Hp & _)|(_ & _ & Hp & _)]];
      [|exact Hp..].
    exfalso. subst left. lra.
Qed.

Lemma retry_after_tells_the_remaining_cooldown_witness :
  let st := (trigger_attack "198.51.100.7" 1000 30 (sample_raw 30)
               server_initial).2 in
  (trigger_attack "198.51.100.7" 1001 30 (sample_raw 30) st).2 = st
  /\ past_cooldown
       (trigger_attack "198.51.100.7" 1001.505 30 (sample_raw 30) st).1
     = true.
Proof.
  intros st.
  assert (Hr : (trigger_attack "198.51.100.7" 1001 30 (sample_raw 30) st).1
               = Throttled_cooldown 0.50) by (vm_compute; reflexivity).
  destruct (retry_after_tells_the_remaining_cooldown _ _ _ _ _ _ Hr)
    as (Hst & _ & _ & _ & _ & Hnext).
  split; [exact Hst|]. apply Hnext. unfold Qle. cbn. lia.
Defined.

End LimiterProps.
